(** * ModCacheX: the cache inventory and metadata-extraction engine

    A shallow embedding of [src/ModCacheX.py].  Python values become
    Rocq data, a call that may raise returns in the [exc] monad, a
    [try ... except Exception] is [try_except], and the file system, the
    zip container and the TOML parser are an explicit world the
    operations read and update. *)

From Stdlib Require Import ZArith QArith List Bool Ascii String Lia.
From Stdlib Require Import Sorted Permutation DecimalString DecimalZ DecimalPos.
Import ListNotations.

#[local] Set Warnings "-register-all".
Local Open Scope string_scope.
Local Open Scope Z_scope.

(** ** Exceptions *)

Module Py.

(** The exception classes the modelled calls raise. *)
Inductive exn : Type :=
| KeyError (key : string)
| ValueError
| TypeError
| AttributeError
| OSError
| BadZipFile
| UnicodeDecodeError
| TomlDecodeError.

(** A computation that returns a value or raises. *)
Inductive exc (A : Type) : Type :=
| Ret (a : A)
| Raise (e : exn).
Arguments Ret {A} a.
Arguments Raise {A} e.

Definition bind {A B : Type} (m : exc A) (k : A -> exc B) : exc B :=
  match m with
  | Ret a => k a
  | Raise e => Raise e
  end.

(** [try: m; except Exception as e: h e]. *)
Definition try_except {A : Type} (m : exc A) (h : exn -> exc A) : exc A :=
  match m with
  | Ret a => Ret a
  | Raise e => h e
  end.

Definition raises {A : Type} (m : exc A) : Prop :=
  exists e, m = Raise e.

Definition returns {A : Type} (m : exc A) : Prop :=
  exists a, m = Ret a.

(** [[f(x) for x in l]], stopping at the first call that raises. *)
Fixpoint mapM {A B : Type} (f : A -> exc B) (l : list A) : exc (list B) :=
  match l with
  | [] => Ret []
  | x :: l' =>
      bind (f x) (fun y => bind (mapM f l') (fun ys => Ret (y :: ys)))
  end.

End Py.
Import Py.

Notation "x <- m ;; k" := (bind m (fun x => k))
  (at level 61, m at next level, right associativity).

(** ** Python strings *)

Module Str.

(** [str.lower] on the ASCII letters; other characters are kept. *)
Definition lower_ascii (c : ascii) : ascii :=
  let n := nat_of_ascii c in
  if andb (Nat.leb 65 n) (Nat.leb n 90) then ascii_of_nat (n + 32) else c.

Fixpoint lower (s : string) : string :=
  match s with
  | EmptyString => EmptyString
  | String c s' => String (lower_ascii c) (lower s')
  end.

(** The ASCII characters [str.isspace] accepts: tab to carriage return,
    the four separators 28 to 31, and the space. *)
Definition is_space (c : ascii) : bool :=
  let n := nat_of_ascii c in
  orb (andb (Nat.leb 9 n) (Nat.leb n 13))
      (orb (andb (Nat.leb 28 n) (Nat.leb n 31)) (Nat.eqb n 32)).




(** [s.startswith(p)]. *)
Fixpoint startswith (p s : string) : bool :=
  match p, s with
  | EmptyString, _ => true
  | String a p', String b s' => andb (Ascii.eqb a b) (startswith p' s')
  | String _ _, EmptyString => false
  end.

(** [needle in hay] on two strings. *)
Fixpoint contains (needle hay : string) : bool :=
  orb (startswith needle hay)
      match hay with
      | EmptyString => false
      | String _ hay' => contains needle hay'
      end.

(** [s.endswith(p)]. *)
Fixpoint endswith (p s : string) : bool :=
  orb (String.eqb p s)
      match s with
      | EmptyString => false
      | String _ s' => endswith p s'
      end.

(** [s[:-n]]: the string without its last [n] characters. *)
Definition drop_last (n : nat) (s : string) : string :=
  substring 0 (String.length s - n) s.

(** [s.split()]: the maximal runs of non-blank characters.  [cur] is the
    run being read, reversed. *)
Fixpoint split_go (cur : list ascii) (s : string) : list string :=
  let flush := match cur with
               | [] => []
               | _ => [string_of_list_ascii (rev cur)]
               end in
  match s with
  | EmptyString => flush
  | String c s' =>
      if is_space c then flush ++ split_go [] s'
      else split_go (c :: cur) s'
  end.

Definition split (s : string) : list string := split_go [] s.

(** [s.partition(".")]: the text before the first [c] and, when there is
    one, the text after it. *)
Fixpoint partition (c : ascii) (s : string) : string * option string :=
  match s with
  | EmptyString => (EmptyString, None)
  | String a s' =>
      if Ascii.eqb a c then (EmptyString, Some s')
      else let (h, t) := partition c s' in (String a h, t)
  end.

End Str.

(** ** Numbers as text *)

Module Num.

(** The conversion of an [int] to a [float]: the double nearest to [n],
    a tie going to the even significand of 53 bits.  Below 2^53 in
    absolute value the double is [n] itself.  From 2^1024 on Python
    raises [OverflowError]; the lengths of files stay far below. *)
Definition to_double (n : Z) : Z :=
  let a := Z.abs n in
  if a <? 2 ^ 53 then n
  else
    let ulp := 2 ^ (Z.log2 a - 52) in
    let q := a / ulp in
    let r := a mod ulp in
    let q' := if 2 * r <? ulp then q
              else if ulp <? 2 * r then q + 1
              else if Z.even q then q else q + 1 in
    Z.sgn n * (q' * ulp).

(** An integer's own digits with two zero decimals. *)
Definition decimal_2f (n : Z) : string :=
  NilEmpty.string_of_int (Z.to_int n) ++ ".00".

(** [f"{n:.2f}"] on an [int]: Python converts the integer to a double
    and prints the double's digits, which are those of an integer, with
    two zero decimals. *)
Definition render_2f (n : Z) : string := decimal_2f (to_double n).

(** The digits of a non-empty digit string, as a number. *)
Definition digits (s : string) : option Z :=
  match s with
  | EmptyString => None
  | _ => option_map Z.of_uint (NilEmpty.uint_of_string s)
  end.

(** [float(s)] on the plain decimal literals [ddd] and [ddd.ddd] with an
    optional minus sign; every other text is a [ValueError] here.  The
    size column only ever holds what [render_2f] wrote. *)
Definition parse_float (s : string) : exc Q :=
  let (neg, body) :=
    match s with
    | String "-" r => (true, r)
    | _ => (false, s)
    end in
  let (ip, fp) := Str.partition "." body in
  match digits ip with
  | None => Raise ValueError
  | Some i =>
      let frac :=
        match fp with
        | None => Some 0%Q
        | Some EmptyString => Some 0%Q
        | Some f =>
            option_map
              (fun d => Qmake d (Pos.pow 10 (Pos.of_nat (String.length f))))
              (digits f)
        end in
      match frac with
      | None => Raise ValueError
      | Some q =>
          let v := (inject_Z i + q)%Q in
          Ret (if neg then Qopp v else v)
      end
  end.

End Num.

(** ** SizeFormatter *)

Definition units : list string := ["B"; "KB"; "MB"; "GB"; "TB"].

(** The [while] loop of [format_size]: [size_bytes //= 1024] and
    [unit_index += 1] while the size is at least 1024 and a larger unit
    remains.  Each turn raises [unit_index], so [length units] turns of
    fuel are never used up. *)
Fixpoint format_size_loop (fuel : nat) (size_bytes : Z) (unit_index : nat)
  : Z * nat :=
  match fuel with
  | O => (size_bytes, unit_index)
  | S fuel' =>
      if andb (1024 <=? size_bytes) (Nat.ltb unit_index (List.length units - 1))
      then format_size_loop fuel' (size_bytes / 1024) (unit_index + 1)
      else (size_bytes, unit_index)
  end.

Definition format_size_parts (size_bytes : Z) : Z * nat :=
  format_size_loop (List.length units) size_bytes 0.

(** [format_size]: the magnitude to two decimals, a space, the unit. *)
Definition format_size (size_bytes : Z) : string :=
  let (magnitude, unit_index) := format_size_parts size_bytes in
  Num.render_2f magnitude ++ " " ++ nth unit_index units "".

Definition unit_index_of (size_bytes : Z) : nat :=
  snd (format_size_parts size_bytes).

(** ** [list.sort(key=...)] *)

Section StableSort.
Context {K A : Type}.
(** Python orders two keys with [<] only. *)
Variable lt : K -> K -> bool.

(** [x] goes in front of the first element that is not below it, so it
    stays ahead of the elements of equal key that followed it. *)
Fixpoint insert_keyed (x : K * A) (l : list (K * A)) : list (K * A) :=
  match l with
  | [] => [x]
  | y :: l' =>
      if lt (fst y) (fst x) then y :: insert_keyed x l' else x :: y :: l'
  end.

(** A stable sort of the keyed items: the order [list.sort] produces. *)
Fixpoint sort_keyed (l : list (K * A)) : list (K * A) :=
  match l with
  | [] => []
  | x :: l' => insert_keyed x (sort_keyed l')
  end.

(** [items.sort(key=key)]: every key is computed first, in list order,
    and a key that raises abandons the sort. *)
Definition list_sort (key : A -> exc K) (items : list A) : exc (list A) :=
  keys <- mapM key items ;;
  Ret (map snd (sort_keyed (combine keys items))).
End StableSort.

Definition Qlt_bool (x y : Q) : bool := negb (Qle_bool y x).

(** ** Python values a TOML document holds *)

Inductive pyval : Type :=
| PStr (s : string)
| PInt (z : Z)
| PFloat (q : Q)
| PBool (b : bool)
| PTime (text : string)
| PList (items : list pyval)
| PDict (items : list (string * pyval)).

(** A [dict] with [str] keys, in insertion order. *)
Definition pydict : Type := list (string * pyval).

Fixpoint dict_get {V : Type} (d : list (string * V)) (key : string)
  : option V :=
  match d with
  | [] => None
  | (k, v) :: d' => if String.eqb k key then Some v else dict_get d' key
  end.

Definition dict_has {V : Type} (d : list (string * V)) (key : string)
  : bool :=
  match dict_get d key with
  | Some _ => true
  | None => false
  end.

(** [d[key]]. *)
Definition dict_item {V : Type} (d : list (string * V)) (key : string)
  : exc V :=
  match dict_get d key with
  | Some v => Ret v
  | None => Raise (KeyError key)
  end.

(** [bool(v)]. *)
Definition truthy (v : pyval) : bool :=
  match v with
  | PStr EmptyString => false
  | PStr _ => true
  | PInt z => negb (z =? 0)
  | PFloat q => negb (Qeq_bool q 0)
  | PBool b => b
  | PTime _ => true
  | PList [] => false
  | PList _ => true
  | PDict [] => false
  | PDict _ => true
  end.

(** [needle in v] for a [str] needle: substring of a string, element of
    a list, key of a dict; anything else is not iterable. *)
Definition py_in (needle : string) (v : pyval) : exc bool :=
  match v with
  | PStr s => Ret (Str.contains needle s)
  | PList l =>
      Ret (existsb (fun x => match x with
                             | PStr s => String.eqb needle s
                             | _ => false
                             end) l)
  | PDict d => Ret (dict_has d needle)
  | _ => Raise TypeError
  end.

(** [v[key]] for a [str] key: only a dict can be indexed by one. *)
Definition py_getitem (v : pyval) (key : string) : exc pyval :=
  match v with
  | PDict d => dict_item d key
  | _ => Raise TypeError
  end.


(** ** The file system *)

Module Fs.

(** A path, as its components. *)
Definition path : Type := list string.

(** A zip container: its members in listing order, each with the bytes a
    read returns or the error it raises. *)
Definition archive : Type := list (string * exc (list Byte.byte)).

(** What a name in a directory denotes: a regular file with its length
    and, when the file is a zip container, its members; a link whose
    target is gone; a directory with its entries in listing order. *)
Inductive node : Type :=
| File (size : Z) (zip : option archive)
| Dangling
| Dir (entries : list (string * node)).

(** [os.path.basename]. *)
Definition basename (p : path) : string := last p "".

(** [os.path.join(d, name)]. *)
Definition join (d : path) (name : string) : path := (d ++ [name])%list.

Definition path_eqb (p q : path) : bool :=
  if list_eq_dec string_dec p q then true else false.

Fixpoint get (n : node) (p : path) : option node :=
  match p with
  | [] => Some n
  | c :: p' =>
      match n with
      | Dir es =>
          match dict_get es c with
          | Some child => get child p'
          | None => None
          end
      | _ => None
      end
  end.

(** [os.path.exists]: a dangling link does not exist. *)
Definition exists_ (fs : node) (p : path) : bool :=
  match get fs p with
  | Some Dangling | None => false
  | Some _ => true
  end.

(** [os.path.isfile]. *)
Definition isfile (fs : node) (p : path) : bool :=
  match get fs p with
  | Some (File _ _) => true
  | _ => false
  end.

(** [os.path.getsize]; a directory is given no length here. *)
Definition getsize (fs : node) (p : path) : exc Z :=
  match get fs p with
  | Some (File size _) => Ret size
  | _ => Raise OSError
  end.

(** [zipfile.ZipFile(p, 'r')]. *)
Definition zip_open (fs : node) (p : path) : exc archive :=
  match get fs p with
  | Some (File _ (Some members)) => Ret members
  | Some (File _ None) => Raise BadZipFile
  | _ => Raise OSError
  end.

(** [zip_ref.open(name).read()]: of several members of one name the
    container's index keeps the last. *)
Definition zip_read (z : archive) (name : string) : exc (list Byte.byte) :=
  match dict_get (rev z) name with
  | Some data => data
  | None => Raise (KeyError name)
  end.

Definition dirnames (es : list (string * node)) : list string :=
  map fst (filter (fun e => match snd e with Dir _ => true | _ => false end) es).

Definition filenames (es : list (string * node)) : list string :=
  map fst (filter (fun e => match snd e with Dir _ => false | _ => true end) es).

(** [os.walk(top)], top-down: a directory's own triple, then its
    sub-directories in listing order.  A top that is no directory yields
    nothing. *)
Fixpoint walk (dirpath : path) (n : node) {struct n}
  : list (path * list string * list string) :=
  match n with
  | Dir es =>
      (dirpath, dirnames es, filenames es)
      :: (fix subdirs (l : list (string * node))
            : list (path * list string * list string) :=
            match l with
            | [] => []
            | (name, child) :: l' =>
                app (walk (join dirpath name) child) (subdirs l')
            end) es
  | _ => []
  end.

Definition os_walk (fs : node) (top : path)
  : list (path * list string * list string) :=
  match get fs top with
  | Some n => walk top n
  | None => []
  end.

Fixpoint dict_set {V : Type} (d : list (string * V)) (key : string) (v : V)
  : list (string * V) :=
  match d with
  | [] => [(key, v)]
  | (k, x) :: d' =>
      if String.eqb k key then (k, v) :: d' else (k, x) :: dict_set d' key v
  end.

(** [os.makedirs(p, exist_ok=True)]: the missing directories along [p]
    are made; a component that is no directory stops it. *)
Fixpoint makedirs (n : node) (p : path) {struct p} : exc node :=
  match n with
  | Dir es =>
      match p with
      | [] => Ret n
      | c :: p' =>
          let child := match dict_get es c with
                       | Some x => x
                       | None => Dir []
                       end in
          child' <- makedirs child p' ;;
          Ret (Dir (dict_set es c child'))
      end
  | _ => Raise OSError
  end.

(** Writing a regular file at [p]: the parent must be a directory and
    [p] itself must not be one. *)
Fixpoint put (n : node) (p : path) (f : node) {struct p} : exc node :=
  match n, p with
  | Dir es, [c] =>
      match dict_get es c with
      | Some (Dir _) => Raise OSError
      | _ => Ret (Dir (dict_set es c f))
      end
  | Dir es, c :: p' =>
      match dict_get es c with
      | Some child =>
          child' <- put child p' f ;;
          Ret (Dir (dict_set es c child'))
      | None => Raise OSError
      end
  | _, _ => Raise OSError
  end.

(** [shutil.copy2(src, dst)]: the source must be a regular file; a
    destination that is a directory receives the file under the source's
    base name; copying a file onto itself is refused. *)
Definition copy2 (fs : node) (src dst : path) : exc node :=
  match get fs src with
  | Some (File size zip) =>
      let dst' := match get fs dst with
                  | Some (Dir _) => join dst (basename src)
                  | _ => dst
                  end in
      if path_eqb src dst' then Raise OSError
      else put fs dst' (File size zip)
  | _ => Raise OSError
  end.

End Fs.

(** ** The collaborators outside the program

    [bytes.decode('utf-8')], [toml.loads] and the text Tk shows for a
    cell value are taken as given. *)
Class Extern : Type := {
  decode_utf8 : list Byte.byte -> exc string;
  toml_loads : string -> exc pydict;
  tk_text : pyval -> string
}.

(** ** Data model *)

(** [class ModInfo]. *)
Record ModInfo : Type := {
  file_path : Fs.path;
  name : string;
  size : Z;
  version : option pyval;
  file_name : string
}.

(** [ModInfo.__init__]. *)
Definition ModInfo_init (file_path : Fs.path) (name : string) (size : Z)
    (version : option pyval) : ModInfo :=
  {| file_path := file_path; name := name; size := size;
     version := version; file_name := Fs.basename file_path |}.

(** The columns of the list view. *)
Inductive column : Type := ColName | ColVersion | ColSize | ColPath.

(** The [values] of one line of the list view. *)
Record row : Type := {
  cell_name : string;
  cell_version : pyval;
  cell_size : string;
  cell_path : Fs.path
}.

(** What the status bar says. *)
Inductive status : Type :=
| StLoading
| StReady
| StLoaded (count : nat) (cache_size_str : string)
| StBudgetWarning (cache_size_str : string) (limit : Z)
| StImporting (count : nat)
| StImported (count : nat)
| StFound (count : nat).

(** The error boxes shown to the user. *)
Inductive dialog : Type :=
| ErrCreateCacheDir (e : exn)
| ErrImportFailed (fail_count : nat) (failed_files : list (Fs.path * exn)).

(** The fields of [class ModCacheX] the engine reads and writes. *)
Record ModCacheX : Type := {
  cache_dir : Fs.path;
  max_cache_size : Z;
  mods : list ModInfo;
  mod_tree : list row;
  status_var : status;
  search_var : string;
  dialogs : list dialog
}.

Definition set_status (a : ModCacheX) (s : status) : ModCacheX :=
  {| cache_dir := cache_dir a; max_cache_size := max_cache_size a;
     mods := mods a; mod_tree := mod_tree a; status_var := s;
     search_var := search_var a; dialogs := dialogs a |}.

Definition set_mods (a : ModCacheX) (l : list ModInfo) : ModCacheX :=
  {| cache_dir := cache_dir a; max_cache_size := max_cache_size a;
     mods := l; mod_tree := mod_tree a; status_var := status_var a;
     search_var := search_var a; dialogs := dialogs a |}.

Definition set_mod_tree (a : ModCacheX) (t : list row) : ModCacheX :=
  {| cache_dir := cache_dir a; max_cache_size := max_cache_size a;
     mods := mods a; mod_tree := t; status_var := status_var a;
     search_var := search_var a; dialogs := dialogs a |}.

Definition showerror (a : ModCacheX) (d : dialog) : ModCacheX :=
  {| cache_dir := cache_dir a; max_cache_size := max_cache_size a;
     mods := mods a; mod_tree := mod_tree a; status_var := status_var a;
     search_var := search_var a; dialogs := (dialogs a ++ [d])%list |}.

(** The text shown for a mod without a version. *)
Definition unknown_version : string := "未知".

(** [mod.version or "未知"]. *)
Definition version_or_unknown (v : option pyval) : pyval :=
  match v with
  | Some x => if truthy x then x else PStr unknown_version
  | None => PStr unknown_version
  end.

(** The line [mod_tree.insert] adds for a mod. *)
Definition tree_row (m : ModInfo) : row :=
  {| cell_name := name m;
     cell_version := version_or_unknown (version m);
     cell_size := format_size (size m);
     cell_path := file_path m |}.

Section Engine.
Context {E : Extern}.

(** *** ArchiveMetadataReader *)

(** The body of [parse_mod_version] under its [try]. *)
Definition parse_mod_version_body (fs : Fs.node) (jar_path : Fs.path)
  : exc (option pyval) :=
  zip_ref <- Fs.zip_open fs jar_path ;;
  let toml_files :=
    filter (fun f => andb (Str.startswith "META-INF/" f)
                          (Str.endswith ".toml" f))
           (map fst zip_ref) in
  match toml_files with
  | [] => Ret None
  | first :: _ =>
      raw <- Fs.zip_read zip_ref first ;;
      toml_content <- decode_utf8 raw ;;
      data <- toml_loads toml_content ;;
      match dict_get data "mods" with
      | Some (PList (mod_info :: _)) =>
          has_version <- py_in "version" mod_info ;;
          if has_version then
            version <- py_getitem mod_info "version" ;;
            dollar <- py_in "$" version ;;
            if negb dollar then Ret (Some version) else Ret None
          else Ret None
      | _ => Ret None
      end
  end.

(** [parse_mod_version]: any exception is logged and becomes [None]. *)
Definition parse_mod_version (fs : Fs.node) (jar_path : Fs.path)
  : exc (option pyval) :=
  try_except (parse_mod_version_body fs jar_path) (fun _ => Ret None).

(** *** CacheIndex *)

(** The paths the two loops over one triple of [os.walk] reach: the
    directory joined with each of its file names that passes [keep]. *)
Definition kept_of (keep : string -> bool)
    (t : Fs.path * list string * list string) : list Fs.path :=
  let '(root, _, files) := t in map (Fs.join root) (filter keep files).

(** The paths [os.walk] leads the two loops of a scan through. *)
Definition walk_files (keep : string -> bool) (fs : Fs.node)
    (top : Fs.path) : list Fs.path :=
  flat_map (kept_of keep) (Fs.os_walk fs top).

(** The summing loop of [get_cache_size]; an exception leaves the sum
    where it stood. *)
Fixpoint total_size_loop (fs : Fs.node) (total_size : Z)
    (fps : list Fs.path) : Z :=
  match fps with
  | [] => total_size
  | fp :: rest =>
      if Fs.isfile fs fp then
        match Fs.getsize fs fp with
        | Ret n => total_size_loop fs (total_size + n) rest
        | Raise _ => total_size
        end
      else total_size_loop fs total_size rest
  end.

(** [get_cache_size]. *)
Definition get_cache_size (fs : Fs.node) (a : ModCacheX) : Z * string :=
  let total_size :=
    total_size_loop fs 0 (walk_files (fun _ => true) fs (cache_dir a)) in
  (total_size, format_size total_size).

(** One turn of the loop over [jar_files], under its [try]. *)
Definition load_mod (fs : Fs.node) (jar_path : Fs.path) : exc ModInfo :=
  let file_name := Fs.basename jar_path in
  size <- Fs.getsize fs jar_path ;;
  let mod_name := Str.drop_last 4 file_name in
  version <- parse_mod_version fs jar_path ;;
  Ret (ModInfo_init jar_path mod_name size version).

(** The loop over [jar_files]: a file whose turn raises is logged and
    left out. *)
Definition load_mods (fs : Fs.node) (jar_files : list Fs.path)
  : list ModInfo :=
  flat_map (fun jar_path =>
              match load_mod fs jar_path with
              | Ret m => [m]
              | Raise _ => []
              end) jar_files.

Definition is_jar (file : string) : bool :=
  Str.endswith ".jar" (Str.lower file).

(** [cache_size / (1024 * 1024) > max_cache_size].  The quotient of two
    [int]s is the double nearest to the exact one; the divisor being
    2^20, that is the double nearest to [cache_size], divided exactly.
    Python compares a double with an [int] exactly. *)
Definition over_budget (cache_size limit : Z) : bool :=
  Qlt_bool (inject_Z limit)
           (inject_Z (Num.to_double cache_size) / inject_Z (1024 * 1024)).

(** [refresh_mod_list]. *)
Definition refresh_mod_list (fs : Fs.node) (a : ModCacheX) : Fs.node * ModCacheX :=
  let a := set_status a StLoading in
  let a := set_mod_tree a [] in
  let a := set_mods a [] in
  let made :=
    if negb (Fs.exists_ fs (cache_dir a))
    then Fs.makedirs fs (cache_dir a)
    else Ret fs in
  match made with
  | Raise e =>
      let a := showerror a (ErrCreateCacheDir e) in
      (fs, set_status a StReady)
  | Ret fs =>
      let jar_files := walk_files is_jar fs (cache_dir a) in
      let (cache_size, cache_size_str) := get_cache_size fs a in
      let a := set_mods a (load_mods fs jar_files) in
      let a := set_mod_tree a (map tree_row (mods a)) in
      let a := set_status a
                 (StLoaded (List.length (mods a)) cache_size_str) in
      if andb (0 <? max_cache_size a)
              (over_budget cache_size (max_cache_size a))
      then (fs, set_status a
                  (StBudgetWarning cache_size_str (max_cache_size a)))
      else (fs, a)
  end.

(** *** InventoryStore *)

(** [mod_tree.set(k, col)]: the text of a cell. *)
Definition tree_set (r : row) (col : column) : string :=
  match col with
  | ColName => cell_name r
  | ColVersion => tk_text (cell_version r)
  | ColSize => cell_size r
  | ColPath => String.concat "/" (cell_path r)
  end.

(** The table [units] inside [convert_size]. *)
Definition convert_size_units : list (string * Z) :=
  [("B", 1); ("KB", 1024); ("MB", 1024 * 1024);
   ("GB", 1024 * 1024 * 1024)].

(** [convert_size], the sort key of the size column.  The product is
    a double in Python; on what [format_size] writes it is exact. *)
Definition convert_size (size_str : string) : exc Q :=
  match Str.split size_str with
  | [size; unit] =>
      value <- Num.parse_float size ;;
      factor <- dict_item convert_size_units unit ;;
      Ret (value * inject_Z factor)%Q
  | _ => Raise ValueError
  end.

(** [sort_tree], on the lines of the list view. *)
Definition sort_tree_items (col : column) (items : list row)
  : exc (list row) :=
  match col with
  | ColSize =>
      list_sort Qlt_bool (fun r => convert_size (tree_set r col)) items
  | _ =>
      list_sort String.ltb (fun r => Ret (Str.lower (tree_set r col))) items
  end.

Definition sort_tree (col : column) (a : ModCacheX) : exc ModCacheX :=
  items <- sort_tree_items col (mod_tree a) ;;
  Ret (set_mod_tree a items).




(** *** BulkFileOperations: import *)

(** The locals of [import_mods] and the disk, as the loop carries
    them; [asked] counts the conflict questions put so far. *)
Record import_state : Type := {
  disk : Fs.node;
  success_count : nat;
  fail_count : nat;
  failed_files : list (Fs.path * exn);
  asked : nat
}.

Inductive loop_flow : Type := Next | Break.

(** The copy at the end of a turn, under the turn's [try]. *)
Definition import_copy (s : import_state) (asked' : nat)
    (file_path dest_path : Fs.path) : import_state :=
  match Fs.copy2 (disk s) file_path dest_path with
  | Ret disk' =>
      {| disk := disk'; success_count := S (success_count s);
         fail_count := fail_count s; failed_files := failed_files s;
         asked := asked' |}
  | Raise e =>
      {| disk := disk s; success_count := success_count s;
         fail_count := S (fail_count s);
         failed_files := (failed_files s ++ [(file_path, e)])%list;
         asked := asked' |}
  end.

(** One turn of the loop over the chosen files.  [answers n] is the
    user's reply to the [n]-th question of [askyesnocancel]: [Some
    true] to overwrite, [Some false] to skip, [None] to cancel. *)
Definition import_step (top : Fs.path) (answers : nat -> option bool)
    (s : import_state) (file_path : Fs.path) : import_state * loop_flow :=
  let file_name := Fs.basename file_path in
  let dest_path := Fs.join top file_name in
  if Fs.exists_ (disk s) dest_path then
    let s' := {| disk := disk s; success_count := success_count s;
                 fail_count := fail_count s;
                 failed_files := failed_files s;
                 asked := S (asked s) |} in
    match answers (asked s) with
    | None => (s', Break)
    | Some false => (s', Next)
    | Some true =>
        (import_copy s (S (asked s)) file_path dest_path, Next)
    end
  else (import_copy s (asked s) file_path dest_path, Next).

(** [for file_path in files: ...] with its [break] and [continue]:
    the locals when the loop is left, and whether a [break] left it. *)
Fixpoint import_loop (top : Fs.path) (answers : nat -> option bool)
    (s : import_state) (files : list Fs.path)
  : import_state * loop_flow :=
  match files with
  | [] => (s, Next)
  | file_path :: rest =>
      match import_step top answers s file_path with
      | (s', Next) => import_loop top answers s' rest
      | (s', Break) => (s', Break)
      end
  end.

Definition import_start (fs : Fs.node) : import_state :=
  {| disk := fs; success_count := 0; fail_count := 0;
     failed_files := []; asked := 0 |}.

(** [import_mods], for the [files] the file dialog returned. *)
Definition import_mods (files : list Fs.path)
    (answers : nat -> option bool) (fs : Fs.node) (a : ModCacheX)
  : Fs.node * ModCacheX * import_state :=
  match files with
  | [] => (fs, a, import_start fs)
  | _ =>
      let a := set_status a (StImporting (List.length files)) in
      let s :=
        fst (import_loop (cache_dir a) answers (import_start fs) files) in
      let (fs', a) := refresh_mod_list (disk s) a in
      let a := if Nat.ltb 0 (success_count s)
               then set_status a (StImported (success_count s)) else a in
      let a := if Nat.ltb 0 (fail_count s)
               then showerror a
                      (ErrImportFailed (fail_count s) (failed_files s))
               else a in
      (fs', a, s)
  end.

End Engine.

(** ** Vocabulary of the statements *)

(** Every character of [s] passes [P]. *)
Fixpoint all_chars (P : ascii -> bool) (s : string) : bool :=
  match s with
  | EmptyString => true
  | String c s' => andb (P c) (all_chars P s')
  end.

Definition is_digit (c : ascii) : bool :=
  let n := nat_of_ascii c in andb (Nat.leb 48 n) (Nat.leb n 57).


(** [needle] occurs in [hay]. *)
Definition substring_of (needle hay : string) : Prop :=
  exists before after, hay = before ++ needle ++ after.

(** Keyed items in non-decreasing key order. *)
Definition key_le {A : Type} (x y : Z * A) : Prop := fst x <= fst y.

(** The number of bytes a formatted size stands for: its magnitude times
    its unit. *)
Definition shown_bytes (size_bytes : Z) : Z :=
  let (magnitude, unit_index) := format_size_parts size_bytes in
  magnitude * 1024 ^ Z.of_nat unit_index.

(** The mods in stable ascending order of the bytes their formatted
    sizes stand for. *)
Definition sort_by_shown_bytes (l : list ModInfo) : list ModInfo :=
  map snd (sort_keyed Z.ltb (map (fun m => (shown_bytes (size m), m)) l)).

(** The sort key [convert_size] computes for the formatted size of
    [size_bytes], below the terabyte. *)
Definition size_key (size_bytes : Z) : Q :=
  let (magnitude, unit_index) := format_size_parts size_bytes in
  let factor := nth unit_index (map snd convert_size_units) 0 in
  ((inject_Z magnitude + (0 # 100)) * inject_Z factor)%Q.

(** Two sizes in the order the size column leaves them: ascending, or
    shown alike. *)
Definition size_order (a b : ModInfo) : Prop :=
  size a <= size b \/ format_size (size a) = format_size (size b).

(** ** Stand-ins for the worked examples *)

(** A metadata document declaring version 1.2.3 and one whose version is
    a build placeholder. *)
Definition sample_toml : string :=
  "[[mods]]" ++ String (ascii_of_nat 10) "version = '1.2.3'".

Definition placeholder_toml : string :=
  "[[mods]]" ++ String (ascii_of_nat 10) "version = '${project.version}'".

(** Collaborators for the examples: bytes are read as they stand, the
    parser knows the two documents above, and a cell shows a string as
    it is. *)
#[local] Instance sample_extern : Extern := {|
  decode_utf8 := fun raw => Ret (string_of_list_byte raw);
  toml_loads := fun text =>
    if String.eqb text sample_toml
    then Ret [("mods", PList [PDict [("version", PStr "1.2.3")]])]
    else if String.eqb text placeholder_toml
    then Ret [("mods", PList [PDict [("version", PStr "${project.version}")]])]
    else Raise TomlDecodeError;
  tk_text := fun v => match v with PStr s => s | _ => "" end
|}.

(** A mod of the given name and size, without version. *)
Definition sample_mod (stem : string) (size_bytes : Z) : ModInfo :=
  ModInfo_init ["cache"; stem ++ ".jar"] stem size_bytes None.

(** A member name of the metadata kind: under [META-INF/], ending in
    [.toml]. *)
Definition metadata_name (member : string) : Prop :=
  (exists rest, member = "META-INF/" ++ rest) /\
  (exists stem, member = stem ++ ".toml").

(** ** Vocabulary of the scan *)

(** A well-formed tree: the names in a directory are distinct. *)
Fixpoint wf (n : Fs.node) : Prop :=
  match n with
  | Fs.Dir es =>
      NoDup (map fst es) /\
      (fix all (l : list (string * Fs.node)) : Prop :=
         match l with
         | [] => True
         | e :: l' => wf (snd e) /\ all l'
         end) es
  | _ => True
  end.

(** The paths, relative to [n], of the entries below [n] that are no
    directories and whose name passes [keep]: a directory's own first,
    then those of its sub-directories. *)
Fixpoint rel_files (keep : string -> bool) (n : Fs.node)
  : list Fs.path :=
  match n with
  | Fs.Dir es =>
      (map (fun f => [f]) (filter keep (Fs.filenames es))
       ++ flat_map (fun e => map (cons (fst e)) (rel_files keep (snd e))) es)%list
  | _ => []
  end.

(** The bytes of all regular files below a node. *)
Fixpoint tree_size (n : Fs.node) : Z :=
  match n with
  | Fs.File size _ => size
  | Fs.Dangling => 0
  | Fs.Dir es => fold_right (fun e acc => tree_size (snd e) + acc) 0 es
  end.

(** The length of the regular file at [p], 0 when there is none. *)
Definition file_bytes (fs : Fs.node) (p : Fs.path) : Z :=
  match Fs.get fs p with
  | Some (Fs.File size _) => size
  | _ => 0
  end.

(** The bytes of all regular files below the directory at [top]; 0 when
    [top] is no directory. *)
Definition dir_bytes (fs : Fs.node) (top : Fs.path) : Z :=
  match Fs.get fs top with
  | Some (Fs.Dir es) => tree_size (Fs.Dir es)
  | _ => 0
  end.

Definition sumZ (l : list Z) : Z := fold_right Z.add 0 l.

(** Induction on a tree, with the hypothesis for every entry of a
    directory. *)
Fixpoint node_rect' (P : Fs.node -> Prop)
    (HFile : forall size zip, P (Fs.File size zip))
    (HDangling : P Fs.Dangling)
    (HDir : forall es, Forall (fun e => P (snd e)) es -> P (Fs.Dir es))
    (n : Fs.node) {struct n} : P n :=
  match n with
  | Fs.File size zip => HFile size zip
  | Fs.Dangling => HDangling
  | Fs.Dir es =>
      HDir es
        ((fix all (l : list (string * Fs.node))
            : Forall (fun e => P (snd e)) l :=
            match l with
            | [] => Forall_nil _
            | e :: l' =>
                Forall_cons e
                  (node_rect' P HFile HDangling HDir (snd e)) (all l')
            end) es)
  end.

(** The first step of a rescan: the disk with the cache directory in
    place, or the error of making it. *)
Definition made_dir (fs : Fs.node) (a : ModCacheX) : exc Fs.node :=
  if negb (Fs.exists_ fs (cache_dir a))
  then Fs.makedirs fs (cache_dir a)
  else Ret fs.

(** A disk whose cache holds [A.jar] with metadata declaring version
    1.2.3, [B.jar] without a metadata member, and a text file. *)
Definition sample_disk : Fs.node :=
  Fs.Dir
    [("cache",
      Fs.Dir
        [("A.jar",
          Fs.File 2048
            (Some [("META-INF/mods.toml",
                    Ret (list_byte_of_string sample_toml))]));
         ("B.jar", Fs.File 512 (Some [("pack.mcmeta", Ret [])]));
         ("notes.txt", Fs.File 100 None)])].

Definition sample_app : ModCacheX :=
  {| cache_dir := ["cache"]; max_cache_size := 0; mods := [];
     mod_tree := []; status_var := StReady; search_var := "";
     dialogs := [] |}.

(** A disk whose cache holds 11 MB in a file that is no archive. *)
Definition full_disk : Fs.node :=
  Fs.Dir [("cache", Fs.Dir [("world.bin", Fs.File (11 * 1024 * 1024) None)])].

(** A disk whose cache holds one byte more than 2^53 in a file that is
    no archive. *)
Definition vast_disk : Fs.node :=
  Fs.Dir [("cache", Fs.Dir [("world.bin", Fs.File (2 ^ 53 + 1) None)])].

(** The object with another cap. *)
Definition set_max_cache_size (a : ModCacheX) (limit : Z) : ModCacheX :=
  {| cache_dir := cache_dir a; max_cache_size := limit;
     mods := mods a; mod_tree := mod_tree a; status_var := status_var a;
     search_var := search_var a; dialogs := dialogs a |}.

(** A disk where a regular file stands in the way of the cache
    directory [blocked/cache]. *)
Definition blocked_disk : Fs.node :=
  Fs.Dir [("blocked", Fs.File 7 None)].

(** An archive whose first metadata member declares a placeholder
    version. *)
Definition placeholder_disk : Fs.node :=
  Fs.Dir
    [("cache",
      Fs.Dir
        [("dev.jar",
          Fs.File 300
            (Some [("mod.class", Ret []);
                   ("META-INF/mods.toml",
                    Ret (list_byte_of_string placeholder_toml))]))])].

(** Two metadata documents, the collaborators that know them, and an
    archive that lists [META-INF/mods.toml] twice, the first entry
    carrying the first document and the second the second. *)
Definition first_toml : string :=
  "[[mods]]" ++ String (ascii_of_nat 10) "version = '1.0'".

Definition second_toml : string :=
  "[[mods]]" ++ String (ascii_of_nat 10) "version = '2.0'".

#[local] Instance twice_extern : Extern := {|
  decode_utf8 := fun raw => Ret (string_of_list_byte raw);
  toml_loads := fun text =>
    if String.eqb text first_toml
    then Ret [("mods", PList [PDict [("version", PStr "1.0")]])]
    else if String.eqb text second_toml
    then Ret [("mods", PList [PDict [("version", PStr "2.0")]])]
    else Raise TomlDecodeError;
  tk_text := fun v => match v with PStr s => s | _ => "" end
|}.

Definition twice_disk : Fs.node :=
  Fs.Dir
    [("cache",
      Fs.Dir
        [("twice.jar",
          Fs.File 200
            (Some [("META-INF/mods.toml",
                    Ret (list_byte_of_string first_toml));
                   ("META-INF/mods.toml",
                    Ret (list_byte_of_string second_toml))]))])].

(** The state after one more conflict question. *)
Definition after_question (s : import_state) : import_state :=
  {| disk := disk s; success_count := success_count s;
     fail_count := fail_count s; failed_files := failed_files s;
     asked := S (asked s) |}.

(** A disk with [b.jar] in the cache and three files to import, one of
    them a second [b.jar]. *)
Definition import_disk : Fs.node :=
  Fs.Dir
    [("cache", Fs.Dir [("b.jar", Fs.File 10 None)]);
     ("downloads",
      Fs.Dir [("a.jar", Fs.File 1 None); ("b.jar", Fs.File 2 None);
              ("c.jar", Fs.File 3 None)])].

Definition import_files : list Fs.path :=
  [["downloads"; "a.jar"]; ["downloads"; "b.jar"]; ["downloads"; "c.jar"]].





(** A file name with the archive extension, in any letter case. *)
Definition jar_name (file : string) : Prop :=
  exists stem ext, file = stem ++ ext /\ Str.lower ext = ".jar".

(** ** Selection, export and delete *)

(** [next((m for m in self.mods if m.file_path == mod_path), None)]. *)
Definition find_mod (inventory : list ModInfo) (mod_path : Fs.path)
  : option ModInfo :=
  find (fun m => Fs.path_eqb (file_path m) mod_path) inventory.

(** [on_mod_select]: the mods behind the selected lines of the list
    view, looked up by the path cell; a line whose path no mod has is
    passed over.  The status bar then reads the number selected. *)
Definition on_mod_select (selected_items : list row) (a : ModCacheX)
  : list ModInfo :=
  flat_map (fun r => match find_mod (mods a) (cell_path r) with
                     | Some m => [m]
                     | None => []
                     end) selected_items.

Fixpoint dict_del {V : Type} (d : list (string * V)) (key : string)
  : list (string * V) :=
  match d with
  | [] => []
  | (k, x) :: d' =>
      if String.eqb k key then d' else (k, x) :: dict_del d' key
  end.

(** [os.remove(p)]: a regular file or a dangling link is unlinked; a
    directory or a missing path is an error. *)
Fixpoint os_remove (n : Fs.node) (p : Fs.path) {struct p} : exc Fs.node :=
  match n, p with
  | Fs.Dir es, [c] =>
      match dict_get es c with
      | Some (Fs.Dir _) | None => Raise OSError
      | Some _ => Ret (Fs.Dir (dict_del es c))
      end
  | Fs.Dir es, c :: p' =>
      match dict_get es c with
      | Some child =>
          child' <- os_remove child p' ;;
          Ret (Fs.Dir (Fs.dict_set es c child'))
      | None => Raise OSError
      end
  | _, _ => Raise OSError
  end.

(** The locals of [export_mods] and of [delete_selected_mods] and the
    disk, as their loops carry them; a failure is filed under the mod's
    file name. *)
Record bulk_state : Type := {
  bulk_disk : Fs.node;
  bulk_success : nat;
  bulk_fail : nat;
  bulk_failed : list (string * exn)
}.

Definition bulk_start (fs : Fs.node) : bulk_state :=
  {| bulk_disk := fs; bulk_success := 0; bulk_fail := 0;
     bulk_failed := [] |}.

(** A turn of either loop: the disk the file operation left and one more
    success, or the old disk and one more failure. *)
Definition bulk_turn (s : bulk_state) (m : ModInfo) (done : exc Fs.node)
  : bulk_state :=
  match done with
  | Ret disk' =>
      {| bulk_disk := disk'; bulk_success := S (bulk_success s);
         bulk_fail := bulk_fail s; bulk_failed := bulk_failed s |}
  | Raise e =>
      {| bulk_disk := bulk_disk s; bulk_success := bulk_success s;
         bulk_fail := S (bulk_fail s);
         bulk_failed := (bulk_failed s ++ [(file_name m, e)])%list |}
  end.

(** The loop of [export_mods]: every selected mod is copied into
    [directory] under its base name. *)
Definition export_loop (directory : Fs.path) (s : bulk_state)
    (selected_mods : list ModInfo) : bulk_state :=
  fold_left
    (fun s m =>
       let dest_path := Fs.join directory (Fs.basename (file_path m)) in
       bulk_turn s m (Fs.copy2 (bulk_disk s) (file_path m) dest_path))
    selected_mods s.

(** The loop of [delete_selected_mods]. *)
Definition delete_loop (s : bulk_state) (selected_mods : list ModInfo)
  : bulk_state :=
  fold_left
    (fun s m => bulk_turn s m (os_remove (bulk_disk s) (file_path m)))
    selected_mods s.

(** What a bulk operation writes to the status bar, and the boxes it
    shows. *)
Inductive bulk_status : Type :=
| StExporting (count : nat)
| StExported (count : nat)
| StDeleted (count : nat).

Inductive bulk_box : Type :=
| InfoSelectFirst
| ErrExportFailed (fail_count : nat) (failed_files : list (string * exn))
| ErrDeleteFailed (fail_count : nat) (failed_files : list (string * exn)).

(** Where a bulk operation leaves the program: the disk, the fields of
    the object, what the operation itself wrote last to the status bar
    ([None]: the bar reads [status_var] of the object), its boxes and its
    counts. *)
Record bulk_result : Type := {
  result_disk : Fs.node;
  result_app : ModCacheX;
  result_status : option bulk_status;
  result_boxes : list bulk_box;
  result_counts : bulk_state
}.

Definition bulk_untouched (fs : Fs.node) (a : ModCacheX)
    (boxes : list bulk_box) : bulk_result :=
  {| result_disk := fs; result_app := a; result_status := None;
     result_boxes := boxes; result_counts := bulk_start fs |}.

(** [export_mods], for the selection [selected_mods] and the directory
    the dialog returned, [None] when the dialog was closed. *)
Definition export_mods (selected_mods : list ModInfo)
    (directory : option Fs.path) (fs : Fs.node) (a : ModCacheX)
  : bulk_result :=
  match selected_mods, directory with
  | [], _ => bulk_untouched fs a [InfoSelectFirst]
  | _, None => bulk_untouched fs a []
  | _, Some dir =>
      let s := export_loop dir (bulk_start fs) selected_mods in
      {| result_disk := bulk_disk s;
         result_app := a;
         result_status :=
           if Nat.ltb 0 (bulk_success s)
           then Some (StExported (bulk_success s))
           else Some (StExporting (List.length selected_mods));
         result_boxes :=
           if Nat.ltb 0 (bulk_fail s)
           then [ErrExportFailed (bulk_fail s) (bulk_failed s)] else [];
         result_counts := s |}
  end.

Section Delete.
Context {E : Extern}.

(** [delete_selected_mods], for the selection and the answer to the
    confirmation question. *)
Definition delete_selected_mods (selected_mods : list ModInfo)
    (confirmed : bool) (fs : Fs.node) (a : ModCacheX) : bulk_result :=
  match selected_mods with
  | [] => bulk_untouched fs a [InfoSelectFirst]
  | _ =>
      if negb confirmed then bulk_untouched fs a []
      else
        let s := delete_loop (bulk_start fs) selected_mods in
        let (fs', a') := refresh_mod_list (bulk_disk s) a in
        {| result_disk := fs';
           result_app := a';
           result_status :=
             if Nat.ltb 0 (bulk_success s)
             then Some (StDeleted (bulk_success s)) else None;
           result_boxes :=
             if Nat.ltb 0 (bulk_fail s)
             then [ErrDeleteFailed (bulk_fail s) (bulk_failed s)] else [];
           result_counts := s |}
  end.

End Delete.

(** ** Vocabulary of the further statements *)

(** The items in the stable order of their keys. *)
Definition sort_by {K A : Type} (lt : K -> K -> bool) (f : A -> K)
    (l : list A) : list A :=
  map snd (sort_keyed lt (map (fun a => (f a, a)) l)).

(** The key a raising key function gives an item, [d] when it raises. *)
Definition key_or {K A : Type} (d : K) (key : A -> exc K) (x : A) : K :=
  match key x with
  | Ret k => k
  | Raise _ => d
  end.

(** The text a text column is sorted by. *)
Definition sort_text {E : Extern} (col : column) (r : row) : string :=
  Str.lower (tree_set r col).







(** The file the logger of the program appends to, in the working
    directory.  The disk of the model does not follow what is appended
    to it; where a statement compares two disks file by file it leaves
    the paths of this name out. *)
Definition log_file : string := "modcachex.log".

(** [fs'] holds the files [fs] holds, the log apart: a path whose base
    name is not the log's holds a regular file, or a dangling link, on
    the one exactly when it holds the same on the other. *)
Definition same_files (fs fs' : Fs.node) : Prop :=
  forall p x,
    Fs.basename p <> log_file -> (forall l, x <> Fs.Dir l) ->
    (Fs.get fs p = Some x <-> Fs.get fs' p = Some x).


(** No regular file of the tree has a negative length. *)
Fixpoint sizes_nonneg (n : Fs.node) : Prop :=
  match n with
  | Fs.File size _ => 0 <= size
  | Fs.Dangling => True
  | Fs.Dir es =>
      (fix all (l : list (string * Fs.node)) : Prop :=
         match l with
         | [] => True
         | e :: l' => sizes_nonneg (snd e) /\ all l'
         end) es
  end.

(** * Theorems *)

(** ** SizeFormatter *)

Ltac div_lia := Z.to_euclidean_division_equations; lia.

(** *** Integers as doubles *)

Lemma to_double_small (n : Z) : Z.abs n < 2 ^ 53 -> Num.to_double n = n.
Proof.
  intros H. unfold Num.to_double.
  now destruct (Z.ltb_spec (Z.abs n) (2 ^ 53)); [|lia].
Qed.

Lemma to_double_nonneg (n : Z) : 0 <= n -> 0 <= Num.to_double n.
Proof.
  intros Hn. unfold Num.to_double.
  destruct (Z.ltb_spec (Z.abs n) (2 ^ 53)) as [|Hbig]; [exact Hn|].
  rewrite (Z.abs_eq n Hn) in *.
  assert (Hpos : 0 < n) by (change (2 ^ 53) with 9007199254740992 in Hbig; lia).
  rewrite (Z.sgn_pos n Hpos), Z.mul_1_l.
  set (ulp := 2 ^ (Z.log2 n - 52)).
  assert (Hulp : 0 < ulp).
  { apply Z.pow_pos_nonneg; [lia|].
    assert (53 <= Z.log2 n) by (apply Z.log2_le_pow2; lia). lia. }
  assert (Hq : 0 <= n / ulp) by (apply Z.div_pos; lia).
  apply Z.mul_nonneg_nonneg; [|lia].
  destruct (2 * (n mod ulp) <? ulp); [exact Hq|].
  destruct (ulp <? 2 * (n mod ulp)); [lia|].
  destruct (Z.even (n / ulp)); lia.
Qed.

Lemma format_size_parts_unfold (b : Z) :
  format_size_parts b =
    if b <? 1024 then (b, 0%nat)
    else if b / 1024 <? 1024 then (b / 1024, 1%nat)
    else if b / 1024 / 1024 <? 1024 then (b / 1024 / 1024, 2%nat)
    else if b / 1024 / 1024 / 1024 <? 1024 then (b / 1024 / 1024 / 1024, 3%nat)
    else (b / 1024 / 1024 / 1024 / 1024, 4%nat).
Proof.
  unfold format_size_parts. cbn [List.length units format_size_loop Nat.sub Nat.ltb Nat.leb Nat.add andb].
  rewrite !Z.leb_antisym.
  repeat (match goal with |- context [?x <? 1024] => destruct (x <? 1024) end; cbn; try reflexivity).
Qed.

Lemma format_size_parts_closed (b : Z) :
  format_size_parts b =
    if b <? 1024 then (b, 0%nat)
    else if b <? 1048576 then (b / 1024, 1%nat)
    else if b <? 1073741824 then (b / 1048576, 2%nat)
    else if b <? 1099511627776 then (b / 1073741824, 3%nat)
    else (b / 1099511627776, 4%nat).
Proof.
  rewrite format_size_parts_unfold.
  rewrite !Z.div_div by lia.
  change (1024 * 1024) with 1048576.
  change (1048576 * 1024) with 1073741824.
  change (1073741824 * 1024) with 1099511627776.
  destruct (Z.ltb_spec b 1024); [reflexivity|].
  destruct (Z.ltb_spec (b / 1024) 1024), (Z.ltb_spec b 1048576); try reflexivity; try (exfalso; div_lia).
  destruct (Z.ltb_spec (b / 1048576) 1024), (Z.ltb_spec b 1073741824); try reflexivity; try (exfalso; div_lia).
  destruct (Z.ltb_spec (b / 1073741824) 1024), (Z.ltb_spec b 1099511627776); try reflexivity; try (exfalso; div_lia).
Qed.

Lemma unit_index_of_le_4 (b : Z) : (unit_index_of b <= 4)%nat.
Proof.
  unfold unit_index_of. rewrite format_size_parts_closed.
  repeat match goal with
         | |- context [?x <? ?y] => destruct (x <? y)
         end; cbn [snd]; lia.
Qed.


Lemma pow_1024_small (j : nat) :
  (j <= 4)%nat ->
  1024 ^ Z.of_nat j =
    nth j [1; 1024; 1048576; 1073741824; 1099511627776] 0.
Proof.
  intros Hj. do 5 (destruct j as [|j]; [reflexivity|]). lia.
Qed.

Lemma format_size_parts_nonneg (b : Z) :
  0 <= b -> 0 <= fst (format_size_parts b).
Proof.
  intros Hb. rewrite format_size_parts_closed.
  repeat match goal with
         | |- context [?x <? ?y] => destruct (Z.ltb_spec x y)
         end; cbn [fst]; div_lia.
Qed.

(** The magnitude of a size below 2^53 TB is shown digit by digit. *)
Lemma to_double_parts (b : Z) :
  0 <= b < 2 ^ 53 * 1024 ^ 4 ->
  Num.to_double (fst (format_size_parts b)) = fst (format_size_parts b).
Proof.
  intros Hb. apply to_double_small.
  pose proof (format_size_parts_nonneg b (proj1 Hb)) as Hnn.
  rewrite Z.abs_eq by exact Hnn. clear Hnn.
  change (2 ^ 53 * 1024 ^ 4) with (9007199254740992 * 1099511627776) in Hb.
  change (2 ^ 53) with 9007199254740992.
  rewrite format_size_parts_closed.
  repeat match goal with
         | |- context [?x <? ?y] => destruct (Z.ltb_spec x y)
         end; cbn [fst]; div_lia.
Qed.





(** ** Rendered sizes read back *)

Lemma string_of_uint_digits (u : Decimal.uint) :
  all_chars is_digit (NilEmpty.string_of_uint u) = true.
Proof. induction u; cbn; auto. Qed.

Lemma digit_not_space (c : ascii) : is_digit c = true -> Str.is_space c = false.
Proof.
  unfold is_digit, Str.is_space. intros H.
  apply andb_true_iff in H. destruct H as [H1 H2].
  apply Nat.leb_le in H1, H2.
  destruct (nat_of_ascii c <=? 13)%nat eqn:E1; [apply Nat.leb_le in E1; lia|].
  destruct (nat_of_ascii c <=? 31)%nat eqn:E2; [apply Nat.leb_le in E2; lia|].
  destruct (nat_of_ascii c =? 32)%nat eqn:E3; [apply Nat.eqb_eq in E3; lia|].
  now rewrite !andb_false_r.
Qed.

Lemma digit_not_dot (c : ascii) : is_digit c = true -> Ascii.eqb c "." = false.
Proof.
  intros H. destruct (Ascii.eqb_spec c "."); [subst; discriminate|reflexivity].
Qed.

Lemma digit_not_minus (c : ascii) : is_digit c = true -> c <> "-"%char.
Proof. intros H ->. discriminate. Qed.

Lemma partition_digits (s r : string) :
  all_chars is_digit s = true ->
  Str.partition "." (s ++ String "." r) = (s, Some r).
Proof.
  induction s as [|c s IH]; cbn; intros H.
  - reflexivity.
  - apply andb_true_iff in H. destruct H as [Hc Hs].
    rewrite (digit_not_dot c Hc), (IH Hs). reflexivity.
Qed.

Lemma split_go_run (s rest : string) (cur : list ascii) :
  all_chars (fun c => negb (Str.is_space c)) s = true ->
  Str.split_go cur (s ++ rest) =
  Str.split_go (rev (list_ascii_of_string s) ++ cur)%list rest.
Proof.
  revert cur. induction s as [|c s IH]; cbn; intros cur H.
  - reflexivity.
  - apply andb_true_iff in H. destruct H as [Hc Hs].
    apply negb_true_iff in Hc. rewrite Hc, (IH _ Hs).
    now rewrite <- app_assoc.
Qed.

Lemma split_two (s u : string) :
  s <> "" ->
  all_chars (fun c => negb (Str.is_space c)) s = true ->
  In u units ->
  Str.split (s ++ " " ++ u) = [s; u].
Proof.
  intros Hne Hs Hu. unfold Str.split.
  rewrite (split_go_run s _ [] Hs), app_nil_r.
  cbn [append Str.split_go]. change (Str.is_space " ") with true. cbv iota.
  destruct (rev (list_ascii_of_string s)) eqn:E.
  - exfalso. apply Hne. apply (f_equal (@rev ascii)) in E.
    rewrite rev_involutive in E. cbn in E.
    rewrite <- (string_of_list_ascii_of_string s), E. reflexivity.
  - rewrite <- E, rev_involutive, string_of_list_ascii_of_string.
    cbn [List.app]. f_equal.
    cbn in Hu. repeat (destruct Hu as [<-|Hu]; [reflexivity|]). contradiction.
Qed.

Lemma all_chars_impl (P Q : ascii -> bool) (s : string) :
  (forall c, P c = true -> Q c = true) ->
  all_chars P s = true -> all_chars Q s = true.
Proof.
  intros HPQ. induction s as [|c s IH]; cbn; [easy|].
  intros H. apply andb_true_iff in H. destruct H as [Hc Hs].
  now rewrite (HPQ c Hc), IH.
Qed.

Lemma all_chars_app (P : ascii -> bool) (s t : string) :
  all_chars P (s ++ t) = andb (all_chars P s) (all_chars P t).
Proof. induction s as [|c s IH]; cbn; [easy|]. now rewrite IH, andb_assoc. Qed.

(** The decimal digits of a natural number. *)
Lemma to_int_nonneg (m : Z) :
  0 <= m ->
  exists u, Z.to_int m = Decimal.Pos u /\ u <> Decimal.Nil /\ Z.of_uint u = m.
Proof.
  intros Hm. pose proof (DecimalZ.of_to m) as Hof.
  destruct m as [|p|p]; try lia; cbn in *.
  - exists Decimal.zero. repeat split; congruence.
  - exists (Pos.to_uint p). repeat split; auto.
    apply Unsigned.to_uint_nonnil.
Qed.

Lemma string_of_uint_nonempty (u : Decimal.uint) :
  u <> Decimal.Nil -> NilEmpty.string_of_uint u <> "".
Proof. destruct u; cbn; congruence. Qed.

Lemma digits_string_of_uint (u : Decimal.uint) :
  u <> Decimal.Nil ->
  Num.digits (NilEmpty.string_of_uint u) = Some (Z.of_uint u).
Proof.
  intros Hu. unfold Num.digits.
  destruct (NilEmpty.string_of_uint u) eqn:E.
  - now apply string_of_uint_nonempty in E.
  - rewrite <- E, NilEmpty.usu. reflexivity.
Qed.

Lemma parse_float_decimal (m : Z) :
  0 <= m ->
  Num.parse_float (Num.decimal_2f m) = Ret (inject_Z m + (0 # 100))%Q.
Proof.
  intros Hm. destruct (to_int_nonneg m Hm) as (u & Hu & Hnil & Hval).
  unfold Num.decimal_2f. rewrite Hu. cbn [NilEmpty.string_of_int].
  pose proof (string_of_uint_digits u) as Hd.
  pose proof (string_of_uint_nonempty u Hnil) as Hne.
  pose proof (digits_string_of_uint u Hnil) as Hdig.
  unfold Num.parse_float.
  set (ds := NilEmpty.string_of_uint u) in *.
  assert (Hbody : (match ds ++ ".00" with
                   | String "-" r => (true, r)
                   | _ => (false, ds ++ ".00")
                   end) = (false, ds ++ ".00")).
  { destruct ds as [|c ds']; [congruence|].
    cbn in Hd. apply andb_true_iff in Hd. destruct Hd as [Hc _].
    cbn [append]. destruct c as [[] [] [] [] [] [] [] []]; try reflexivity; discriminate. }
  rewrite Hbody.
  change (ds ++ ".00") with (ds ++ String "." "00").
  rewrite (partition_digits ds "00" Hd), Hdig, Hval. reflexivity.
Qed.

(** What [float] reads back from a rendered integer is the double the
    rendering went through. *)
Lemma parse_float_render (m : Z) :
  0 <= m ->
  Num.parse_float (Num.render_2f m) =
  Ret (inject_Z (Num.to_double m) + (0 # 100))%Q.
Proof.
  intros Hm. unfold Num.render_2f.
  now apply parse_float_decimal, to_double_nonneg.
Qed.

Lemma decimal_2f_no_space (m : Z) :
  0 <= m ->
  Num.decimal_2f m <> "" /\
  all_chars (fun c => negb (Str.is_space c)) (Num.decimal_2f m) = true.
Proof.
  intros Hm. destruct (to_int_nonneg m Hm) as (u & Hu & Hnil & Hval).
  unfold Num.decimal_2f. rewrite Hu. cbn [NilEmpty.string_of_int]. split.
  - pose proof (string_of_uint_nonempty u Hnil).
    destruct (NilEmpty.string_of_uint u); cbn; congruence.
  - rewrite all_chars_app. apply andb_true_iff. split; [|reflexivity].
    apply (all_chars_impl is_digit); [|apply string_of_uint_digits].
    intros c Hc. now rewrite (digit_not_space c Hc).
Qed.

Lemma render_2f_no_space (m : Z) :
  0 <= m ->
  Num.render_2f m <> "" /\
  all_chars (fun c => negb (Str.is_space c)) (Num.render_2f m) = true.
Proof.
  intros Hm. unfold Num.render_2f.
  now apply decimal_2f_no_space, to_double_nonneg.
Qed.


(** ** The stable sort *)

Section SortFacts.
Context {K A : Type} (lt : K -> K -> bool).

Lemma insert_keyed_perm (x : K * A) (l : list (K * A)) :
  Permutation (insert_keyed lt x l) (x :: l).
Proof.
  induction l as [|y l IH]; cbn; [reflexivity|].
  destruct (lt (fst y) (fst x)); [|reflexivity].
  rewrite IH. apply perm_swap.
Qed.

Lemma sort_keyed_perm (l : list (K * A)) : Permutation (sort_keyed lt l) l.
Proof.
  induction l as [|x l IH]; cbn; [reflexivity|].
  rewrite insert_keyed_perm. now constructor.
Qed.

Lemma sort_keyed_Forall (P : K * A -> Prop) (l : list (K * A)) :
  Forall P l -> Forall P (sort_keyed lt l).
Proof.
  intros H. eapply Permutation_Forall; [|exact H].
  symmetry. apply sort_keyed_perm.
Qed.
End SortFacts.

(** Sorting commutes with a change of keys and payloads that keeps every
    comparison. *)
Section SortTransfer.
Context {K1 K2 A B : Type}.
Variables (lt1 : K1 -> K1 -> bool) (lt2 : K2 -> K2 -> bool).
Variables (f1 : A -> K1) (f2 : A -> K2) (h : A -> B).
Variable P : A -> Prop.
Hypothesis same_order :
  forall a b, P a -> P b -> lt1 (f1 a) (f1 b) = lt2 (f2 a) (f2 b).

Lemma insert_keyed_transfer (a : A) (l : list (K2 * A)) :
  P a ->
  Forall (fun y : K2 * A => fst y = f2 (snd y) /\ P (snd y)) l ->
  insert_keyed lt1 (f1 a, h a)
    (map (fun y : K2 * A => (f1 (snd y), h (snd y))) l) =
  map (fun y : K2 * A => (f1 (snd y), h (snd y)))
    (insert_keyed lt2 (f2 a, a) l).
Proof.
  intros Ha. induction 1 as [|y l [Hy Py] Hl IH]; cbn; [reflexivity|].
  rewrite Hy, (same_order _ _ Py Ha).
  destruct (lt2 (f2 (snd y)) (f2 a)); cbn; [now rewrite IH|reflexivity].
Qed.

Lemma sort_keyed_transfer (l : list A) :
  Forall P l ->
  sort_keyed lt1 (map (fun a => (f1 a, h a)) l) =
  map (fun y : K2 * A => (f1 (snd y), h (snd y)))
    (sort_keyed lt2 (map (fun a => (f2 a, a)) l)).
Proof.
  induction 1 as [|a l Ha Hl IH]; cbn; [reflexivity|].
  rewrite IH. apply insert_keyed_transfer; [exact Ha|].
  apply sort_keyed_Forall. apply Forall_map.
  eapply Forall_impl; [|exact Hl]. intros b Hb. now split.
Qed.

Lemma sort_keyed_transfer_snd (l : list A) :
  Forall P l ->
  map snd (sort_keyed lt1 (map (fun a => (f1 a, h a)) l)) =
  map h (map snd (sort_keyed lt2 (map (fun a => (f2 a, a)) l))).
Proof.
  intros H. rewrite (sort_keyed_transfer l H), !map_map. reflexivity.
Qed.
End SortTransfer.

(** Sorting on integer keys. *)
Section SortZ.
Context {A : Type}.

Lemma insert_keyed_sorted (x : Z * A) (l : list (Z * A)) :
  StronglySorted key_le l -> StronglySorted key_le (insert_keyed Z.ltb x l).
Proof.
  induction 1 as [|y l Hs IH Hy]; cbn.
  - repeat constructor.
  - destruct (Z.ltb_spec (fst y) (fst x)) as [Hlt|Hge].
    + constructor; [exact IH|].
      eapply Permutation_Forall; [symmetry; apply insert_keyed_perm|].
      constructor; [unfold key_le; lia|exact Hy].
    + constructor; [now constructor|].
      constructor; [exact Hge|].
      eapply Forall_impl; [|exact Hy]. unfold key_le. intros; lia.
Qed.

Lemma sort_keyed_sorted (l : list (Z * A)) :
  StronglySorted key_le (sort_keyed Z.ltb l).
Proof.
  induction l as [|x l IH]; cbn; [constructor|].
  now apply insert_keyed_sorted.
Qed.

(** Stability: the items of one key keep the order they had. *)
Lemma insert_keyed_stable (v : Z) (x : Z * A) (l : list (Z * A)) :
  StronglySorted key_le l ->
  filter (fun y => fst y =? v) (insert_keyed Z.ltb x l) =
  filter (fun y => fst y =? v) (x :: l).
Proof.
  induction 1 as [|y l Hs IH Hy]; [reflexivity|].
  cbn [insert_keyed].
  destruct (Z.ltb_spec (fst y) (fst x)) as [Hlt|Hge]; [|reflexivity].
  cbn [filter] in *. rewrite IH.
  destruct (Z.eqb_spec (fst x) v), (Z.eqb_spec (fst y) v); try reflexivity.
  lia.
Qed.

Lemma sort_keyed_stable (v : Z) (l : list (Z * A)) :
  filter (fun y => fst y =? v) (sort_keyed Z.ltb l) =
  filter (fun y => fst y =? v) l.
Proof.
  induction l as [|x l IH]; [reflexivity|].
  cbn [sort_keyed]. rewrite insert_keyed_stable by apply sort_keyed_sorted.
  cbn [filter]. now rewrite IH.
Qed.
End SortZ.


(** ** The size column's sort key *)

Lemma Qle_bool_inject_Z (x y : Z) :
  Qle_bool (inject_Z x) (inject_Z y) = (x <=? y).
Proof. unfold Qle_bool. cbn. now rewrite !Z.mul_1_r. Qed.

Lemma Qlt_bool_inject_Z (x y : Z) :
  Qlt_bool (inject_Z x) (inject_Z y) = (x <? y).
Proof. unfold Qlt_bool. rewrite Qle_bool_inject_Z. symmetry. apply Z.ltb_antisym. Qed.

Lemma size_key_shown_bytes (b : Z) :
  0 <= b < 1024 ^ 4 -> (size_key b == inject_Z (shown_bytes b))%Q.
Proof.
  intros Hb. change (1024 ^ 4) with 1099511627776 in Hb.
  unfold size_key, shown_bytes. rewrite format_size_parts_closed.
  destruct (Z.ltb_spec b 1024); [|
  destruct (Z.ltb_spec b 1048576); [|
  destruct (Z.ltb_spec b 1073741824); [|
  destruct (Z.ltb_spec b 1099511627776); [|lia]]]];
  cbv zeta; cbn [nth map snd convert_size_units];
  unfold Qeq, Qmult, Qplus, inject_Z; cbn [Qnum Qden Pos.mul];
  change (Z.of_nat 0) with 0; change (Z.of_nat 1) with 1;
  change (Z.of_nat 2) with 2; change (Z.of_nat 3) with 3;
  change (1024 ^ 0) with 1; change (1024 ^ 1) with 1024;
  change (1024 ^ 2) with 1048576; change (1024 ^ 3) with 1073741824;
  change (1024 * 1024) with 1048576;
  change (1048576 * 1024) with 1073741824;
  lia.
Qed.

Lemma Qlt_bool_size_key (a b : Z) :
  0 <= a < 1024 ^ 4 -> 0 <= b < 1024 ^ 4 ->
  Qlt_bool (size_key a) (size_key b) = (shown_bytes a <? shown_bytes b).
Proof.
  intros Ha Hb. rewrite <- Qlt_bool_inject_Z. unfold Qlt_bool.
  now rewrite (size_key_shown_bytes a Ha), (size_key_shown_bytes b Hb).
Qed.

Lemma format_size_render (b : Z) :
  format_size b =
  Num.render_2f (fst (format_size_parts b)) ++ " "
  ++ nth (unit_index_of b) units "".
Proof. unfold format_size, unit_index_of. now destruct (format_size_parts b). Qed.

Lemma split_format_size (b : Z) :
  0 <= b ->
  Str.split (format_size b) =
  [Num.render_2f (fst (format_size_parts b)); nth (unit_index_of b) units ""].
Proof.
  intros Hb. rewrite format_size_render.
  destruct (render_2f_no_space _ (format_size_parts_nonneg b Hb)) as [Hne Hsp].
  apply split_two; auto.
  apply nth_In. pose proof (unit_index_of_le_4 b). cbn. lia.
Qed.

(** Below the terabyte the key of a formatted size is computed. *)
Lemma convert_size_format_size (b : Z) :
  0 <= b < 1024 ^ 4 -> convert_size (format_size b) = Ret (size_key b).
Proof.
  intros Hb. unfold convert_size.
  rewrite split_format_size by lia.
  rewrite parse_float_render by (apply format_size_parts_nonneg; lia).
  rewrite to_double_parts
    by (change (1024 ^ 4) with 1099511627776 in Hb;
        change (2 ^ 53 * 1024 ^ 4) with 9903520314283042199192993792; lia).
  change (1024 ^ 4) with 1099511627776 in Hb.
  unfold size_key, unit_index_of. rewrite format_size_parts_closed.
  destruct (Z.ltb_spec b 1024); [|
  destruct (Z.ltb_spec b 1048576); [|
  destruct (Z.ltb_spec b 1073741824); [|
  destruct (Z.ltb_spec b 1099511627776); [|lia]]]];
  reflexivity.
Qed.

(** From the terabyte on the unit is missing from the key's table. *)
Lemma convert_size_terabyte (b : Z) :
  1024 ^ 4 <= b -> convert_size (format_size b) = Raise (KeyError "TB").
Proof.
  intros Hb. unfold convert_size.
  rewrite split_format_size by lia.
  rewrite parse_float_render by (apply format_size_parts_nonneg; lia).
  change (1024 ^ 4) with 1099511627776 in Hb.
  unfold unit_index_of. rewrite format_size_parts_closed.
  destruct (Z.ltb_spec b 1024); [lia|].
  destruct (Z.ltb_spec b 1048576); [lia|].
  destruct (Z.ltb_spec b 1073741824); [lia|].
  destruct (Z.ltb_spec b 1099511627776); [lia|].
  reflexivity.
Qed.

Lemma shown_bytes_order (a b : Z) :
  0 <= a < 1024 ^ 4 -> 0 <= b < 1024 ^ 4 ->
  shown_bytes a <= shown_bytes b ->
  a <= b \/ format_size a = format_size b.
Proof.
  intros Ha Hb. change (1024 ^ 4) with 1099511627776 in *.
  rewrite !format_size_render. unfold shown_bytes, unit_index_of.
  rewrite !format_size_parts_closed.
  destruct (Z.ltb_spec a 1024); [|
  destruct (Z.ltb_spec a 1048576); [|
  destruct (Z.ltb_spec a 1073741824); [|
  destruct (Z.ltb_spec a 1099511627776); [|lia]]]];
  (destruct (Z.ltb_spec b 1024); [|
   destruct (Z.ltb_spec b 1048576); [|
   destruct (Z.ltb_spec b 1073741824); [|
   destruct (Z.ltb_spec b 1099511627776); [|lia]]]]);
  cbn [fst snd nth units]; change (Z.of_nat 0) with 0;
  change (Z.of_nat 1) with 1; change (Z.of_nat 2) with 2;
  change (Z.of_nat 3) with 3;
  change (1024 ^ 0) with 1; change (1024 ^ 1) with 1024;
  change (1024 ^ 2) with 1048576; change (1024 ^ 3) with 1073741824;
  intros Hle; try (left; div_lia).
  all: destruct (Z_le_gt_dec a b) as [Hab|Hab]; [now left|right].
  all: f_equal; f_equal; div_lia.
Qed.


(** ** Sorting the list view by size *)

Section SortTree.
Context {E : Extern}.

Lemma combine_map_map {A B C : Type} (f : A -> B) (g : A -> C) (l : list A) :
  combine (map f l) (map g l) = map (fun x => (f x, g x)) l.
Proof. induction l as [|x l IH]; cbn; [reflexivity|now rewrite IH]. Qed.

Lemma size_keys_computed (shown : list ModInfo) :
  Forall (fun m => 0 <= size m < 1024 ^ 4) shown ->
  mapM (fun r => convert_size (tree_set r ColSize)) (map tree_row shown) =
  Ret (map (fun m => size_key (size m)) shown).
Proof.
  induction 1 as [|m l Hm Hl IH]; cbn [map mapM]; [reflexivity|].
  change (tree_set (tree_row m) ColSize) with (format_size (size m)).
  rewrite (convert_size_format_size _ Hm). cbn [bind].
  rewrite IH. reflexivity.
Qed.

Lemma size_keys_raise (shown : list ModInfo) :
  Forall (fun m => 0 <= size m) shown ->
  Exists (fun m => 1024 ^ 4 <= size m) shown ->
  mapM (fun r => convert_size (tree_set r ColSize)) (map tree_row shown) =
  Raise (KeyError "TB").
Proof.
  induction 1 as [|m l Hm Hl IH]; intros Hex; [inversion Hex|].
  cbn [map mapM].
  change (tree_set (tree_row m) ColSize) with (format_size (size m)).
  destruct (Z_lt_ge_dec (size m) (1024 ^ 4)) as [Hlt|Hge].
  - rewrite convert_size_format_size by lia. cbn [bind].
    rewrite IH; [reflexivity|].
    inversion Hex; subst; [lia|assumption].
  - rewrite convert_size_terabyte by lia. reflexivity.
Qed.

Lemma sort_tree_items_size (shown : list ModInfo) :
  Forall (fun m => 0 <= size m < 1024 ^ 4) shown ->
  sort_tree_items ColSize (map tree_row shown) =
  Ret (map tree_row (sort_by_shown_bytes shown)).
Proof.
  intros Hr. unfold sort_tree_items, list_sort, sort_by_shown_bytes.
  rewrite (size_keys_computed shown Hr). cbn [bind]. f_equal.
  rewrite combine_map_map.
  apply (sort_keyed_transfer_snd Qlt_bool Z.ltb
           (fun m => size_key (size m)) (fun m => shown_bytes (size m))
           tree_row (fun m => 0 <= size m < 1024 ^ 4)); [|exact Hr].
  intros x y Hx Hy. now apply Qlt_bool_size_key.
Qed.

Lemma sort_by_shown_bytes_perm (shown : list ModInfo) :
  Permutation shown (sort_by_shown_bytes shown).
Proof.
  unfold sort_by_shown_bytes.
  rewrite (sort_keyed_perm Z.ltb), map_map. cbn [snd].
  now rewrite map_id.
Qed.

Lemma sort_by_shown_bytes_tagged (shown : list ModInfo) :
  Forall (fun y : Z * ModInfo => fst y = shown_bytes (size (snd y)))
    (sort_keyed Z.ltb (map (fun m => (shown_bytes (size m), m)) shown)).
Proof.
  apply sort_keyed_Forall, Forall_map, Forall_forall. reflexivity.
Qed.

Lemma StronglySorted_tagged (l : list (Z * ModInfo)) :
  Forall (fun y => fst y = shown_bytes (size (snd y))) l ->
  StronglySorted key_le l ->
  StronglySorted
    (fun x y => shown_bytes (size x) <= shown_bytes (size y)) (map snd l).
Proof.
  intros Ht Hs. induction Hs as [|x l Hs IH Hx]; cbn; [constructor|].
  inversion Ht as [|? ? Hx0 Hl0]; subst.
  constructor; [now apply IH|].
  apply Forall_map. rewrite Forall_forall in *.
  intros y Hy. specialize (Hx y Hy). specialize (Hl0 y Hy).
  unfold key_le in Hx. now rewrite <- Hx0, <- Hl0.
Qed.

Lemma sort_by_shown_bytes_sorted (shown : list ModInfo) :
  StronglySorted
    (fun x y => shown_bytes (size x) <= shown_bytes (size y))
    (sort_by_shown_bytes shown).
Proof.
  apply StronglySorted_tagged;
    [apply sort_by_shown_bytes_tagged|apply sort_keyed_sorted].
Qed.

Lemma filter_tagged (v : Z) (l : list (Z * ModInfo)) :
  Forall (fun y => fst y = shown_bytes (size (snd y))) l ->
  filter (fun m => shown_bytes (size m) =? v) (map snd l) =
  map snd (filter (fun y => fst y =? v) l).
Proof.
  induction 1 as [|y l Hy Hl IH]; cbn; [reflexivity|].
  rewrite <- Hy, IH. now destruct (fst y =? v).
Qed.

Lemma sort_by_shown_bytes_stable (v : Z) (shown : list ModInfo) :
  filter (fun m => shown_bytes (size m) =? v) (sort_by_shown_bytes shown) =
  filter (fun m => shown_bytes (size m) =? v) shown.
Proof.
  unfold sort_by_shown_bytes.
  rewrite filter_tagged by apply sort_by_shown_bytes_tagged.
  rewrite sort_keyed_stable.
  rewrite <- filter_tagged by (apply Forall_map, Forall_forall; reflexivity).
  rewrite map_map. cbn [snd]. now rewrite map_id.
Qed.

Lemma StronglySorted_weaken {A : Type} (R S : A -> A -> Prop) (P : A -> Prop)
    (l : list A) :
  (forall x y, P x -> P y -> R x y -> S x y) ->
  Forall P l -> StronglySorted R l -> StronglySorted S l.
Proof.
  intros HRS HP Hs. induction Hs as [|x l Hs IH Hx]; [constructor|].
  inversion HP as [|? ? Px Pl]; subst.
  constructor; [now apply IH|].
  rewrite Forall_forall in *. intros y Hy. apply HRS; auto.
Qed.

Lemma size_order_distinct (l : list ModInfo) :
  NoDup (map (fun m => format_size (size m)) l) ->
  StronglySorted size_order l ->
  StronglySorted (fun x y => size x <= size y) l.
Proof.
  intros Hnd Hs. induction Hs as [|x l Hs IH Hx]; [constructor|].
  cbn in Hnd. inversion Hnd as [|? ? Hnotin Hnd']; subst.
  constructor; [now apply IH|].
  rewrite Forall_forall in *. intros y Hy.
  destruct (Hx y Hy) as [Hle|Heq]; [exact Hle|].
  exfalso. apply Hnotin. rewrite Heq.
  apply (in_map (fun m => format_size (size m))), Hy.
Qed.
End SortTree.


(** ** Claims on the size sort *)

(** C1, as the code has it: sorting the list view by size, with every
    shown size below 1024^4, leaves the lines of the shown mods in stable
    ascending order of the bytes their formatted sizes stand for.  The
    result is a permutation of what was shown, mods whose formatted sizes
    stand for the same bytes keep their order, two mods are out of byte
    order only when their formatted sizes are the same text, and when all
    formatted sizes differ the byte sizes ascend. *)
Theorem sort_tree_size_order {E : Extern} (a : ModCacheX)
    (shown : list ModInfo) :
  mod_tree a = map tree_row shown ->
  Forall (fun m => 0 <= size m < 1024 ^ 4) shown ->
  let sorted := sort_by_shown_bytes shown in
  sort_tree ColSize a = Ret (set_mod_tree a (map tree_row sorted)) /\
  Permutation shown sorted /\
  StronglySorted
    (fun x y => shown_bytes (size x) <= shown_bytes (size y)) sorted /\
  (forall v,
      filter (fun m => shown_bytes (size m) =? v) sorted =
      filter (fun m => shown_bytes (size m) =? v) shown) /\
  StronglySorted size_order sorted /\
  (NoDup (map (fun m => format_size (size m)) shown) ->
   StronglySorted (fun x y => size x <= size y) sorted).
Proof.
  intros Htree Hrange sorted.
  assert (Hperm : Permutation shown sorted)
    by apply sort_by_shown_bytes_perm.
  assert (Hrange' : Forall (fun m => 0 <= size m < 1024 ^ 4) sorted)
    by (eapply Permutation_Forall; eassumption).
  assert (Hsorted :
            StronglySorted
              (fun x y => shown_bytes (size x) <= shown_bytes (size y)) sorted)
    by apply sort_by_shown_bytes_sorted.
  assert (Horder : StronglySorted size_order sorted).
  { eapply StronglySorted_weaken; [|exact Hrange'|exact Hsorted].
    intros x y Hx Hy Hle. now apply shown_bytes_order. }
  repeat apply conj; auto.
  - unfold sort_tree. rewrite Htree, (sort_tree_items_size shown Hrange).
    reflexivity.
  - intros v. apply sort_by_shown_bytes_stable.
  - intros Hnd. apply size_order_distinct; [|exact Horder].
    eapply Permutation_NoDup; [|exact Hnd].
    now apply Permutation_map.
Qed.

(** The sizes 2048, 512 and 1048576 of the specification come out as
    512, 2048, 1048576. *)
Lemma sort_tree_size_order_witness :
  let shown := [sample_mod "two" 2048; sample_mod "half" 512;
                sample_mod "big" 1048576] in
  let a := {| cache_dir := ["cache"]; max_cache_size := 0; mods := shown;
              mod_tree := map tree_row shown; status_var := StReady;
              search_var := ""; dialogs := [] |} in
  map size (sort_by_shown_bytes shown) = [512; 2048; 1048576] /\
  sort_tree (E := sample_extern) ColSize a =
    Ret (set_mod_tree a (map tree_row (sort_by_shown_bytes shown))) /\
  StronglySorted (fun x y => size x <= size y) (sort_by_shown_bytes shown).
Proof.
  intros shown a.
  assert (Hrange : Forall (fun m => 0 <= size m < 1024 ^ 4) shown)
    by (repeat constructor; cbn; lia).
  destruct (sort_tree_size_order (E := sample_extern) a shown eq_refl Hrange)
    as (Hrun & _ & _ & _ & _ & Hasc).
  split; [reflexivity|]. split; [exact Hrun|].
  apply Hasc. vm_compute.
  repeat constructor; cbn; intuition discriminate.
Defined.

(** C1, as stated, fails: 2049 and 2048 bytes are both shown as
    [2.00 KB], so the sort leaves 2049 in front of 2048. *)
Lemma sort_tree_size_ties_counterexample :
  let shown := [sample_mod "a" 2049; sample_mod "b" 2048] in
  sort_tree_items (E := sample_extern) ColSize (map tree_row shown) =
    Ret (map tree_row shown) /\
  map size shown = [2049; 2048] /\
  ~ StronglySorted Z.le (map size shown).
Proof.
  cbv zeta. split; [vm_compute; reflexivity|]. split; [reflexivity|].
  intros H. cbn in H. inversion H as [|? ? _ Hall]; subst.
  inversion Hall as [|? ? Hle _]; subst. lia.
Qed.

(** C2, on the code: when a shown mod has 1024^4 bytes or more,
    [sort_tree] on the size column raises [KeyError('TB')]: the unit
    [format_size] writes is missing from [convert_size]'s table, and
    nothing in [sort_tree] catches the error. *)
Theorem sort_tree_size_terabyte_raises {E : Extern} (a : ModCacheX)
    (shown : list ModInfo) :
  mod_tree a = map tree_row shown ->
  Forall (fun m => 0 <= size m) shown ->
  Exists (fun m => 1024 ^ 4 <= size m) shown ->
  sort_tree ColSize a = Raise (KeyError "TB").
Proof.
  intros Htree Hnn Hex. unfold sort_tree, sort_tree_items, list_sort.
  rewrite Htree, (size_keys_raise shown Hnn Hex). reflexivity.
Qed.

Lemma sort_tree_size_terabyte_raises_witness :
  let shown := [sample_mod "huge" (1024 ^ 4)] in
  let a := {| cache_dir := ["cache"]; max_cache_size := 0; mods := shown;
              mod_tree := map tree_row shown; status_var := StReady;
              search_var := ""; dialogs := [] |} in
  format_size (1024 ^ 4) = "1.00 TB" /\
  sort_tree (E := sample_extern) ColSize a = Raise (KeyError "TB").
Proof.
  intros shown a. split; [reflexivity|].
  apply (sort_tree_size_terabyte_raises (E := sample_extern) a shown eq_refl).
  - repeat constructor; cbn; lia.
  - constructor. cbn. lia.
Defined.


(** ** String tests against their meaning *)

Lemma append_nil_r (s : string) : s ++ "" = s.
Proof. induction s as [|c s IH]; cbn; [reflexivity|now rewrite IH]. Qed.

Lemma append_assoc (s t u : string) : (s ++ t) ++ u = s ++ t ++ u.
Proof. induction s as [|c s IH]; cbn; [reflexivity|now rewrite IH]. Qed.

Lemma startswith_spec (p s : string) :
  Str.startswith p s = true <-> exists rest, s = p ++ rest.
Proof.
  revert s. induction p as [|a p IH]; intros s; cbn.
  - split; [intros _; now exists s|reflexivity].
  - destruct s as [|b s]; cbn.
    + split; [discriminate|intros [rest H]; discriminate].
    + rewrite andb_true_iff, IH. split.
      * intros [Hab [rest ->]]. apply Ascii.eqb_eq in Hab. subst.
        now exists rest.
      * intros [rest H]. injection H as -> ->. split.
        -- apply Ascii.eqb_refl.
        -- now exists rest.
Qed.

Lemma contains_spec (needle hay : string) :
  Str.contains needle hay = true <-> substring_of needle hay.
Proof.
  unfold substring_of. induction hay as [|c hay IH].
  - cbn. rewrite orb_false_r, startswith_spec. split.
    + intros [rest H]. now exists "", rest.
    + intros [before [after H]]. destruct before; [|discriminate].
      now exists after.
  - cbn [Str.contains]. rewrite orb_true_iff, IH, startswith_spec. split.
    + intros [[rest H]|[before [after H]]].
      * now exists "", rest.
      * exists (String c before), after. cbn. now rewrite H.
    + intros [before [after H]]. destruct before as [|b before].
      * left. now exists after.
      * right. cbn in H. injection H as -> H. now exists before, after.
Qed.

Lemma endswith_spec (p s : string) :
  Str.endswith p s = true <-> exists stem, s = stem ++ p.
Proof.
  induction s as [|c s IH].
  - cbn. rewrite orb_false_r, String.eqb_eq. split.
    + intros ->. now exists "".
    + intros [stem H]. destruct stem; [easy|discriminate].
  - cbn [Str.endswith]. rewrite orb_true_iff, IH, String.eqb_eq. split.
    + intros [->|[stem ->]]; [now exists ""|now exists (String c stem)].
    + intros [stem H]. destruct stem as [|b stem].
      * left. now rewrite H.
      * right. cbn in H. injection H as -> ->. now exists stem.
Qed.

Lemma metadata_name_test (member : string) :
  andb (Str.startswith "META-INF/" member) (Str.endswith ".toml" member) = true
  <-> metadata_name member.
Proof.
  unfold metadata_name.
  now rewrite andb_true_iff, startswith_spec, endswith_spec.
Qed.

Lemma filter_first {A : Type} (f : A -> bool) (before after : list A) (x : A) :
  Forall (fun y => f y <> true) before -> f x = true ->
  filter f (before ++ x :: after)%list = x :: filter f after.
Proof.
  intros Hb Hx. induction Hb as [|y l Hy Hl IH]; cbn.
  - now rewrite Hx.
  - destruct (f y); [congruence|exact IH].
Qed.

Lemma filter_none {A : Type} (f : A -> bool) (l : list A) :
  Forall (fun y => f y <> true) l -> filter f l = [].
Proof.
  induction 1 as [|y l Hy Hl IH]; cbn; [reflexivity|].
  destruct (f y); [congruence|exact IH].
Qed.

(** ** ArchiveMetadataReader *)

Section Reader.
Context {E : Extern}.

(** Whatever its body does, [parse_mod_version] returns. *)
Lemma parse_mod_version_returns (fs : Fs.node) (jar_path : Fs.path) :
  exists v, parse_mod_version fs jar_path = Ret v.
Proof.
  unfold parse_mod_version.
  destruct (parse_mod_version_body fs jar_path); cbn; eauto.
Qed.

Lemma parse_mod_version_caught (fs : Fs.node) (jar_path : Fs.path) (e : exn) :
  parse_mod_version_body fs jar_path = Raise e ->
  parse_mod_version fs jar_path = Ret None.
Proof. unfold parse_mod_version. now intros ->. Qed.

(** The body, once the archive is open and its first metadata member
    is known. *)
Lemma parse_mod_version_body_first (fs : Fs.node) (jar_path : Fs.path)
    (members : Fs.archive) (before after : list string) (first : string) :
  Fs.zip_open fs jar_path = Ret members ->
  map fst members = (before ++ first :: after)%list ->
  Forall (fun n => ~ metadata_name n) before ->
  metadata_name first ->
  parse_mod_version_body fs jar_path =
    (raw <- Fs.zip_read members first ;;
     toml_content <- decode_utf8 raw ;;
     data <- toml_loads toml_content ;;
     match dict_get data "mods" with
     | Some (PList (mod_info :: _)) =>
         has_version <- py_in "version" mod_info ;;
         if has_version then
           version <- py_getitem mod_info "version" ;;
           dollar <- py_in "$" version ;;
           if negb dollar then Ret (Some version) else Ret None
         else Ret None
     | _ => Ret None
     end).
Proof.
  intros Hopen Hnames Hbefore Hfirst.
  unfold parse_mod_version_body. rewrite Hopen. cbn [bind].
  rewrite Hnames, filter_first; [reflexivity| |].
  - eapply Forall_impl; [|exact Hbefore].
    intros n Hn Htest. now apply Hn, metadata_name_test.
  - now apply metadata_name_test.
Qed.
End Reader.

(** When what is read under the name of the first metadata member parses
    to a document whose [mods] array starts with a table giving [version]
    a string, [parse_mod_version] returns that string if it has no [$] in
    it and [None] if it has one. *)
Lemma parse_mod_version_declared {E : Extern} (fs : Fs.node)
    (jar_path : Fs.path) (members : Fs.archive)
    (before after : list string) (first : string)
    (raw : list Byte.byte) (toml_content : string) (data : pydict)
    (mod_info : pydict) (others : list pyval) (s : string) :
  Fs.zip_open fs jar_path = Ret members ->
  map fst members = (before ++ first :: after)%list ->
  Forall (fun n => ~ metadata_name n) before ->
  metadata_name first ->
  Fs.zip_read members first = Ret raw ->
  decode_utf8 raw = Ret toml_content ->
  toml_loads toml_content = Ret data ->
  dict_get data "mods" = Some (PList (PDict mod_info :: others)) ->
  dict_get mod_info "version" = Some (PStr s) ->
  (~ substring_of "$" s ->
   parse_mod_version fs jar_path = Ret (Some (PStr s))) /\
  (substring_of "$" s -> parse_mod_version fs jar_path = Ret None).
Proof.
  intros Hopen Hnames Hbefore Hfirst Hread Hdecode Hloads Hmods Hversion.
  unfold parse_mod_version.
  rewrite (parse_mod_version_body_first fs jar_path members before after first)
    by assumption.
  rewrite Hread. cbn [bind]. rewrite Hdecode. cbn [bind].
  rewrite Hloads. cbn [bind]. rewrite Hmods.
  cbn [py_in py_getitem bind]. unfold dict_has, dict_item.
  rewrite Hversion. cbn [bind py_in].
  destruct (Str.contains "$" s) eqn:Hc; cbn [negb try_except].
  - split; [|reflexivity].
    intros Hno. exfalso. now apply Hno, contains_spec.
  - split; [reflexivity|].
    intros Hyes. apply contains_spec in Hyes. congruence.
Qed.

(** *** Members of one name *)

Lemma dict_get_app {V : Type} (l1 l2 : list (string * V)) (k : string) :
  dict_get (l1 ++ l2)%list k =
  match dict_get l1 k with
  | Some v => Some v
  | None => dict_get l2 k
  end.
Proof.
  induction l1 as [|[k' v'] l1 IH]; cbn; [reflexivity|].
  now destruct (String.eqb k' k).
Qed.

Lemma dict_get_absent {V : Type} (l : list (string * V)) (k : string) :
  ~ In k (map fst l) <-> dict_get l k = None.
Proof.
  induction l as [|[k' v'] l IH]; cbn; [easy|].
  destruct (String.eqb_spec k' k) as [->|Hne].
  - split; [intros H; destruct H; now left|discriminate].
  - rewrite <- IH. split; [tauto|]. intros H [Heq|Hin]; auto.
Qed.

(** A read by name reaches the last member of the name. *)
Lemma zip_read_last (before after : Fs.archive) (name : string)
    (data : exc (list Byte.byte)) :
  ~ In name (map fst after) ->
  Fs.zip_read (before ++ (name, data) :: after)%list name = data.
Proof.
  intros Hlast. unfold Fs.zip_read.
  rewrite rev_app_distr. cbn [rev]. rewrite <- app_assoc. cbn [List.app].
  rewrite dict_get_app.
  assert (Hnone : dict_get (rev after) name = None).
  { apply dict_get_absent. rewrite map_rev, <- in_rev. exact Hlast. }
  rewrite Hnone. cbn [dict_get]. now rewrite String.eqb_refl.
Qed.

Lemma dict_get_split {V : Type} (l : list (string * V)) (k : string) (v : V) :
  dict_get l k = Some v ->
  exists l1 l2, l = (l1 ++ (k, v) :: l2)%list /\ ~ In k (map fst l1).
Proof.
  induction l as [|[k' v'] l IH]; cbn; [discriminate|].
  destruct (String.eqb_spec k' k) as [->|Hne].
  - intros [= ->]. now exists [], l.
  - intros H. destruct (IH H) as (l1 & l2 & -> & Hnot).
    exists ((k', v') :: l1), l2. split; [reflexivity|].
    cbn. intros [Heq|Hin]; auto.
Qed.

(** What a read by name returns is held by the last member of the name. *)
Lemma zip_read_held (members : Fs.archive) (name : string)
    (raw : list Byte.byte) :
  Fs.zip_read members name = Ret raw ->
  exists before after,
    members = (before ++ (name, Ret raw) :: after)%list /\
    ~ In name (map fst after).
Proof.
  unfold Fs.zip_read. intros H.
  destruct (dict_get (rev members) name) as [data|] eqn:Hget;
    [|discriminate].
  subst data. destruct (dict_get_split _ _ _ Hget) as (l1 & l2 & Hrev & Hnot).
  exists (rev l2), (rev l1). split.
  - rewrite <- (rev_involutive members), Hrev, rev_app_distr. cbn [rev].
    now rewrite <- app_assoc.
  - now rewrite map_rev, <- in_rev.
Qed.

(** C3: an archive may list a name twice, and then
    [zip_ref.open(toml_files[0])] reads the last member of the name of
    the first metadata member, not the first one listed.  Whatever the
    first metadata member holds, when a later member of its name is the
    last of that name and parses to a document whose [mods] array starts
    with a table giving [version] a string without [$],
    [parse_mod_version] returns that later string. *)
Theorem parse_mod_version_repeated_name {E : Extern} (fs : Fs.node)
    (jar_path : Fs.path) (members before between after : Fs.archive)
    (first : string) (entry : exc (list Byte.byte))
    (raw : list Byte.byte) (toml_content : string) (data : pydict)
    (mod_info : pydict) (others : list pyval) (s : string) :
  Fs.zip_open fs jar_path = Ret members ->
  members =
    (before ++ (first, entry) :: between ++ (first, Ret raw) :: after)%list ->
  Forall (fun m => ~ metadata_name (fst m)) before ->
  metadata_name first ->
  ~ In first (map fst after) ->
  decode_utf8 raw = Ret toml_content ->
  toml_loads toml_content = Ret data ->
  dict_get data "mods" = Some (PList (PDict mod_info :: others)) ->
  dict_get mod_info "version" = Some (PStr s) ->
  ~ substring_of "$" s ->
  parse_mod_version fs jar_path = Ret (Some (PStr s)).
Proof.
  intros Hopen Hmembers Hbefore Hfirst Hlast Hdecode Hloads Hmods Hversion
         Hdollar.
  refine (proj1 (parse_mod_version_declared fs jar_path members
                   (map fst before)
                   (map fst (between ++ (first, Ret raw) :: after)%list)
                   first raw toml_content data mod_info others s
                   Hopen _ _ Hfirst _ Hdecode Hloads Hmods Hversion)
                Hdollar).
  - rewrite Hmembers, map_app. reflexivity.
  - apply Forall_forall. intros n Hn. apply in_map_iff in Hn.
    destruct Hn as (m & <- & Hm).
    rewrite Forall_forall in Hbefore. now apply Hbefore.
  - rewrite Hmembers.
    change (before ++ (first, entry) :: between ++ (first, Ret raw) :: after)%list
      with (before ++ ((first, entry) :: between)
                   ++ (first, Ret raw) :: after)%list.
    rewrite app_assoc. now apply zip_read_last.
Qed.


(** ** The directory tree *)

Lemma dict_get_In {V : Type} (d : list (string * V)) (k : string) (v : V) :
  dict_get d k = Some v -> In (k, v) d.
Proof.
  induction d as [|[k' v'] d IH]; cbn; [discriminate|].
  destruct (String.eqb_spec k' k) as [->|Hne].
  - intros [= ->]. now left.
  - intros H. right. now apply IH.
Qed.

Lemma dict_get_NoDup {V : Type} (d : list (string * V)) (k : string) (v : V) :
  NoDup (map fst d) -> In (k, v) d -> dict_get d k = Some v.
Proof.
  induction d as [|[k' v'] d IH]; cbn; [easy|].
  intros Hnd Hin. inversion Hnd as [|? ? Hnotin Hnd']; subst.
  destruct Hin as [[= -> ->]|Hin].
  - now rewrite String.eqb_refl.
  - destruct (String.eqb_spec k' k) as [->|Hne]; [|now apply IH].
    exfalso. apply Hnotin. now apply (in_map fst) in Hin.
Qed.

Lemma wf_Dir (es : list (string * Fs.node)) :
  wf (Fs.Dir es) <-> NoDup (map fst es) /\ Forall (fun e => wf (snd e)) es.
Proof.
  cbn [wf]. apply and_iff_compat_l.
  induction es as [|e es IH]; [split; constructor|].
  rewrite IH. split.
  - intros [He Hes]. now constructor.
  - intros H. inversion H; subst. now split.
Qed.

Lemma get_app (n : Fs.node) (p q : Fs.path) :
  Fs.get n (p ++ q)%list =
  match Fs.get n p with
  | Some m => Fs.get m q
  | None => None
  end.
Proof.
  revert n. induction p as [|c p IH]; intros n; cbn; [reflexivity|].
  destruct n as [| |es]; try reflexivity.
  destruct (dict_get es c); [apply IH|reflexivity].
Qed.

Lemma get_not_dir (n : Fs.node) (p : Fs.path) :
  (forall es, n <> Fs.Dir es) -> p <> [] -> Fs.get n p = None.
Proof.
  intros Hn Hp. destruct p as [|c p]; [congruence|].
  destruct n as [| |es]; cbn; try reflexivity. now destruct (Hn es).
Qed.

(** What [os.walk] visits, by relative paths. *)
Section Walk.
Variable keep : string -> bool.

Lemma walk_Dir (d : Fs.path) (es : list (string * Fs.node)) :
  Fs.walk d (Fs.Dir es) =
  (d, Fs.dirnames es, Fs.filenames es)
  :: flat_map (fun e => Fs.walk (Fs.join d (fst e)) (snd e)) es.
Proof.
  cbn [Fs.walk]. f_equal.
  induction es as [|[name child] es IH]; cbn; [reflexivity|].
  now rewrite IH.
Qed.

Lemma walk_rel_files (n : Fs.node) :
  forall d, flat_map (kept_of keep) (Fs.walk d n) =
            map (app d) (rel_files keep n).
Proof.
  induction n as [size zip| |es IH] using node_rect'; intros d;
    try reflexivity.
  rewrite walk_Dir. cbn [flat_map kept_of rel_files].
  rewrite map_app, map_map. f_equal.
  induction IH as [|e es He Hes IHes]; [reflexivity|].
  cbn [flat_map]. rewrite flat_map_app, map_app, IHes, He, map_map.
  f_equal. apply map_ext. intros r. unfold Fs.join.
  now rewrite <- app_assoc.
Qed.

Lemma walk_files_rel (fs : Fs.node) (top : Fs.path) :
  walk_files keep fs top =
  match Fs.get fs top with
  | Some n => map (app top) (rel_files keep n)
  | None => []
  end.
Proof.
  unfold walk_files, Fs.os_walk.
  destruct (Fs.get fs top) as [n|]; [|reflexivity].
  apply walk_rel_files.
Qed.

Lemma rel_files_nonempty (n : Fs.node) (r : Fs.path) :
  In r (rel_files keep n) -> r <> [].
Proof.
  destruct n as [| |es]; cbn [rel_files]; try easy.
  rewrite in_app_iff, in_map_iff, in_flat_map.
  intros [[f [<- _]]|[e [_ H]]]; [discriminate|].
  apply in_map_iff in H. destruct H as [r' [<- _]]. discriminate.
Qed.

Lemma filenames_In (es : list (string * Fs.node)) (f : string) :
  In f (Fs.filenames es) <->
  exists child, In (f, child) es /\ forall l, child <> Fs.Dir l.
Proof.
  unfold Fs.filenames. rewrite in_map_iff. split.
  - intros [[f' child] [<- H]]. apply filter_In in H. destruct H as [Hin Hk].
    exists child. split; [exact Hin|]. cbn in Hk.
    intros l ->. discriminate.
  - intros [child [Hin Hk]]. exists (f, child). split; [reflexivity|].
    apply filter_In. split; [exact Hin|]. cbn.
    destruct child; try reflexivity. now destruct (Hk entries).
Qed.

(** Under a well-formed node the kept relative paths are exactly the
    paths that lead to an entry that is no directory and whose name is
    kept. *)
Lemma rel_files_In (n : Fs.node) :
  wf n ->
  forall r, In r (rel_files keep n) <->
            r <> [] /\ keep (last r "") = true /\
            exists child, Fs.get n r = Some child /\
                          forall l, child <> Fs.Dir l.
Proof.
  induction n as [size zip| |es IH] using node_rect'; intros Hwf r.
  - cbn [rel_files In]. split; [easy|].
    intros (Hr & _ & child & Hget & _).
    rewrite get_not_dir in Hget; easy.
  - cbn [rel_files In]. split; [easy|].
    intros (Hr & _ & child & Hget & _).
    rewrite get_not_dir in Hget; easy.
  - apply wf_Dir in Hwf. destruct Hwf as [Hnd Hwf].
    cbn [rel_files]. rewrite in_app_iff, in_map_iff, in_flat_map. split.
    + intros [[f [<- Hf]]|[[name child] [Hin Hr]]].
      * apply filter_In in Hf. destruct Hf as [Hf Hk].
        apply filenames_In in Hf. destruct Hf as [child [Hin Hnot]].
        split; [discriminate|]. split; [exact Hk|].
        exists child. cbn. now rewrite (dict_get_NoDup es f child Hnd Hin).
      * cbn [fst snd] in Hr. apply in_map_iff in Hr.
        destruct Hr as [r' [<- Hr']].
        rewrite Forall_forall in IH, Hwf.
        apply (IH _ Hin (Hwf _ Hin)) in Hr'. cbn [snd] in Hr'.
        destruct Hr' as (Hne & Hk & leaf & Hget & Hnot).
        split; [discriminate|]. split.
        -- destruct r'; [congruence|exact Hk].
        -- exists leaf. cbn.
           now rewrite (dict_get_NoDup es name child Hnd Hin).
    + intros (Hne & Hk & leaf & Hget & Hnot).
      destruct r as [|c r]; [congruence|]. cbn in Hget.
      destruct (dict_get es c) as [child|] eqn:Hc; [|discriminate].
      apply dict_get_In in Hc.
      destruct r as [|c' r].
      * left. exists c. split; [reflexivity|].
        apply filter_In. split; [|exact Hk].
        apply filenames_In. exists child. cbn in Hget.
        injection Hget as ->. now split.
      * right. exists (c, child). split; [exact Hc|]. cbn [fst snd].
        apply in_map. rewrite Forall_forall in IH, Hwf.
        apply (IH _ Hc (Hwf _ Hc)). cbn [snd].
        split; [discriminate|]. split; [exact Hk|]. now exists leaf.
Qed.

Lemma filenames_NoDup (es : list (string * Fs.node)) :
  NoDup (map fst es) -> NoDup (Fs.filenames es).
Proof.
  unfold Fs.filenames. induction es as [|[name child] es IH]; cbn.
  - constructor.
  - intros H. inversion H as [|? ? Hnotin Hnd]; subst.
    destruct child; cbn; auto; constructor; auto;
      intros Hin; apply Hnotin;
      apply in_map_iff in Hin; destruct Hin as [e [<- He]];
      apply filter_In in He; now apply in_map.
Qed.

Lemma NoDup_map_injective {A B : Type} (f : A -> B) (l : list A) :
  (forall x y, f x = f y -> x = y) -> NoDup l -> NoDup (map f l).
Proof.
  intros Hinj. induction 1 as [|x l Hx Hl IH]; cbn; constructor; auto.
  intros Hin. apply in_map_iff in Hin. destruct Hin as [y [Hy Hin]].
  apply Hinj in Hy. now subst.
Qed.

Lemma rel_files_NoDup (n : Fs.node) : wf n -> NoDup (rel_files keep n).
Proof.
  induction n as [size zip| |es IH] using node_rect'; intros Hwf;
    try constructor.
  apply wf_Dir in Hwf. destruct Hwf as [Hnd Hwf]. cbn [rel_files].
  apply NoDup_app.
  - apply NoDup_map_injective.
    + intros x y [= ->]. reflexivity.
    + apply NoDup_filter, filenames_NoDup, Hnd.
  - revert Hnd. induction IH as [|e es He Hes IHes]; intros Hnd.
    + constructor.
    + cbn [flat_map]. inversion Hwf as [|? ? Hwe Hwes]; subst.
      cbn in Hnd. inversion Hnd as [|? ? Hnotin Hnd']; subst.
      apply NoDup_app.
      * apply NoDup_map_injective; [|now apply He].
        intros x y [= ->]. reflexivity.
      * now apply IHes.
      * intros r Hr1 Hr2. apply in_map_iff in Hr1.
        destruct Hr1 as [r1 [<- _]]. apply in_flat_map in Hr2.
        destruct Hr2 as [e' [He' Hr2]]. apply in_map_iff in Hr2.
        destruct Hr2 as [r2 [[= Heq _] _]].
        apply Hnotin. rewrite <- Heq. now apply in_map.
  - intros r Hr1 Hr2. apply in_map_iff in Hr1.
    destruct Hr1 as [f [<- _]]. apply in_flat_map in Hr2.
    destruct Hr2 as [e [He Hr2]]. apply in_map_iff in Hr2.
    destruct Hr2 as [r2 [[= _ Heq] Hr2]]. subst r2.
    now apply rel_files_nonempty in Hr2.
Qed.
End Walk.


(** ** The size of the cache *)

Lemma sumZ_app (l1 l2 : list Z) : sumZ (l1 ++ l2) = sumZ l1 + sumZ l2.
Proof.
  unfold sumZ. induction l1 as [|x l1 IH]; cbn [List.app fold_right];
    [reflexivity|].
  rewrite IH. lia.
Qed.

Lemma sumZ_cons (x : Z) (l : list Z) : sumZ (x :: l) = x + sumZ l.
Proof. reflexivity. Qed.

Lemma isfile_getsize (fs : Fs.node) (p : Fs.path) :
  Fs.isfile fs p = true -> Fs.getsize fs p = Ret (file_bytes fs p).
Proof.
  unfold Fs.isfile, Fs.getsize, file_bytes.
  destruct (Fs.get fs p) as [[| |]|]; easy.
Qed.

Lemma not_isfile_bytes (fs : Fs.node) (p : Fs.path) :
  Fs.isfile fs p = false -> file_bytes fs p = 0.
Proof.
  unfold Fs.isfile, file_bytes.
  destruct (Fs.get fs p) as [[| |]|]; easy.
Qed.

Lemma total_size_loop_sum (fs : Fs.node) (fps : list Fs.path) :
  forall total,
    total_size_loop fs total fps = total + sumZ (map (file_bytes fs) fps).
Proof.
  induction fps as [|fp fps IH]; intros total;
    cbn [total_size_loop map]; rewrite ?sumZ_cons; [cbn; lia|].
  destruct (Fs.isfile fs fp) eqn:Hf.
  - rewrite (isfile_getsize fs fp Hf), IH. lia.
  - rewrite IH, (not_isfile_bytes fs fp Hf). lia.
Qed.

Lemma file_bytes_cons (es : list (string * Fs.node)) (name : string)
    (child : Fs.node) (r : Fs.path) :
  NoDup (map fst es) -> In (name, child) es ->
  file_bytes (Fs.Dir es) (name :: r) = file_bytes child r.
Proof.
  intros Hnd Hin. unfold file_bytes. cbn [Fs.get].
  now rewrite (dict_get_NoDup es name child Hnd Hin).
Qed.

Lemma entries_bytes (es l : list (string * Fs.node)) :
  NoDup (map fst es) ->
  (forall e, In e l -> In e es) ->
  (forall e, In e l ->
             sumZ (map (file_bytes (snd e))
                     (rel_files (fun _ => true) (snd e))) =
             match snd e with Fs.Dir _ => tree_size (snd e) | _ => 0 end) ->
  sumZ (map (file_bytes (Fs.Dir es))
          (map (fun f => [f]) (filter (fun _ => true) (Fs.filenames l))))
  + sumZ (map (file_bytes (Fs.Dir es))
            (flat_map (fun e => map (cons (fst e))
                                  (rel_files (fun _ => true) (snd e))) l))
  = fold_right (fun e acc => tree_size (snd e) + acc) 0 l.
Proof.
  intros Hnd. induction l as [|[name child] l IHl]; intros Hsub Hrec;
    [reflexivity|].
  assert (Hin : In (name, child) es) by (apply Hsub; now left).
  assert (Hl : forall e, In e l -> In e es)
    by (intros e He; apply Hsub; now right).
  assert (Hrec' : forall e, In e l ->
             sumZ (map (file_bytes (snd e))
                     (rel_files (fun _ => true) (snd e))) =
             match snd e with Fs.Dir _ => tree_size (snd e) | _ => 0 end)
    by (intros e He; apply Hrec; now right).
  specialize (IHl Hl Hrec').
  pose proof (Hrec (name, child) (or_introl eq_refl)) as Hchild.
  cbn [snd] in Hchild.
  assert (Hsubs :
    sumZ (map (file_bytes (Fs.Dir es))
            (map (cons name) (rel_files (fun _ => true) child)
             ++ flat_map (fun e => map (cons (fst e))
                                     (rel_files (fun _ => true) (snd e))) l))
    = match child with Fs.Dir _ => tree_size child | _ => 0 end
      + sumZ (map (file_bytes (Fs.Dir es))
                (flat_map (fun e => map (cons (fst e))
                                      (rel_files (fun _ => true) (snd e))) l))).
  { rewrite map_app, sumZ_app, map_map.
    rewrite (map_ext _ (file_bytes child))
      by (intros r; now apply file_bytes_cons).
    now rewrite Hchild. }
  cbn [flat_map fold_right fst snd]. rewrite Hsubs, <- IHl.
  unfold Fs.filenames. cbn [filter snd].
  destruct child as [size zip| |sub]; cbn [map filter fst];
    rewrite ?sumZ_cons, ?(file_bytes_cons es name _ [] Hnd Hin).
  - change (file_bytes (Fs.File size zip) []) with size.
    cbn [tree_size]. lia.
  - change (file_bytes Fs.Dangling []) with 0. cbn [tree_size]. lia.
  - lia.
Qed.

Lemma rel_files_bytes (n : Fs.node) :
  wf n ->
  sumZ (map (file_bytes n) (rel_files (fun _ => true) n)) =
  match n with Fs.Dir _ => tree_size n | _ => 0 end.
Proof.
  induction n as [size zip| |es IH] using node_rect'; intros Hwf;
    try reflexivity.
  apply wf_Dir in Hwf. destruct Hwf as [Hnd Hwf].
  cbn [rel_files]. rewrite map_app, sumZ_app.
  apply (entries_bytes es es Hnd); [auto|].
  rewrite Forall_forall in IH, Hwf. intros e He. now apply IH, Hwf.
Qed.


(** ** Names and extensions *)

Lemma lower_app_inv (s a b : string) :
  Str.lower s = a ++ b ->
  exists s1 s2, s = s1 ++ s2 /\ Str.lower s1 = a /\ Str.lower s2 = b.
Proof.
  revert s. induction a as [|c a IH]; intros s H.
  - now exists "", s.
  - destruct s as [|d s]; [discriminate|]. cbn in H.
    injection H as Hc H. destruct (IH s H) as (s1 & s2 & -> & <- & <-).
    exists (String d s1), s2. cbn. now rewrite Hc.
Qed.

Lemma lower_length (s : string) : String.length (Str.lower s) = String.length s.
Proof. induction s as [|c s IH]; cbn; [reflexivity|now rewrite IH]. Qed.

Lemma append_length (s t : string) :
  String.length (s ++ t) = (String.length s + String.length t)%nat.
Proof. induction s as [|c s IH]; cbn; [reflexivity|now rewrite IH]. Qed.

Lemma substring_prefix (s t : string) :
  substring 0 (String.length s) (s ++ t) = s.
Proof.
  induction s as [|c s IH]; cbn.
  - now destruct t.
  - now rewrite IH.
Qed.

(** A name that passes [is_jar] is its stem followed by an extension
    that reads [.jar] in lower case, and the stem is what [name[:-4]]
    keeps. *)
Lemma is_jar_stem (file : string) :
  is_jar file = true ->
  exists ext, file = Str.drop_last 4 file ++ ext /\ Str.lower ext = ".jar".
Proof.
  unfold is_jar. intros H. apply endswith_spec in H.
  destruct H as [stem H]. apply lower_app_inv in H.
  destruct H as (s1 & s2 & -> & _ & Hext). exists s2. split; [|exact Hext].
  unfold Str.drop_last. rewrite append_length.
  assert (Hlen : String.length s2 = 4%nat)
    by (rewrite <- lower_length, Hext; reflexivity).
  rewrite Hlen, Nat.add_sub. now rewrite substring_prefix.
Qed.

Lemma lower_app (s t : string) :
  Str.lower (s ++ t) = Str.lower s ++ Str.lower t.
Proof. induction s as [|c s IH]; cbn; [reflexivity|now rewrite IH]. Qed.

Lemma is_jar_iff (file : string) : is_jar file = true <-> jar_name file.
Proof.
  split.
  - intros H. destruct (is_jar_stem file H) as [ext [Hfile Hext]].
    now exists (Str.drop_last 4 file), ext.
  - intros (stem & ext & -> & Hext). unfold is_jar.
    apply endswith_spec. exists (Str.lower stem).
    now rewrite lower_app, Hext.
Qed.

(** ** CacheIndex *)

Lemma wf_get (p : Fs.path) :
  forall fs n, wf fs -> Fs.get fs p = Some n -> wf n.
Proof.
  induction p as [|c p IH]; intros fs n Hwf Hget; cbn in Hget.
  - now injection Hget as <-.
  - destruct fs as [| |es]; try discriminate.
    destruct (dict_get es c) as [child|] eqn:Hc; [|discriminate].
    apply wf_Dir in Hwf. destruct Hwf as [_ Hwf].
    rewrite Forall_forall in Hwf.
    apply (IH child n); [|exact Hget].
    apply (Hwf (c, child)). now apply dict_get_In.
Qed.

Lemma dict_get_set_same {V : Type} (d : list (string * V)) (k : string) (v : V) :
  dict_get (Fs.dict_set d k v) k = Some v.
Proof.
  induction d as [|[k' v'] d IH]; cbn.
  - now rewrite String.eqb_refl.
  - destruct (String.eqb_spec k' k) as [->|Hne]; cbn.
    + now rewrite String.eqb_refl.
    + destruct (String.eqb_spec k' k); [contradiction|exact IH].
Qed.

(** A directory that [makedirs] had to make is empty. *)
Lemma makedirs_fresh (p : Fs.path) :
  forall n n',
    Fs.makedirs n p = Ret n' ->
    Fs.exists_ n p = false \/ n = Fs.Dir [] ->
    Fs.get n' p = Some (Fs.Dir []).
Proof.
  induction p as [|c p IH]; intros n n' Hmk Hnew.
  - destruct n as [| |es]; try discriminate. cbn in Hmk.
    injection Hmk as <-. destruct Hnew as [Hex|Hnil]; [discriminate|].
    now rewrite Hnil.
  - destruct n as [| |es]; try discriminate. cbn [Fs.makedirs] in Hmk.
    set (child := match dict_get es c with
                  | Some x => x
                  | None => Fs.Dir []
                  end) in Hmk.
    destruct (Fs.makedirs child p) as [child'|] eqn:Hc; [|discriminate].
    cbn in Hmk. injection Hmk as <-.
    cbn [Fs.get]. rewrite dict_get_set_same.
    apply (IH child child' Hc). subst child.
    destruct (dict_get es c) as [x|] eqn:Hx; [|now right].
    left. destruct Hnew as [Hex|Hnil]; [|now injection Hnil as ->].
    unfold Fs.exists_ in *. cbn [Fs.get] in Hex. now rewrite Hx in Hex.
Qed.

Lemma not_exists_below (fs : Fs.node) (top r : Fs.path) :
  Fs.exists_ fs top = false -> r <> [] -> Fs.get fs (top ++ r)%list = None.
Proof.
  intros Hex Hr. rewrite get_app. unfold Fs.exists_ in Hex.
  destruct (Fs.get fs top) as [[| |]|]; try discriminate; try reflexivity.
  now apply get_not_dir.
Qed.

Section Scan.
Context {E : Extern}.

Lemma load_mod_ret (fs : Fs.node) (p : Fs.path) (m : ModInfo) :
  load_mod fs p = Ret m <->
  exists size zip v,
    Fs.get fs p = Some (Fs.File size zip) /\
    parse_mod_version fs p = Ret v /\
    m = ModInfo_init p (Str.drop_last 4 (Fs.basename p)) size v.
Proof.
  unfold load_mod, Fs.getsize.
  destruct (parse_mod_version_returns fs p) as [v Hv]. rewrite Hv.
  destruct (Fs.get fs p) as [[size zip| |es]|]; cbn [bind].
  - split.
    + intros [= <-]. now exists size, zip, v.
    + intros (size' & zip' & v' & [= <- <-] & [= <-] & ->). reflexivity.
  - split; [discriminate|]. now intros (? & ? & ? & [=] & _).
  - split; [discriminate|]. now intros (? & ? & ? & [=] & _).
  - split; [discriminate|]. now intros (? & ? & ? & [=] & _).
Qed.

Lemma load_mods_In (fs : Fs.node) (l : list Fs.path) (m : ModInfo) :
  In m (load_mods fs l) <-> exists p, In p l /\ load_mod fs p = Ret m.
Proof.
  unfold load_mods. rewrite in_flat_map. split.
  - intros [p [Hp Hm]]. exists p. split; [exact Hp|].
    destruct (load_mod fs p); [|easy]. destruct Hm as [->|[]]. reflexivity.
  - intros [p [Hp Hm]]. exists p. split; [exact Hp|]. rewrite Hm. now left.
Qed.

Lemma load_mods_paths (fs : Fs.node) (l : list Fs.path) :
  map file_path (load_mods fs l) = filter (Fs.isfile fs) l.
Proof.
  unfold load_mods. induction l as [|p l IH]; [reflexivity|].
  cbn [flat_map filter]. rewrite map_app, IH.
  destruct (load_mod fs p) as [m|e] eqn:Hm.
  - apply load_mod_ret in Hm. destruct Hm as (size & zip & v & Hget & _ & ->).
    unfold Fs.isfile. rewrite Hget. reflexivity.
  - unfold Fs.isfile. destruct (Fs.get fs p) as [[size zip| |es]|] eqn:Hget;
      try reflexivity.
    exfalso. destruct (parse_mod_version_returns fs p) as [v Hv].
    assert (H : load_mod fs p =
                Ret (ModInfo_init p (Str.drop_last 4 (Fs.basename p)) size v))
      by (apply load_mod_ret; now exists size, zip, v).
    congruence.
Qed.

Lemma refresh_mod_list_failed (fs : Fs.node) (a : ModCacheX) (e : exn) :
  made_dir fs a = Raise e ->
  refresh_mod_list fs a =
  (fs, {| cache_dir := cache_dir a; max_cache_size := max_cache_size a;
          mods := []; mod_tree := []; status_var := StReady;
          search_var := search_var a;
          dialogs := (dialogs a ++ [ErrCreateCacheDir e])%list |}).
Proof.
  unfold made_dir, refresh_mod_list. cbn [cache_dir set_mods set_mod_tree set_status].
  intros ->. reflexivity.
Qed.

Lemma refresh_mod_list_scanned (fs fs1 : Fs.node) (a : ModCacheX) :
  made_dir fs a = Ret fs1 ->
  let found := load_mods fs1 (walk_files is_jar fs1 (cache_dir a)) in
  let total :=
    total_size_loop fs1 0 (walk_files (fun _ => true) fs1 (cache_dir a)) in
  refresh_mod_list fs a =
  (fs1, {| cache_dir := cache_dir a; max_cache_size := max_cache_size a;
           mods := found; mod_tree := map tree_row found;
           status_var :=
             if andb (0 <? max_cache_size a)
                     (over_budget total (max_cache_size a))
             then StBudgetWarning (format_size total) (max_cache_size a)
             else StLoaded (List.length found) (format_size total);
           search_var := search_var a; dialogs := dialogs a |}).
Proof.
  unfold made_dir, refresh_mod_list.
  cbn [cache_dir set_mods set_mod_tree set_status]. intros ->.
  unfold get_cache_size.
  cbn [cache_dir max_cache_size set_mods set_mod_tree set_status mods
       search_var dialogs].
  destruct (andb _ _); reflexivity.
Qed.

Lemma made_dir_cases (fs : Fs.node) (a : ModCacheX) :
  (Fs.exists_ fs (cache_dir a) = true /\ made_dir fs a = Ret fs) \/
  (Fs.exists_ fs (cache_dir a) = false /\
   ((exists e, made_dir fs a = Raise e) \/
    (exists fs1, made_dir fs a = Ret fs1 /\
                 Fs.get fs1 (cache_dir a) = Some (Fs.Dir [])))).
Proof.
  unfold made_dir. destruct (Fs.exists_ fs (cache_dir a)) eqn:Hex; cbn.
  - now left.
  - right. split; [reflexivity|].
    destruct (Fs.makedirs fs (cache_dir a)) as [fs1|e] eqn:Hmk.
    + right. exists fs1. split; [reflexivity|].
      apply (makedirs_fresh _ fs fs1 Hmk). now left.
    + left. now exists e.
Qed.
End Scan.


Lemma last_app_nonempty {A : Type} (l r : list A) (d : A) :
  r <> [] -> last (l ++ r) d = last r d.
Proof.
  intros Hr. induction l as [|x l IH]; [reflexivity|].
  cbn [List.app last]. rewrite IH.
  destruct (l ++ r)%list eqn:Hlr; [|reflexivity].
  apply app_eq_nil in Hlr. now destruct Hlr.
Qed.

Section ScanClaims.
Context {E : Extern}.

(** What a scan of the disk [fs1] finds below [top]. *)
Lemma scan_paths (fs1 : Fs.node) (top : Fs.path) :
  wf fs1 ->
  let found := load_mods fs1 (walk_files is_jar fs1 top) in
  NoDup (map file_path found) /\
  forall p,
    In p (map file_path found) <->
    exists r size zip,
      r <> [] /\ p = (top ++ r)%list /\
      Fs.get fs1 p = Some (Fs.File size zip) /\
      is_jar (Fs.basename p) = true.
Proof.
  intros Hwf found. subst found.
  rewrite load_mods_paths, walk_files_rel.
  destruct (Fs.get fs1 top) as [root|] eqn:Hroot.
  - pose proof (wf_get top fs1 root Hwf Hroot) as Hwr. split.
    + apply NoDup_filter, NoDup_map_injective.
      * intros x y. apply app_inv_head.
      * now apply rel_files_NoDup.
    + intros p. rewrite filter_In, in_map_iff. split.
      * intros [[r [<- Hr]] Hfile].
        apply (rel_files_In is_jar root Hwr) in Hr.
        destruct Hr as (Hne & Hjar & _).
        unfold Fs.isfile in Hfile.
        destruct (Fs.get fs1 (top ++ r)%list) as [[size zip| |]|] eqn:Hget;
          try discriminate.
        exists r, size, zip. repeat split; auto.
        unfold Fs.basename. now rewrite last_app_nonempty.
      * intros (r & size & zip & Hne & -> & Hget & Hjar).
        split; [|unfold Fs.isfile; now rewrite Hget].
        exists r. split; [reflexivity|].
        apply (rel_files_In is_jar root Hwr). split; [exact Hne|].
        unfold Fs.basename in Hjar. rewrite last_app_nonempty in Hjar by auto.
        split; [exact Hjar|]. exists (Fs.File size zip).
        rewrite get_app, Hroot in Hget. now split.
  - split; [constructor|]. intros p. cbn. split; [easy|].
    intros (r & size & zip & _ & -> & Hget & _).
    rewrite get_app, Hroot in Hget. discriminate.
Qed.

Lemma scan_entries (fs1 : Fs.node) (l : list Fs.path) (m : ModInfo) :
  Forall (fun p => is_jar (Fs.basename p) = true) l ->
  In m (load_mods fs1 l) ->
  exists bytes zip ext,
    Fs.get fs1 (file_path m) = Some (Fs.File bytes zip) /\
    size m = bytes /\
    file_name m = Fs.basename (file_path m) /\
    file_name m = name m ++ ext /\ Str.lower ext = ".jar" /\
    parse_mod_version fs1 (file_path m) = Ret (version m) /\
    (forall e, parse_mod_version_body fs1 (file_path m) = Raise e ->
               version m = None).
Proof.
  intros Hjar Hin. apply load_mods_In in Hin. destruct Hin as [p [Hp Hm]].
  rewrite Forall_forall in Hjar. specialize (Hjar p Hp).
  apply load_mod_ret in Hm. destruct Hm as (bytes & zip & v & Hget & Hv & ->).
  destruct (is_jar_stem _ Hjar) as [ext [Hname Hext]].
  exists bytes, zip, ext. cbn [file_path size file_name name version ModInfo_init].
  repeat split; auto.
  intros e He. apply parse_mod_version_caught in He. congruence.
Qed.

Lemma walk_files_kept (keep : string -> bool) (fs1 : Fs.node) (top : Fs.path) :
  wf fs1 ->
  Forall (fun p => keep (Fs.basename p) = true) (walk_files keep fs1 top).
Proof.
  intros Hwf. rewrite walk_files_rel.
  destruct (Fs.get fs1 top) as [root|] eqn:Hroot; [|constructor].
  apply Forall_map, Forall_forall. intros r Hr.
  apply (rel_files_In keep root (wf_get top fs1 root Hwf Hroot)) in Hr.
  destruct Hr as (Hne & Hk & _).
  unfold Fs.basename. now rewrite last_app_nonempty.
Qed.

Lemma empty_dir_scan (keep : string -> bool) (fs1 : Fs.node) (top : Fs.path) :
  Fs.get fs1 top = Some (Fs.Dir []) -> walk_files keep fs1 top = [].
Proof. intros H. rewrite walk_files_rel, H. reflexivity. Qed.

Lemma scan_total (fs1 : Fs.node) (top : Fs.path) :
  wf fs1 ->
  total_size_loop fs1 0 (walk_files (fun _ => true) fs1 top) =
  dir_bytes fs1 top.
Proof.
  intros Hwf. rewrite total_size_loop_sum, walk_files_rel. unfold dir_bytes.
  destruct (Fs.get fs1 top) as [root|] eqn:Hroot; [|reflexivity].
  rewrite map_map.
  rewrite (map_ext _ (file_bytes root)).
  - rewrite (rel_files_bytes root (wf_get top fs1 root Hwf Hroot)).
    destruct root; reflexivity.
  - intros r. unfold file_bytes. now rewrite get_app, Hroot.
Qed.
End ScanClaims.

(** C5: after a rescan of a well-formed disk the inventory has exactly
    one entry per regular file below the cache directory whose name ends,
    in any letter case, in [.jar]: the entries' paths are distinct and are
    exactly the paths of those files.  Each entry carries the file's
    length, a name that is the file name without that extension, and the
    version [parse_mod_version] returns, which is [None] when reading the
    metadata raised; the list view shows one line per entry. *)
Theorem refresh_mod_list_inventory {E : Extern} (fs : Fs.node)
    (a : ModCacheX) :
  wf fs ->
  let fs' := fst (refresh_mod_list fs a) in
  let a' := snd (refresh_mod_list fs a) in
  NoDup (map file_path (mods a')) /\
  (forall p,
      In p (map file_path (mods a')) <->
      exists r bytes zip,
        r <> [] /\ p = (cache_dir a ++ r)%list /\
        Fs.get fs' p = Some (Fs.File bytes zip) /\
        jar_name (Fs.basename p)) /\
  (forall m,
      In m (mods a') ->
      exists bytes zip ext,
        Fs.get fs' (file_path m) = Some (Fs.File bytes zip) /\
        size m = bytes /\
        file_name m = Fs.basename (file_path m) /\
        file_name m = name m ++ ext /\ Str.lower ext = ".jar" /\
        parse_mod_version fs' (file_path m) = Ret (version m) /\
        (forall e, parse_mod_version_body fs' (file_path m) = Raise e ->
                   version m = None)) /\
  mod_tree a' = map tree_row (mods a').
Proof.
  intros Hwf fs' a'. subst fs' a'. setoid_rewrite <- is_jar_iff.
  destruct (made_dir_cases fs a) as [[Hex Hmade]|[Hex [[e Hmade]|[fs1 [Hmade Hnew]]]]].
  - rewrite (refresh_mod_list_scanned fs fs a Hmade). cbn [fst snd mods mod_tree].
    destruct (scan_paths fs (cache_dir a) Hwf) as [Hnd Hpaths].
    repeat split; auto; try apply Hpaths.
    intros m Hm.
    apply (scan_entries fs (walk_files is_jar fs (cache_dir a)) m);
      [|exact Hm].
    now apply walk_files_kept.
  - rewrite (refresh_mod_list_failed fs a e Hmade). cbn [fst snd mods mod_tree map].
    repeat split; try constructor; try easy.
    intros (r & bytes & zip & Hne & -> & Hget & _).
    now rewrite not_exists_below in Hget.
  - rewrite (refresh_mod_list_scanned fs fs1 a Hmade).
    cbn [fst snd mods mod_tree].
    rewrite (empty_dir_scan is_jar fs1 _ Hnew). cbn [load_mods flat_map map].
    repeat split; try constructor; try easy.
    intros (r & bytes & zip & Hne & -> & Hget & _).
    rewrite get_app, Hnew in Hget.
    rewrite get_not_dir in Hget; try easy.
    destruct r; [congruence|]. cbn in Hget. discriminate.
Qed.


(** ** The size budget *)

Lemma Qlt_bool_iff (x y : Q) : Qlt_bool x y = true <-> (x < y)%Q.
Proof.
  unfold Qlt_bool. rewrite negb_true_iff. split.
  - intros H. apply Qnot_le_lt. intros Hle.
    apply Qle_bool_iff in Hle. congruence.
  - intros H. destruct (Qle_bool y x) eqn:Hle; [|reflexivity].
    apply Qle_bool_iff in Hle. now apply Qlt_not_le in H.
Qed.

Lemma megabytes_exceed (cache_size limit : Z) :
  (inject_Z limit < inject_Z cache_size / inject_Z (1024 * 1024))%Q <->
  limit * 1048576 < cache_size.
Proof.
  unfold Qlt, Qdiv, Qmult, Qinv, inject_Z. cbn. lia.
Qed.

Lemma over_budget_iff (cache_size limit : Z) :
  over_budget cache_size limit = true <->
  (inject_Z limit
   < inject_Z (Num.to_double cache_size) / inject_Z (1024 * 1024))%Q.
Proof. apply Qlt_bool_iff. Qed.

(** Below 2^53 bytes the division is exact. *)
Lemma over_budget_small (cache_size limit : Z) :
  Z.abs cache_size < 2 ^ 53 ->
  over_budget cache_size limit = true <-> limit * 1048576 < cache_size.
Proof.
  intros Hsmall. rewrite over_budget_iff, (to_double_small _ Hsmall).
  apply megabytes_exceed.
Qed.

Lemma dir_bytes_missing (fs : Fs.node) (top : Fs.path) :
  Fs.exists_ fs top = false -> dir_bytes fs top = 0.
Proof.
  unfold Fs.exists_, dir_bytes.
  destruct (Fs.get fs top) as [[| |]|]; easy.
Qed.

(** C6: a rescan of a well-formed disk never ends with the budget
    warning when the cap is 0, or below 0, whatever the size of the
    cache; and when the cache directory holds less than 2^53 bytes it
    ends with the warning exactly when the cap is positive and the bytes
    of all regular files below the cache directory, divided by
    1024 * 1024, exceed the cap.  The comparison is the integer one,
    [cap * 1048576 < bytes]. *)
Theorem refresh_mod_list_budget {E : Extern} (fs : Fs.node) (a : ModCacheX) :
  wf fs ->
  let a' := snd (refresh_mod_list fs a) in
  let total := dir_bytes fs (cache_dir a) in
  let exceeds :=
    (inject_Z (max_cache_size a)
     < inject_Z total / inject_Z (1024 * 1024))%Q in
  (0 <= total < 2 ^ 53 ->
   ((exists shown limit, status_var a' = StBudgetWarning shown limit) <->
    0 < max_cache_size a /\ exceeds)) /\
  (max_cache_size a <= 0 ->
   forall shown limit, status_var a' <> StBudgetWarning shown limit) /\
  (exceeds <-> max_cache_size a * 1048576 < total).
Proof.
  intros Hwf a' total exceeds. split; [|split].
  - intros Htotal.
    assert (Hsmall : Z.abs total < 2 ^ 53)
      by (rewrite Z.abs_eq; lia).
    subst a' exceeds. unfold total in *. clear total.
    rewrite megabytes_exceed.
    destruct (made_dir_cases fs a)
      as [[Hex Hmade]|[Hex [[e Hmade]|[fs1 [Hmade Hnew]]]]].
    + rewrite (refresh_mod_list_scanned fs fs a Hmade).
      cbn [snd status_var]. rewrite (scan_total fs (cache_dir a) Hwf).
      destruct (Z.ltb_spec 0 (max_cache_size a)) as [Hpos|Hzero];
        cbn [andb].
      * destruct (over_budget _ _) eqn:Hover.
        -- apply (proj1 (over_budget_small _ _ Hsmall)) in Hover.
           split; [|eauto]. intros _. split; [lia|exact Hover].
        -- split; [intros (? & ? & [=])|].
           intros [_ Hexc].
           apply (proj2 (over_budget_small _ _ Hsmall)) in Hexc.
           congruence.
      * split; [intros (? & ? & [=])|]. intros [Hne _]. lia.
    + rewrite (refresh_mod_list_failed fs a e Hmade). cbn [snd status_var].
      split; [intros (? & ? & [=])|]. intros [Hne Hexc].
      rewrite (dir_bytes_missing fs _ Hex) in Hexc. lia.
    + rewrite (refresh_mod_list_scanned fs fs1 a Hmade).
      cbn [snd status_var].
      rewrite (empty_dir_scan (fun _ => true) fs1 _ Hnew).
      cbn [total_size_loop].
      rewrite (dir_bytes_missing fs _ Hex).
      destruct (Z.ltb_spec 0 (max_cache_size a)) as [Hpos|Hzero];
        cbn [andb]; [|split; [intros (? & ? & [=])|intros [? _]; lia]].
      destruct (over_budget 0 (max_cache_size a)) eqn:Hover.
      { apply over_budget_small in Hover; [lia|reflexivity]. }
      split; [intros (? & ? & [=])|]. intros [_ Hexc]. lia.
  - intros Hcap shown limit. subst a'.
    assert (Hguard : (0 <? max_cache_size a) = false)
      by (apply Z.ltb_ge; exact Hcap).
    destruct (made_dir fs a) as [fs1|e] eqn:Hmade.
    + rewrite (refresh_mod_list_scanned fs fs1 a Hmade).
      cbn [snd status_var]. rewrite Hguard. cbn [andb]. discriminate.
    + rewrite (refresh_mod_list_failed fs a e Hmade). cbn [snd status_var].
      discriminate.
  - apply megabytes_exceed.
Qed.


Ltac wf_concrete :=
  cbn; repeat split; repeat constructor; cbn; intuition discriminate.

Lemma refresh_mod_list_inventory_witness :
  let a' := snd (refresh_mod_list (E := sample_extern) sample_disk sample_app) in
  wf sample_disk /\
  NoDup (map file_path (mods a')) /\
  map (fun m => (name m, version m)) (mods a') =
    [("A", Some (PStr "1.2.3")); ("B", None)].
Proof.
  intros a'.
  assert (Hwf : wf sample_disk) by wf_concrete.
  split; [exact Hwf|]. split; [|reflexivity].
  exact (proj1 (refresh_mod_list_inventory (E := sample_extern)
                  sample_disk sample_app Hwf)).
Defined.

Lemma refresh_mod_list_budget_witness :
  let a := set_max_cache_size sample_app 10 in
  wf full_disk /\
  0 <= dir_bytes full_disk (cache_dir a) < 2 ^ 53 /\
  dir_bytes full_disk (cache_dir a) = 11 * 1048576 /\
  (exists shown limit,
      status_var (snd (refresh_mod_list (E := sample_extern) full_disk a)) =
      StBudgetWarning shown limit).
Proof.
  intros a.
  assert (Hwf : wf full_disk) by wf_concrete.
  assert (Htotal : 0 <= dir_bytes full_disk (cache_dir a) < 2 ^ 53)
    by (vm_compute; split; [discriminate|reflexivity]).
  split; [exact Hwf|]. split; [exact Htotal|]. split; [reflexivity|].
  destruct (refresh_mod_list_budget (E := sample_extern) full_disk a Hwf)
    as (Hiff & _ & Hint).
  apply (Hiff Htotal). split; [cbn; lia|]. apply Hint. reflexivity.
Defined.

(** Against C6 as the spec has it: with a cap of -1 MB and 11 MB in the
    cache the cap is not zero and is exceeded, and with a cap of 2^33 MB
    and 2^53 + 1 bytes in the cache the cap is exceeded by one byte; in
    both cases the rescan ends without the warning.  The guard is
    [max_cache_size > 0], and the quotient is a double. *)
Lemma refresh_mod_list_budget_counterexample :
  let exceeds (total limit : Z) :=
    (inject_Z limit < inject_Z total / inject_Z (1024 * 1024))%Q in
  let status_after (fs : Fs.node) (limit : Z) :=
    status_var (snd (refresh_mod_list (E := sample_extern) fs
                       (set_max_cache_size sample_app limit))) in
  (wf full_disk /\
   -1 <> 0 /\ exceeds (dir_bytes full_disk ["cache"]) (-1) /\
   status_after full_disk (-1) = StLoaded 0 "11.00 MB") /\
  (wf vast_disk /\
   2 ^ 33 <> 0 /\ dir_bytes vast_disk ["cache"] = 2 ^ 53 + 1 /\
   exceeds (dir_bytes vast_disk ["cache"]) (2 ^ 33) /\
   status_after vast_disk (2 ^ 33) = StLoaded 0 "8192.00 TB").
Proof.
  intros exceeds status_after. split.
  - split; [wf_concrete|]. split; [discriminate|].
    split; [reflexivity|]. reflexivity.
  - split; [wf_concrete|]. split; [discriminate|].
    split; [reflexivity|]. split; reflexivity.
Qed.

(** C10: when the cache directory is missing and cannot be made, the
    rescan returns with the disk as it was, an empty inventory and an
    empty list view, whatever they held before; the error is shown and
    the status is back to ready. *)
Theorem refresh_mod_list_create_failure {E : Extern} (fs : Fs.node)
    (a : ModCacheX) (e : exn) :
  Fs.exists_ fs (cache_dir a) = false ->
  Fs.makedirs fs (cache_dir a) = Raise e ->
  let r := refresh_mod_list fs a in
  fst r = fs /\
  mods (snd r) = [] /\
  mod_tree (snd r) = [] /\
  status_var (snd r) = StReady /\
  dialogs (snd r) = (dialogs a ++ [ErrCreateCacheDir e])%list.
Proof.
  intros Hex Hmk r. subst r.
  assert (Hmade : made_dir fs a = Raise e)
    by (unfold made_dir; now rewrite Hex).
  rewrite (refresh_mod_list_failed fs a e Hmade). cbn. auto.
Qed.

Lemma refresh_mod_list_create_failure_witness :
  let before := [sample_mod "old" 2048] in
  let a := {| cache_dir := ["blocked"; "cache"]; max_cache_size := 0;
              mods := before; mod_tree := map tree_row before;
              status_var := StLoaded 1 "2.00 KB"; search_var := "";
              dialogs := [] |} in
  Fs.exists_ blocked_disk (cache_dir a) = false /\
  Fs.makedirs blocked_disk (cache_dir a) = Raise OSError /\
  mods a <> [] /\
  mods (snd (refresh_mod_list (E := sample_extern) blocked_disk a)) = [].
Proof.
  intros before a.
  assert (Hex : Fs.exists_ blocked_disk (cache_dir a) = false) by reflexivity.
  assert (Hmk : Fs.makedirs blocked_disk (cache_dir a) = Raise OSError)
    by reflexivity.
  split; [exact Hex|]. split; [exact Hmk|]. split; [discriminate|].
  exact (proj1 (proj2 (refresh_mod_list_create_failure
                         (E := sample_extern) blocked_disk a OSError Hex Hmk))).
Defined.

(** The archive of the example lists [META-INF/mods.toml] twice: the
    first entry declares 1.0, and 2.0 comes back. *)
Lemma parse_mod_version_repeated_name_witness :
  let jar := ["cache"; "twice.jar"] in
  let first_entry := list_byte_of_string first_toml in
  Fs.zip_open twice_disk jar =
    Ret [("META-INF/mods.toml", Ret first_entry);
         ("META-INF/mods.toml", Ret (list_byte_of_string second_toml))] /\
  (toml_content <- decode_utf8 (Extern := twice_extern) first_entry ;;
   toml_loads (Extern := twice_extern) toml_content) =
    Ret [("mods", PList [PDict [("version", PStr "1.0")]])] /\
  ~ substring_of "$" "2.0" /\
  parse_mod_version (E := twice_extern) twice_disk jar
  = Ret (Some (PStr "2.0")).
Proof.
  intros jar first_entry.
  assert (Hdollar : ~ substring_of "$" "2.0").
  { intros Hsub. apply contains_spec in Hsub. discriminate Hsub. }
  split; [reflexivity|]. split; [reflexivity|]. split; [exact Hdollar|].
  refine (parse_mod_version_repeated_name (E := twice_extern) twice_disk jar
            _ [] [] [] "META-INF/mods.toml" (Ret first_entry)
            (list_byte_of_string second_toml) second_toml
            [("mods", PList [PDict [("version", PStr "2.0")]])]
            [("version", PStr "2.0")] [] "2.0" _ _ _ _ _ _ _ _ _ Hdollar);
    try reflexivity.
  - constructor.
  - split; [now exists "mods.toml"|now exists "META-INF/mods"].
  - intros [].
Defined.

(** The placeholder version of the specification is rejected. *)
Lemma parse_mod_version_declared_witness :
  let jar := ["cache"; "dev.jar"] in
  substring_of "$" "${project.version}" /\
  parse_mod_version (E := sample_extern) placeholder_disk jar = Ret None.
Proof.
  intros jar.
  assert (Hdollar : substring_of "$" "${project.version}")
    by (exists "", "{project.version}"; reflexivity).
  split; [exact Hdollar|].
  refine (proj2 (parse_mod_version_declared (E := sample_extern)
            placeholder_disk jar
            [("mod.class", Ret []);
             ("META-INF/mods.toml",
              Ret (list_byte_of_string placeholder_toml))]
            ["mod.class"] [] "META-INF/mods.toml"
            (list_byte_of_string placeholder_toml) placeholder_toml
            [("mods", PList [PDict [("version", PStr "${project.version}")]])]
            [("version", PStr "${project.version}")] []
            "${project.version}" _ _ _ _ _ _ _ _ _) Hdollar);
    try reflexivity.
  - constructor; [|constructor].
    intros [[rest Hrest] _]. discriminate.
  - split; [now exists "mods.toml"|now exists "META-INF/mods"].
Defined.

(** C4: [parse_mod_version] always returns and never raises.  It returns
    [None] when the file cannot be opened as a zip container, when no
    member is a metadata member, when reading, decoding or parsing the
    first metadata member raises, and whenever its body raises at all. *)
Theorem parse_mod_version_never_raises {E : Extern} (fs : Fs.node)
    (jar_path : Fs.path) :
  (exists v, parse_mod_version fs jar_path = Ret v) /\
  (forall e, Fs.zip_open fs jar_path = Raise e ->
             parse_mod_version fs jar_path = Ret None) /\
  (forall members,
      Fs.zip_open fs jar_path = Ret members ->
      Forall (fun n => ~ metadata_name n) (map fst members) ->
      parse_mod_version fs jar_path = Ret None) /\
  (forall members before first after,
      Fs.zip_open fs jar_path = Ret members ->
      map fst members = (before ++ first :: after)%list ->
      Forall (fun n => ~ metadata_name n) before ->
      metadata_name first ->
      (forall e, Fs.zip_read members first = Raise e ->
                 parse_mod_version fs jar_path = Ret None) /\
      (forall raw e, Fs.zip_read members first = Ret raw ->
                     decode_utf8 raw = Raise e ->
                     parse_mod_version fs jar_path = Ret None) /\
      (forall raw toml_content e,
          Fs.zip_read members first = Ret raw ->
          decode_utf8 raw = Ret toml_content ->
          toml_loads toml_content = Raise e ->
          parse_mod_version fs jar_path = Ret None)) /\
  (forall e, parse_mod_version_body fs jar_path = Raise e ->
             parse_mod_version fs jar_path = Ret None).
Proof.
  split; [apply parse_mod_version_returns|].
  split.
  { intros e He. apply (parse_mod_version_caught fs jar_path e).
    unfold parse_mod_version_body. now rewrite He. }
  split.
  { intros members Hopen Hnone. unfold parse_mod_version, parse_mod_version_body.
    rewrite Hopen. cbn [bind]. rewrite filter_none; [reflexivity|].
    eapply Forall_impl; [|exact Hnone].
    intros n Hn Htest. now apply Hn, metadata_name_test. }
  split; [|apply parse_mod_version_caught].
  intros members before first after Hopen Hnames Hbefore Hfirst.
  pose proof (parse_mod_version_body_first fs jar_path members before after
                first Hopen Hnames Hbefore Hfirst) as Hbody.
  repeat split.
  - intros e He. apply (parse_mod_version_caught fs jar_path e).
    rewrite Hbody, He. reflexivity.
  - intros raw e Hraw He. apply (parse_mod_version_caught fs jar_path e).
    rewrite Hbody, Hraw. cbn [bind]. rewrite He. reflexivity.
  - intros raw toml_content e Hraw Hdec He.
    apply (parse_mod_version_caught fs jar_path e).
    rewrite Hbody, Hraw. cbn [bind]. rewrite Hdec. cbn [bind].
    rewrite He. reflexivity.
Qed.


(** ** Import *)

Section ImportLoop.
Variables (top : Fs.path) (answers : nat -> option bool).

Lemma import_loop_app (l1 l2 : list Fs.path) :
  forall s,
    import_loop top answers s (l1 ++ l2) =
    match import_loop top answers s l1 with
    | (s1, Next) => import_loop top answers s1 l2
    | (s1, Break) => (s1, Break)
    end.
Proof.
  induction l1 as [|f l1 IH]; intros s; cbn [List.app import_loop];
    [reflexivity|].
  destruct (import_step top answers s f) as [s' [|]]; [apply IH|reflexivity].
Qed.

Lemma import_loop_reached (s0 s : import_state)
    (done rest : list Fs.path) (file_path : Fs.path) :
  import_loop top answers s0 done = (s, Next) ->
  import_loop top answers s0 (done ++ file_path :: rest) =
  match import_step top answers s file_path with
  | (s', Next) => import_loop top answers s' rest
  | (s', Break) => (s', Break)
  end.
Proof. intros H. now rewrite import_loop_app, H. Qed.
End ImportLoop.

(** What [import_mods] reports is what its loop leaves. *)
Lemma import_mods_loop {E : Extern} (files : list Fs.path)
    (answers : nat -> option bool) (fs : Fs.node) (a : ModCacheX) :
  files <> [] ->
  snd (import_mods files answers fs a) =
  fst (import_loop (cache_dir a) answers (import_start fs) files).
Proof.
  intros Hne. unfold import_mods. destruct files as [|f files]; [congruence|].
  cbn [cache_dir set_status].
  destruct (refresh_mod_list _ _) as [fs' a']. reflexivity.
Qed.

(** C9: when the loop of [import_mods] reaches a file after the files
    [done], a file whose name is not yet in the cache is copied without a
    question; one whose name is there raises one question, and on
    "overwrite" the copy is made, on "skip" the counts of successes and
    failures, the failure list and the disk stay as they are and the loop
    goes on with the remaining files, and on "cancel" the loop ends at
    once with the counts and the disk it had reached, the copies made for
    [done] included. *)
Theorem import_loop_conflict (top : Fs.path)
    (answers : nat -> option bool) (s0 s : import_state)
    (done rest : list Fs.path) (file_path : Fs.path) :
  import_loop top answers s0 done = (s, Next) ->
  let dest_path := Fs.join top (Fs.basename file_path) in
  let run := import_loop top answers s0 (done ++ file_path :: rest) in
  (Fs.exists_ (disk s) dest_path = false ->
   run = import_loop top answers
           (import_copy s (asked s) file_path dest_path) rest) /\
  (Fs.exists_ (disk s) dest_path = true ->
   (answers (asked s) = Some true ->
    run = import_loop top answers
            (import_copy s (S (asked s)) file_path dest_path) rest) /\
   (answers (asked s) = Some false ->
    run = import_loop top answers (after_question s) rest) /\
   (answers (asked s) = None ->
    run = (after_question s, Break))) /\
  disk (after_question s) = disk s /\
  success_count (after_question s) = success_count s /\
  fail_count (after_question s) = fail_count s /\
  failed_files (after_question s) = failed_files s.
Proof.
  intros Hdone dest_path run. subst run.
  rewrite (import_loop_reached top answers s0 s done rest file_path Hdone).
  unfold import_step. fold dest_path.
  split; [intros ->; reflexivity|].
  split; [|now cbn].
  intros ->. repeat split; intros ->; reflexivity.
Qed.

(** Three files, the second colliding and skipped: two successes, no
    failure; cancelled instead, the first copy stays on the disk. *)
Lemma import_loop_conflict_witness :
  let top := ["cache"] in
  let start := import_start import_disk in
  let skip := fun _ : nat => Some false in
  let cancel := fun _ : nat => @None bool in
  let first := fst (import_loop top skip start [["downloads"; "a.jar"]]) in
  import_loop top skip start [["downloads"; "a.jar"]] = (first, Next) /\
  Fs.exists_ (disk first) ["cache"; "b.jar"] = true /\
  (let s := fst (import_loop top skip start import_files) in
   success_count s = 2%nat /\ fail_count s = 0%nat /\ failed_files s = []) /\
  (let s := fst (import_loop top cancel start import_files) in
   snd (import_loop top cancel start import_files) = Break /\
   success_count s = 1%nat /\
   Fs.isfile (disk s) ["cache"; "a.jar"] = true /\
   Fs.isfile (disk s) ["cache"; "c.jar"] = false) /\
  (let s := snd (import_mods (E := sample_extern) import_files skip
                   import_disk sample_app) in
   success_count s = 2%nat /\ fail_count s = 0%nat).
Proof.
  intros top start skip cancel first.
  assert (Hdone : import_loop top skip start [["downloads"; "a.jar"]]
                  = (first, Next)) by reflexivity.
  assert (Hdone' : import_loop top cancel start [["downloads"; "a.jar"]]
                   = (first, Next)) by reflexivity.
  split; [exact Hdone|]. split; [reflexivity|].
  destruct (import_loop_conflict top skip start first
              [["downloads"; "a.jar"]] [["downloads"; "c.jar"]]
              ["downloads"; "b.jar"] Hdone)
    as (_ & Hskip & _).
  destruct (import_loop_conflict top cancel start first
              [["downloads"; "a.jar"]] [["downloads"; "c.jar"]]
              ["downloads"; "b.jar"] Hdone')
    as (_ & Hcancel & _).
  destruct (Hskip eq_refl) as (_ & Hs & _).
  destruct (Hcancel eq_refl) as (_ & _ & Hc).
  specialize (Hs eq_refl). specialize (Hc eq_refl).
  change ([["downloads"; "a.jar"]] ++ ["downloads"; "b.jar"]
          :: [["downloads"; "c.jar"]])%list with import_files in Hs, Hc.
  split; [|split].
  - rewrite Hs. repeat split; reflexivity.
  - rewrite Hc. repeat split; reflexivity.
  - rewrite import_mods_loop by discriminate.
    change (cache_dir sample_app) with top. fold start.
    rewrite Hs. split; reflexivity.
Defined.


(** ** Filtering the inventory *)



Section Search.
Context {E : Extern}.


End Search.




(** * Further properties *)

(** ** The order of strings *)




Lemma string_leb_trans (s1 : string) :
  forall s2 s3,
    String.leb s1 s2 = true -> String.leb s2 s3 = true ->
    String.leb s1 s3 = true.
Proof.
  unfold String.leb.
  induction s1 as [|a s1 IH]; intros [|b s2] [|c s3]; cbn; try easy.
  unfold Ascii.compare.
  destruct (N.compare_spec (N_of_ascii a) (N_of_ascii b)) as [Hab|Hab|Hab];
    destruct (N.compare_spec (N_of_ascii b) (N_of_ascii c)) as [Hbc|Hbc|Hbc];
    destruct (N.compare_spec (N_of_ascii a) (N_of_ascii c)) as [Hac|Hac|Hac];
    try easy; try lia.
  apply IH.
Qed.

Lemma string_ltb_leb (s t : string) :
  String.ltb t s = false <-> String.leb s t = true.
Proof.
  unfold String.ltb, String.leb. rewrite (String.compare_antisym s t).
  destruct (String.compare t s); cbn; intuition discriminate.
Qed.

Lemma column_eq_size (col : column) : col = ColSize \/ col <> ColSize.
Proof. destruct col; (now left) || (right; discriminate). Qed.

(** ** Sorting by a key, in general *)

Section SortOrder.
Context {K A : Type}.
Variable lt : K -> K -> bool.
Hypothesis lt_irrefl : forall x, lt x x = false.
Hypothesis lt_asym : forall x y, lt x y = true -> lt y x = false.
Hypothesis ge_trans :
  forall x y z, lt y x = false -> lt z y = false -> lt z x = false.

Lemma insert_keyed_ordered (x : K * A) (l : list (K * A)) :
  StronglySorted (fun u v => lt (fst v) (fst u) = false) l ->
  StronglySorted (fun u v => lt (fst v) (fst u) = false)
    (insert_keyed lt x l).
Proof.
  induction 1 as [|y l Hs IH Hy]; cbn.
  - repeat constructor.
  - destruct (lt (fst y) (fst x)) eqn:Hlt.
    + constructor; [exact IH|].
      eapply Permutation_Forall; [symmetry; apply insert_keyed_perm|].
      constructor; [now apply lt_asym|exact Hy].
    + constructor; [now constructor|].
      constructor; [exact Hlt|].
      eapply Forall_impl; [|exact Hy]. intros z Hz. cbn in Hz.
      now apply (ge_trans (fst x) (fst y) (fst z)).
Qed.

Lemma sort_keyed_ordered (l : list (K * A)) :
  StronglySorted (fun u v => lt (fst v) (fst u) = false) (sort_keyed lt l).
Proof.
  induction l as [|x l IH]; cbn; [constructor|].
  now apply insert_keyed_ordered.
Qed.

(** A list in key order is left as it is. *)
Lemma sort_keyed_fixed (l : list (K * A)) :
  StronglySorted (fun u v => lt (fst v) (fst u) = false) l ->
  sort_keyed lt l = l.
Proof.
  induction 1 as [|x l Hs IH Hx]; cbn; [reflexivity|].
  rewrite IH. destruct l as [|y l]; [reflexivity|].
  cbn. inversion Hx as [|? ? Hxy _]; subst. now rewrite Hxy.
Qed.



Variable f : A -> K.

Lemma sort_by_tagged (l : list A) :
  Forall (fun y : K * A => fst y = f (snd y))
    (sort_keyed lt (map (fun a => (f a, a)) l)).
Proof. apply sort_keyed_Forall, Forall_map, Forall_forall. reflexivity. Qed.

Lemma tagged_retag (l : list (K * A)) :
  Forall (fun y : K * A => fst y = f (snd y)) l ->
  map (fun a => (f a, a)) (map snd l) = l.
Proof.
  induction 1 as [|[k a] l Hy Hl IH]; cbn; [reflexivity|].
  cbn in Hy. now rewrite IH, Hy.
Qed.

Lemma sort_by_perm (l : list A) : Permutation l (sort_by lt f l).
Proof.
  unfold sort_by. rewrite (sort_keyed_perm lt), map_map. cbn [snd].
  now rewrite map_id.
Qed.

Lemma sort_by_ordered (l : list A) :
  StronglySorted (fun a b => lt (f b) (f a) = false) (sort_by lt f l).
Proof.
  unfold sort_by.
  pose proof (sort_by_tagged l) as Ht.
  pose proof (sort_keyed_ordered (map (fun a => (f a, a)) l)) as Hs.
  induction Hs as [|x m Hs IH Hx]; cbn; [constructor|].
  inversion Ht as [|? ? Hx0 Hm0]; subst.
  constructor; [now apply IH|].
  apply Forall_map. rewrite Forall_forall in *.
  intros y Hy. specialize (Hx y Hy). specialize (Hm0 y Hy).
  now rewrite <- Hx0, <- Hm0.
Qed.

Lemma sort_by_fixed (l : list A) :
  StronglySorted (fun a b => lt (f b) (f a) = false) l ->
  sort_by lt f l = l.
Proof.
  intros Hs. unfold sort_by. rewrite sort_keyed_fixed.
  - rewrite map_map. cbn [snd]. apply map_id.
  - induction Hs as [|x m Hs IH Hx]; cbn; constructor; auto.
    apply Forall_map. eapply Forall_impl; [|exact Hx]. now cbn.
Qed.

Lemma sort_by_twice (l : list A) :
  sort_by lt f (sort_by lt f l) = sort_by lt f l.
Proof. apply sort_by_fixed, sort_by_ordered. Qed.


(** [list.sort(key=...)] with a key that returns on every item. *)
Lemma mapM_key_or (d : K) (key : A -> exc K) (l : list A) :
  Forall (fun x => exists k, key x = Ret k) l ->
  mapM key l = Ret (map (key_or d key) l).
Proof.
  induction 1 as [|x l [k Hk] Hl IH]; cbn [mapM map]; [reflexivity|].
  unfold key_or at 1. rewrite Hk. cbn [bind]. rewrite IH. reflexivity.
Qed.

Lemma mapM_returns (key : A -> exc K) (l : list A) (ks : list K) :
  mapM key l = Ret ks -> Forall (fun x => exists k, key x = Ret k) l.
Proof.
  revert ks. induction l as [|x l IH]; intros ks H; [constructor|].
  cbn in H. destruct (key x) as [k|e] eqn:Hk; [|discriminate]. cbn in H.
  destruct (mapM key l) as [ks'|e]; [|discriminate].
  constructor; [now exists k|]. now apply (IH ks').
Qed.

Lemma list_sort_sort_by (d : K) (key : A -> exc K) (l : list A) :
  Forall (fun x => exists k, key x = Ret k) l ->
  list_sort lt key l = Ret (sort_by lt (key_or d key) l).
Proof.
  intros H. unfold list_sort, sort_by. rewrite (mapM_key_or d key l H).
  cbn [bind]. now rewrite <- (map_id l) at 2; rewrite combine_map_map.
Qed.
End SortOrder.

(** ** Sorting the list view *)

Lemma Qlt_bool_asym (x y : Q) : Qlt_bool x y = true -> Qlt_bool y x = false.
Proof.
  intros H. apply (proj1 (Qlt_bool_iff _ _)) in H.
  unfold Qlt_bool. apply negb_false_iff, Qle_bool_iff. now apply Qlt_le_weak.
Qed.

Lemma Qlt_bool_ge_trans (x y z : Q) :
  Qlt_bool y x = false -> Qlt_bool z y = false -> Qlt_bool z x = false.
Proof.
  unfold Qlt_bool. rewrite !negb_false_iff, !Qle_bool_iff.
  intros Hxy Hyz. now apply (Qle_trans x y z).
Qed.

Lemma string_ltb_asym (s t : string) :
  String.ltb s t = true -> String.ltb t s = false.
Proof.
  unfold String.ltb. rewrite (String.compare_antisym t s).
  now destruct (String.compare s t).
Qed.

Lemma string_ltb_ge_trans (x y z : string) :
  String.ltb y x = false -> String.ltb z y = false -> String.ltb z x = false.
Proof.
  rewrite !string_ltb_leb. apply string_leb_trans.
Qed.

Section SortTreeMore.
Context {E : Extern}.

Lemma sort_tree_items_text (col : column) (items : list row) :
  col <> ColSize ->
  sort_tree_items col items =
  Ret (sort_by String.ltb (sort_text col) items).
Proof.
  intros Hcol.
  assert (H : list_sort String.ltb
                (fun r => Ret (Str.lower (tree_set r col))) items =
              Ret (sort_by String.ltb (sort_text col) items)).
  { rewrite (list_sort_sort_by String.ltb ""); [reflexivity|].
    apply Forall_forall. intros r _. now eexists. }
  destruct col; try exact H. congruence.
Qed.

(** Whichever the column, a sort that returns has put the lines in the
    stable order of their keys. *)
Lemma sort_tree_items_sort_by (col : column) (items sorted : list row) :
  sort_tree_items col items = Ret sorted ->
  sort_tree_items col sorted = Ret sorted.
Proof.
  destruct (column_eq_size col) as [->|Hcol].
  - unfold sort_tree_items. intros H.
    assert (Hret : Forall (fun r => exists k,
                             convert_size (tree_set r ColSize) = Ret k) items).
    { unfold list_sort in H.
      destruct (mapM _ items) as [ks|e] eqn:Hks; [|discriminate].
      now apply mapM_returns in Hks. }
    rewrite (list_sort_sort_by Qlt_bool 0%Q _ items Hret) in H.
    injection H as <-.
    rewrite (list_sort_sort_by Qlt_bool 0%Q).
    + f_equal. apply sort_by_twice.
      * apply Qlt_bool_asym.
      * apply Qlt_bool_ge_trans.
    + eapply Permutation_Forall; [apply sort_by_perm|exact Hret].
  - rewrite (sort_tree_items_text col items Hcol). intros [= <-].
    rewrite (sort_tree_items_text col _ Hcol). f_equal.
    apply sort_by_twice.
    + apply string_ltb_asym.
    + apply string_ltb_ge_trans.
Qed.
End SortTreeMore.



(** X2: sorting by a column a second time changes nothing: when
    [sort_tree] returns, sorting its result by the same column returns
    that same result.  There is no descending order. *)
Theorem sort_tree_twice {E : Extern} (col : column) (a a1 : ModCacheX) :
  sort_tree col a = Ret a1 -> sort_tree col a1 = Ret a1.
Proof.
  unfold sort_tree. intros H.
  destruct (sort_tree_items col (mod_tree a)) as [sorted|e] eqn:Hs;
    [|discriminate].
  cbn in H. injection H as <-. cbn [mod_tree set_mod_tree].
  rewrite (sort_tree_items_sort_by col _ _ Hs). reflexivity.
Qed.

Lemma sort_tree_twice_witness :
  let shown := [sample_mod "two" 2048; sample_mod "half" 512;
                sample_mod "big" 1048576] in
  let a := {| cache_dir := ["cache"]; max_cache_size := 0; mods := shown;
              mod_tree := map tree_row shown; status_var := StReady;
              search_var := ""; dialogs := [] |} in
  exists a1,
    sort_tree (E := sample_extern) ColSize a = Ret a1 /\
    map cell_size (mod_tree a1) = ["512.00 B"; "2.00 KB"; "1.00 MB"] /\
    sort_tree (E := sample_extern) ColSize a1 = Ret a1.
Proof.
  intros shown a. eexists.
  assert (H : sort_tree (E := sample_extern) ColSize a = Ret _)
    by (vm_compute; reflexivity).
  split; [exact H|]. split; [reflexivity|].
  exact (sort_tree_twice (E := sample_extern) ColSize a _ H).
Defined.

(** ** Sizes written and read back *)

(** X3: below 1024^4 bytes, what [convert_size] reads back from the text
    [format_size] wrote is the size rounded down to a whole number of the
    unit shown: at most the size, less than one unit below it, and the
    size itself below 1024 bytes. *)
Theorem convert_size_reads_format_size (b : Z) :
  0 <= b < 1024 ^ 4 ->
  exists q,
    convert_size (format_size b) = Ret q /\
    (q == inject_Z (shown_bytes b))%Q /\
    shown_bytes b <= b < shown_bytes b + 1024 ^ Z.of_nat (unit_index_of b) /\
    (b < 1024 -> shown_bytes b = b).
Proof.
  intros Hb. exists (size_key b).
  split; [now apply convert_size_format_size|].
  split; [now apply size_key_shown_bytes|].
  change (1024 ^ 4) with 1099511627776 in Hb.
  unfold shown_bytes, unit_index_of. rewrite format_size_parts_closed.
  destruct (Z.ltb_spec b 1024); [|
  destruct (Z.ltb_spec b 1048576); [|
  destruct (Z.ltb_spec b 1073741824); [|
  destruct (Z.ltb_spec b 1099511627776); [|lia]]]];
  cbn [fst snd]; rewrite pow_1024_small by lia; cbn [nth];
  (split; [div_lia|intros; lia]).
Qed.

Lemma convert_size_reads_format_size_witness :
  0 <= 1572864 < 1024 ^ 4 /\
  format_size 1572864 = "1.00 MB" /\
  exists q, convert_size (format_size 1572864) = Ret q /\
            (q == inject_Z 1048576)%Q.
Proof.
  assert (Hb : 0 <= 1572864 < 1024 ^ 4) by (cbn; lia).
  split; [exact Hb|]. split; [reflexivity|].
  destruct (convert_size_reads_format_size 1572864 Hb) as (q & Hq & Heq & _).
  exists q. split; [exact Hq|exact Heq].
Defined.

(** ** What the reader can return *)

Section ReaderMore.
Context {E : Extern}.

Lemma filter_head {A : Type} (f : A -> bool) (l : list A) (x : A)
    (rest : list A) :
  filter f l = x :: rest ->
  exists before after,
    l = (before ++ x :: after)%list /\
    Forall (fun y => f y <> true) before /\ f x = true.
Proof.
  induction l as [|y l IH]; cbn; [discriminate|].
  destruct (f y) eqn:Hy.
  - intros [= -> _]. exists [], l. repeat split; [constructor|exact Hy].
  - intros H. destruct (IH H) as (before & after & -> & Hb & Hx).
    exists (y :: before), after. repeat split; auto.
    constructor; [congruence|exact Hb].
Qed.

Lemma py_in_version_dict (mod_info : pyval) (v : pyval) :
  py_in "version" mod_info = Ret true ->
  py_getitem mod_info "version" = Ret v ->
  exists d, mod_info = PDict d /\ dict_get d "version" = Some v.
Proof.
  destruct mod_info; cbn; try discriminate. intros _.
  unfold dict_item. destruct (dict_get items "version") eqn:Hg;
    [|discriminate].
  intros [= ->]. now exists items.
Qed.
End ReaderMore.

(** Where a returned version comes from. *)
Lemma parse_mod_version_origin {E : Extern} (fs : Fs.node)
    (jar_path : Fs.path) (v : pyval) :
  parse_mod_version fs jar_path = Ret (Some v) ->
  (exists members before first after raw toml_content data mod_info others,
      Fs.zip_open fs jar_path = Ret members /\
      map fst members = (before ++ first :: after)%list /\
      Forall (fun n => ~ metadata_name n) before /\
      metadata_name first /\
      Fs.zip_read members first = Ret raw /\
      decode_utf8 raw = Ret toml_content /\
      toml_loads toml_content = Ret data /\
      dict_get data "mods" = Some (PList (PDict mod_info :: others)) /\
      dict_get mod_info "version" = Some v /\
      py_in "$" v = Ret false) /\
  (forall s, v = PStr s -> ~ substring_of "$" s).
Proof.
  intros H.
  assert (Hbody : parse_mod_version_body fs jar_path = Ret (Some v)).
  { unfold parse_mod_version in H.
    destruct (parse_mod_version_body fs jar_path); cbn in H; congruence. }
  clear H. unfold parse_mod_version_body in Hbody.
  destruct (Fs.zip_open fs jar_path) as [members|] eqn:Hopen; [|discriminate].
  cbn [bind] in Hbody.
  destruct (filter _ (map fst members)) as [|first rest] eqn:Hfilter;
    [discriminate|].
  apply filter_head in Hfilter.
  destruct Hfilter as (before & after & Hnames & Hbefore & Hfirst).
  destruct (Fs.zip_read members first) as [raw|] eqn:Hread; [|discriminate].
  cbn [bind] in Hbody.
  destruct (decode_utf8 raw) as [toml_content|] eqn:Hdec; [|discriminate].
  cbn [bind] in Hbody.
  destruct (toml_loads toml_content) as [data|] eqn:Hloads; [|discriminate].
  cbn [bind] in Hbody.
  destruct (dict_get data "mods") as [[| | | | |[|mod_info others]|]|] eqn:Hmods;
    try discriminate.
  destruct (py_in "version" mod_info) as [[|]|] eqn:Hhas; try discriminate.
  cbn [bind] in Hbody.
  destruct (py_getitem mod_info "version") as [version|] eqn:Hget;
    [|discriminate].
  cbn [bind] in Hbody.
  destruct (py_in "$" version) as [[|]|] eqn:Hdollar; try discriminate.
  cbn in Hbody. injection Hbody as ->.
  destruct (py_in_version_dict mod_info v Hhas Hget) as (d & -> & Hd).
  split.
  - exists members, before, first, after, raw, toml_content, data, d, others.
    repeat split; auto.
    + eapply Forall_impl; [|exact Hbefore].
      intros n Hn Hm. now apply Hn, metadata_name_test.
    + now apply metadata_name_test.
    + now apply metadata_name_test.
  - intros s -> Hsub. cbn in Hdollar. apply contains_spec in Hsub. congruence.
Qed.

(** X4: a version comes back from [parse_mod_version] only when the
    archive opens and the last member that bears the name of its first
    metadata member reads, decodes and parses to a document whose [mods]
    array starts with a table, and that table gives [version] this very
    value, with no [$] in it; where the name is listed once, that member
    is the first metadata member itself.  A string that comes back has
    no dollar sign. *)
Theorem parse_mod_version_sound {E : Extern} (fs : Fs.node)
    (jar_path : Fs.path) (v : pyval) :
  parse_mod_version fs jar_path = Ret (Some v) ->
  (exists members before first after ahead behind raw toml_content data
          mod_info others,
      Fs.zip_open fs jar_path = Ret members /\
      map fst members = (before ++ first :: after)%list /\
      Forall (fun n => ~ metadata_name n) before /\
      metadata_name first /\
      members = (ahead ++ (first, Ret raw) :: behind)%list /\
      ~ In first (map fst behind) /\
      (~ In first after -> map fst ahead = before) /\
      decode_utf8 raw = Ret toml_content /\
      toml_loads toml_content = Ret data /\
      dict_get data "mods" = Some (PList (PDict mod_info :: others)) /\
      dict_get mod_info "version" = Some v /\
      py_in "$" v = Ret false) /\
  (forall s, v = PStr s -> ~ substring_of "$" s).
Proof.
  intros H. destruct (parse_mod_version_origin fs jar_path v H)
    as [(members & before & first & after & raw & toml_content & data
         & mod_info & others & Hopen & Hnames & Hbefore & Hfirst & Hread
         & Hdec & Hloads & Hmods & Hversion & Hin) Hdollar].
  split; [|exact Hdollar].
  destruct (zip_read_held members first raw Hread)
    as (ahead & behind & Hmembers & Hlast).
  exists members, before, first, after, ahead, behind, raw, toml_content,
         data, mod_info, others.
  do 6 (split; [assumption|]).
  split; [|now repeat split].
  intros Honce. rewrite Hmembers, map_app in Hnames. cbn [map fst] in Hnames.
  assert (Hnot : ~ In first before).
  { intros Hb. rewrite Forall_forall in Hbefore. now apply (Hbefore first). }
  clear - Hnames Honce Hnot Hlast.
  revert before Hnames Hnot.
  induction (map fst ahead) as [|n names IH]; intros before Hnames Hnot.
  - destruct before as [|n' before']; [reflexivity|].
    cbn in Hnames. injection Hnames as <- _. destruct Hnot. now left.
  - destruct before as [|n' before'].
    + cbn in Hnames. injection Hnames as -> Hafter.
      destruct Honce. rewrite <- Hafter. apply in_or_app. right. now left.
    + cbn in Hnames. injection Hnames as -> Htail. f_equal.
      apply IH; [exact Htail|]. intros Hb. apply Hnot. now right.
Qed.

Lemma parse_mod_version_sound_witness :
  parse_mod_version (E := sample_extern) sample_disk ["cache"; "A.jar"] =
    Ret (Some (PStr "1.2.3")) /\
  ~ substring_of "$" "1.2.3".
Proof.
  assert (H : parse_mod_version (E := sample_extern) sample_disk
                ["cache"; "A.jar"] = Ret (Some (PStr "1.2.3")))
    by reflexivity.
  split; [exact H|].
  exact (proj2 (parse_mod_version_sound (E := sample_extern) sample_disk
                  ["cache"; "A.jar"] _ H) "1.2.3" eq_refl).
Defined.

(** X5: after a rescan every listed mod carries the version
    [parse_mod_version] returns for its file on the disk the rescan left,
    so no listed version is a text with a dollar sign in it. *)
Theorem refresh_mod_list_versions {E : Extern} (fs : Fs.node)
    (a : ModCacheX) (m : ModInfo) :
  In m (mods (snd (refresh_mod_list fs a))) ->
  parse_mod_version (fst (refresh_mod_list fs a)) (file_path m) =
    Ret (version m) /\
  (forall s, version m = Some (PStr s) -> ~ substring_of "$" s).
Proof.
  intros Hin.
  assert (Hv : parse_mod_version (fst (refresh_mod_list fs a)) (file_path m)
               = Ret (version m)).
  { destruct (made_dir fs a) as [fs1|e] eqn:Hmade.
    - rewrite (refresh_mod_list_scanned fs fs1 a Hmade) in *.
      cbn [fst snd mods] in *. apply load_mods_In in Hin.
      destruct Hin as [p [_ Hm]]. apply load_mod_ret in Hm.
      destruct Hm as (bytes & zip & v & _ & Hv & ->). exact Hv.
    - rewrite (refresh_mod_list_failed fs a e Hmade) in Hin. destruct Hin. }
  split; [exact Hv|]. intros s Hs. rewrite Hs in Hv.
  exact (proj2 (parse_mod_version_origin _ _ _ Hv) s eq_refl).
Qed.

Lemma refresh_mod_list_versions_witness :
  let r := refresh_mod_list (E := sample_extern) placeholder_disk
             sample_app in
  let m := ModInfo_init ["cache"; "dev.jar"] "dev" 300 None in
  In m (mods (snd r)) /\
  parse_mod_version (E := sample_extern) (fst r) (file_path m) = Ret None.
Proof.
  intros r m.
  assert (Hin : In m (mods (snd r))) by (now left).
  split; [exact Hin|].
  exact (proj1 (refresh_mod_list_versions (E := sample_extern)
                  placeholder_disk sample_app m Hin)).
Defined.

(** ** Searching *)

Section SearchMore.
Context {E : Extern}.


End SearchMore.





(** ** Changes to the directory tree *)



Lemma dict_get_set_other {V : Type} (d : list (string * V)) (key k : string)
    (v : V) :
  k <> key -> dict_get (Fs.dict_set d key v) k = dict_get d k.
Proof.
  intros Hne. induction d as [|[k' v'] d IH]; cbn.
  - destruct (String.eqb_spec key k); [congruence|reflexivity].
  - destruct (String.eqb_spec k' key) as [->|Hk]; cbn.
    + destruct (String.eqb_spec key k); [congruence|reflexivity].
    + now rewrite IH.
Qed.

Lemma dict_get_del_other {V : Type} (d : list (string * V)) (key k : string) :
  k <> key -> dict_get (dict_del d key) k = dict_get d k.
Proof.
  intros Hne. induction d as [|[k' v'] d IH]; cbn; [reflexivity|].
  destruct (String.eqb_spec k' key) as [->|Hk]; cbn.
  - destruct (String.eqb_spec key k); [congruence|reflexivity].
  - now rewrite IH.
Qed.

Lemma dict_get_not_in {V : Type} (d : list (string * V)) (k : string) :
  ~ In k (map fst d) -> dict_get d k = None.
Proof.
  induction d as [|[k' v'] d IH]; cbn; [reflexivity|]. intros H.
  destruct (String.eqb_spec k' k) as [->|Hk]; [tauto|]. apply IH. tauto.
Qed.

Lemma dict_get_del_same {V : Type} (d : list (string * V)) (k : string) :
  NoDup (map fst d) -> dict_get (dict_del d k) k = None.
Proof.
  induction d as [|[k' v'] d IH]; cbn; [reflexivity|]. intros H.
  inversion H as [|? ? Hnotin Hnd]; subst.
  destruct (String.eqb_spec k' k) as [->|Hk].
  - now apply dict_get_not_in.
  - cbn. destruct (String.eqb_spec k' k); [contradiction|now apply IH].
Qed.

Lemma dict_set_names {V : Type} (d : list (string * V)) (k : string) (v : V) :
  map fst (Fs.dict_set d k v) =
  if dict_has d k then map fst d else (map fst d ++ [k])%list.
Proof.
  unfold dict_has. induction d as [|[k' v'] d IH]; cbn; [reflexivity|].
  destruct (String.eqb_spec k' k) as [->|Hk]; cbn; [reflexivity|].
  rewrite IH. now destruct (dict_get d k).
Qed.

Lemma dict_has_In {V : Type} (d : list (string * V)) (k : string) :
  dict_has d k = false -> ~ In k (map fst d).
Proof.
  unfold dict_has. induction d as [|[k' v'] d IH]; cbn; [tauto|].
  destruct (String.eqb_spec k' k) as [->|Hk]; [discriminate|].
  intros H [Heq|Hin]; [contradiction|now apply IH].
Qed.

Lemma dict_set_In {V : Type} (d : list (string * V)) (k : string) (v : V)
    (e : string * V) :
  In e (Fs.dict_set d k v) -> e = (k, v) \/ In e d.
Proof.
  induction d as [|[k' v'] d IH]; cbn.
  - intros [<-|[]]. now left.
  - destruct (String.eqb_spec k' k) as [->|Hk]; cbn.
    + intros [<-|H]; [now left|right; now right].
    + intros [<-|H]; [right; now left|].
      destruct (IH H); [now left|right; now right].
Qed.

Lemma dict_del_In {V : Type} (d : list (string * V)) (k : string)
    (e : string * V) :
  In e (dict_del d k) -> In e d.
Proof.
  induction d as [|[k' v'] d IH]; cbn; [easy|].
  destruct (String.eqb_spec k' k) as [->|Hk]; cbn; [now right|].
  intros [<-|H]; [now left|right; now apply IH].
Qed.

Lemma dict_del_NoDup {V : Type} (d : list (string * V)) (k : string) :
  NoDup (map fst d) -> NoDup (map fst (dict_del d k)).
Proof.
  induction d as [|[k' v'] d IH]; cbn; [easy|]. intros H.
  inversion H as [|? ? Hnotin Hnd]; subst.
  destruct (String.eqb_spec k' k) as [->|Hk]; cbn; [exact Hnd|].
  constructor; [|now apply IH].
  intros Hin. apply Hnotin. apply in_map_iff in Hin.
  destruct Hin as [e [<- He]]. apply in_map. now apply dict_del_In in He.
Qed.

Lemma wf_dict_set (es : list (string * Fs.node)) (c : string) (v : Fs.node) :
  wf (Fs.Dir es) -> wf v -> wf (Fs.Dir (Fs.dict_set es c v)).
Proof.
  rewrite !wf_Dir. intros [Hnd Hall] Hv. split.
  - rewrite dict_set_names. destruct (dict_has es c) eqn:Hc; [exact Hnd|].
    apply NoDup_app; [exact Hnd|repeat constructor; easy|].
    intros k Hk [<-|[]]. now apply dict_has_In in Hc.
  - apply Forall_forall. intros e He. apply dict_set_In in He.
    destruct He as [->|He]; [exact Hv|].
    rewrite Forall_forall in Hall. now apply Hall.
Qed.

Lemma wf_dict_del (es : list (string * Fs.node)) (c : string) :
  wf (Fs.Dir es) -> wf (Fs.Dir (dict_del es c)).
Proof.
  rewrite !wf_Dir. intros [Hnd Hall]. split; [now apply dict_del_NoDup|].
  apply Forall_forall. intros e He. apply dict_del_In in He.
  rewrite Forall_forall in Hall. now apply Hall.
Qed.

Lemma wf_child (es : list (string * Fs.node)) (c : string) (child : Fs.node) :
  wf (Fs.Dir es) -> dict_get es c = Some child -> wf child.
Proof.
  intros Hwf Hc. apply (wf_get [c] (Fs.Dir es) child Hwf). cbn. now rewrite Hc.
Qed.

(** *** Writing a file *)

Lemma put_Dir (n : Fs.node) (d : Fs.path) (f n' : Fs.node) :
  Fs.put n d f = Ret n' ->
  exists es c d', n = Fs.Dir es /\ d = c :: d'.
Proof.
  destruct d as [|c d']; destruct n as [| |es]; cbn; try discriminate.
  intros _. now exists es, c, d'.
Qed.

Lemma put_deeper (es : list (string * Fs.node)) (c c' : string)
    (d : Fs.path) (f : Fs.node) :
  Fs.put (Fs.Dir es) (c :: c' :: d) f =
  match dict_get es c with
  | Some child =>
      child' <- Fs.put child (c' :: d) f ;;
      Ret (Fs.Dir (Fs.dict_set es c child'))
  | None => Raise OSError
  end.
Proof. reflexivity. Qed.

Lemma put_step (es : list (string * Fs.node)) (c : string) (d : Fs.path)
    (f n' : Fs.node) :
  Fs.put (Fs.Dir es) (c :: d) f = Ret n' ->
  exists child',
    n' = Fs.Dir (Fs.dict_set es c child') /\
    ((d = [] /\ child' = f /\
      forall l, dict_get es c <> Some (Fs.Dir l)) \/
     (d <> [] /\ exists child,
         dict_get es c = Some child /\ Fs.put child d f = Ret child')).
Proof.
  destruct d as [|c' d].
  - cbn [Fs.put].
    destruct (dict_get es c) as [[| |l]|] eqn:Hc; try discriminate;
      intros [= <-]; exists f; (split; [reflexivity|]); left;
      repeat split; congruence.
  - rewrite put_deeper.
    destruct (dict_get es c) as [child|] eqn:Hc; [|intros [=]].
    destruct (Fs.put child (c' :: d) f) as [child'|] eqn:Hp;
      [|cbn; intros [=]].
    cbn. intros [= <-]. exists child'. split; [reflexivity|]. right.
    split; [discriminate|]. now exists child.
Qed.

Lemma put_get (d : Fs.path) :
  forall n f n', Fs.put n d f = Ret n' -> Fs.get n' d = Some f.
Proof.
  induction d as [|c d IH]; intros n f n' H.
  - destruct n; discriminate.
  - destruct (put_Dir _ _ _ _ H) as (es & c0 & d0 & -> & [= <- <-]).
    destruct (put_step _ _ _ _ _ H) as (child' & -> & [(-> & -> & _)|(Hd & child & Hc & Hp)]);
      cbn [Fs.get]; rewrite dict_get_set_same; [reflexivity|].
    now apply (IH child).
Qed.




(** *** Copying *)

Lemma copy2_put (fs fs' : Fs.node) (src dst : Fs.path) :
  Fs.copy2 fs src dst = Ret fs' ->
  exists size zip dst',
    Fs.get fs src = Some (Fs.File size zip) /\
    (dst' = dst \/
     (dst' = Fs.join dst (Fs.basename src) /\
      exists l, Fs.get fs dst = Some (Fs.Dir l))) /\
    src <> dst' /\
    Fs.put fs dst' (Fs.File size zip) = Ret fs'.
Proof.
  unfold Fs.copy2.
  destruct (Fs.get fs src) as [[size zip| |]|]; try discriminate.
  set (dst' := match Fs.get fs dst with
               | Some (Fs.Dir _) => Fs.join dst (Fs.basename src)
               | _ => dst
               end).
  unfold Fs.path_eqb. destruct (list_eq_dec string_dec src dst') as [|Hne];
    [discriminate|].
  intros H. exists size, zip, dst'. repeat split; auto.
  subst dst'. destruct (Fs.get fs dst) as [[| |l]|]; auto.
  right. split; [reflexivity|]. now exists l.
Qed.




Lemma copy2_exists (fs fs' : Fs.node) (src dst : Fs.path) :
  Fs.copy2 fs src dst = Ret fs' -> Fs.exists_ fs' dst = true.
Proof.
  intros H.
  destruct (copy2_put _ _ _ _ H)
    as (size & zip & dst' & _ & [->|[-> [l Hl]]] & _ & Hp).
  - unfold Fs.exists_. now rewrite (put_get dst fs _ fs' Hp).
  - pose proof (put_get _ fs _ fs' Hp) as Hg. unfold Fs.join in Hg.
    rewrite get_app in Hg. unfold Fs.exists_.
    destruct (Fs.get fs' dst) as [[| |]|]; try reflexivity; discriminate.
Qed.

(** *** Making directories *)

Lemma makedirs_step (es : list (string * Fs.node)) (c : string)
    (d : Fs.path) :
  Fs.makedirs (Fs.Dir es) (c :: d) =
  (child' <- Fs.makedirs (match dict_get es c with
                          | Some x => x
                          | None => Fs.Dir []
                          end) d ;;
   Ret (Fs.Dir (Fs.dict_set es c child'))).
Proof. reflexivity. Qed.

Lemma makedirs_Dir (n n' : Fs.node) (d : Fs.path) :
  Fs.makedirs n d = Ret n' -> exists es, n = Fs.Dir es.
Proof.
  destruct n as [| |es]; destruct d; cbn; try discriminate; now exists es.
Qed.

(** What is no directory stays where and what it is, and nothing but
    directories is new. *)
Lemma makedirs_same_files (d : Fs.path) :
  forall n n' p x,
    Fs.makedirs n d = Ret n' -> (forall l, x <> Fs.Dir l) ->
    (Fs.get n p = Some x <-> Fs.get n' p = Some x).
Proof.
  induction d as [|c d IH]; intros n n' p x H Hx.
  - destruct (makedirs_Dir _ _ _ H) as [es ->]. cbn in H.
    now injection H as <-.
  - destruct (makedirs_Dir _ _ _ H) as [es ->]. rewrite makedirs_step in H.
    destruct (Fs.makedirs _ d) as [child'|] eqn:Hc; [|discriminate].
    cbn in H. injection H as <-.
    destruct p as [|k p].
    + cbn. split; intros [= <-]; exfalso; eapply Hx; reflexivity.
    + cbn [Fs.get]. destruct (String.eqb_spec k c) as [->|Hk];
        [|now rewrite dict_get_set_other].
      rewrite dict_get_set_same.
      destruct (dict_get es c) as [child|] eqn:Hes.
      * now apply (IH child child').
      * rewrite <- (IH (Fs.Dir []) child' p x Hc Hx).
        destruct p; cbn; [|easy]. split; [easy|].
        intros [= <-]. exfalso. eapply Hx. reflexivity.
Qed.

Lemma makedirs_exists (d : Fs.path) :
  forall n n', Fs.makedirs n d = Ret n' -> Fs.exists_ n' d = true.
Proof.
  unfold Fs.exists_.
  induction d as [|c d IH]; intros n n' H.
  - destruct (makedirs_Dir _ _ _ H) as [es ->]. cbn in H.
    now injection H as <-.
  - destruct (makedirs_Dir _ _ _ H) as [es ->]. rewrite makedirs_step in H.
    destruct (Fs.makedirs _ d) as [child'|] eqn:Hc; [|discriminate].
    cbn in H. injection H as <-. cbn [Fs.get]. rewrite dict_get_set_same.
    exact (IH _ child' Hc).
Qed.

(** ** More on the rescan *)

Lemma sizes_nonneg_Dir (es : list (string * Fs.node)) :
  sizes_nonneg (Fs.Dir es) <-> Forall (fun e => sizes_nonneg (snd e)) es.
Proof.
  cbn [sizes_nonneg].
  induction es as [|e es IH]; [split; constructor|].
  rewrite IH. split.
  - intros [He Hes]. now constructor.
  - intros H. inversion H; subst. now split.
Qed.

Lemma sizes_nonneg_get (p : Fs.path) :
  forall fs n, sizes_nonneg fs -> Fs.get fs p = Some n -> sizes_nonneg n.
Proof.
  induction p as [|c p IH]; intros fs n Hnn Hget; cbn in Hget.
  - now injection Hget as <-.
  - destruct fs as [| |es]; try discriminate.
    destruct (dict_get es c) as [child|] eqn:Hc; [|discriminate].
    apply sizes_nonneg_Dir in Hnn. rewrite Forall_forall in Hnn.
    apply (IH child n); [|exact Hget].
    apply (Hnn (c, child)). now apply dict_get_In.
Qed.

Lemma file_bytes_nonneg (fs : Fs.node) (p : Fs.path) :
  sizes_nonneg fs -> 0 <= file_bytes fs p.
Proof.
  intros Hnn. unfold file_bytes.
  destruct (Fs.get fs p) as [[size zip| |]|] eqn:Hget; try lia.
  exact (sizes_nonneg_get p fs _ Hnn Hget).
Qed.

Lemma sumZ_filter_le {A : Type} (g : A -> Z) (f : A -> bool) (l : list A) :
  (forall x, 0 <= g x) ->
  sumZ (map g (filter f l)) <= sumZ (map g l).
Proof.
  intros Hg. induction l as [|x l IH]; cbn [filter map]; [lia|].
  specialize (Hg x).
  destruct (f x); cbn [map]; rewrite ?sumZ_cons; lia.
Qed.

Lemma filter_flat_map {A B : Type} (f : B -> bool) (g : A -> list B)
    (l : list A) :
  filter f (flat_map g l) = flat_map (fun x => filter f (g x)) l.
Proof.
  induction l as [|x l IH]; cbn; [reflexivity|].
  now rewrite filter_app, IH.
Qed.

Lemma filter_map_comm {A B : Type} (f : B -> bool) (g : A -> B) (l : list A) :
  filter f (map g l) = map g (filter (fun x => f (g x)) l).
Proof.
  induction l as [|x l IH]; cbn; [reflexivity|].
  destruct (f (g x)); cbn; now rewrite IH.
Qed.

Lemma filter_all {A : Type} (l : list A) : filter (fun _ => true) l = l.
Proof. induction l as [|x l IH]; cbn; [reflexivity|now rewrite IH]. Qed.

(** The kept paths are the paths of all entries whose name is kept. *)
Lemma rel_files_filter (keep : string -> bool) (n : Fs.node) :
  rel_files keep n =
  filter (fun r => keep (last r "")) (rel_files (fun _ => true) n).
Proof.
  induction n as [size zip| |es IH] using node_rect'; try reflexivity.
  cbn [rel_files]. rewrite filter_app, filter_all. f_equal.
  - rewrite filter_map_comm. reflexivity.
  - rewrite filter_flat_map.
    induction IH as [|e es He Hes IHes]; [reflexivity|].
    cbn [flat_map]. rewrite IHes, He. f_equal.
    rewrite filter_map_comm. f_equal.
    apply filter_ext_in. intros r Hr. apply rel_files_nonempty in Hr.
    now destruct r.
Qed.

Section RescanMore.
Context {E : Extern}.

Lemma load_mods_sizes (fs : Fs.node) (l : list Fs.path) :
  sumZ (map size (load_mods fs l)) = sumZ (map (file_bytes fs) l).
Proof.
  unfold load_mods. induction l as [|p l IH]; [reflexivity|].
  cbn [flat_map map]. rewrite map_app, sumZ_app, IH, sumZ_cons.
  destruct (load_mod fs p) as [m|e] eqn:Hm.
  - apply load_mod_ret in Hm.
    destruct Hm as (bytes & zip & v & Hget & _ & ->).
    unfold file_bytes. rewrite Hget. cbn. lia.
  - assert (Hf : Fs.isfile fs p = false).
    { destruct (Fs.isfile fs p) eqn:Hf; [|reflexivity].
      pose proof (load_mods_paths fs [p]) as Hp. unfold load_mods in Hp.
      cbn in Hp. rewrite Hm, Hf in Hp. discriminate. }
    rewrite (not_isfile_bytes fs p Hf). cbn. lia.
Qed.

Lemma scan_sizes_le_total (fs1 : Fs.node) (top : Fs.path) :
  wf fs1 -> sizes_nonneg fs1 ->
  sumZ (map size (load_mods fs1 (walk_files is_jar fs1 top))) <=
  total_size_loop fs1 0 (walk_files (fun _ => true) fs1 top).
Proof.
  intros Hwf Hnn. rewrite load_mods_sizes, total_size_loop_sum.
  rewrite !walk_files_rel.
  destruct (Fs.get fs1 top) as [root|] eqn:Hroot; [|cbn; lia].
  rewrite (rel_files_filter is_jar root), !map_map.
  cbn [Z.add]. apply sumZ_filter_le.
  intros p. now apply file_bytes_nonneg.
Qed.

Lemma made_dir_same_dir (fs : Fs.node) (a b : ModCacheX) :
  cache_dir a = cache_dir b -> made_dir fs a = made_dir fs b.
Proof. unfold made_dir. now intros ->. Qed.

Lemma made_dir_exists (fs fs1 : Fs.node) (a : ModCacheX) :
  made_dir fs a = Ret fs1 -> Fs.exists_ fs1 (cache_dir a) = true.
Proof.
  unfold made_dir. destruct (Fs.exists_ fs (cache_dir a)) eqn:Hex; cbn.
  - now intros [= <-].
  - apply makedirs_exists.
Qed.

Lemma made_dir_again (fs fs1 : Fs.node) (a : ModCacheX) :
  made_dir fs a = Ret fs1 -> made_dir fs1 a = Ret fs1.
Proof.
  intros H. unfold made_dir. now rewrite (made_dir_exists fs fs1 a H).
Qed.

Lemma made_dir_same_files (fs fs1 : Fs.node) (a : ModCacheX) (p : Fs.path)
    (x : Fs.node) :
  made_dir fs a = Ret fs1 -> (forall l, x <> Fs.Dir l) ->
  (Fs.get fs p = Some x <-> Fs.get fs1 p = Some x).
Proof.
  unfold made_dir. destruct (Fs.exists_ fs (cache_dir a)); cbn.
  - now intros [= <-].
  - intros H Hx. now apply (makedirs_same_files (cache_dir a)).
Qed.
End RescanMore.

(** X8: a rescan right after a rescan finds what the first found: the
    inventory and the list view are as the first rescan left them. *)
Theorem refresh_mod_list_twice {E : Extern} (fs : Fs.node) (a : ModCacheX) :
  let r1 := refresh_mod_list fs a in
  let r2 := refresh_mod_list (fst r1) (snd r1) in
  mods (snd r2) = mods (snd r1) /\
  mod_tree (snd r2) = mod_tree (snd r1).
Proof.
  intros r1 r2. subst r1 r2.
  destruct (made_dir fs a) as [fs1|e] eqn:Hmade.
  - rewrite (refresh_mod_list_scanned fs fs1 a Hmade). cbn [fst snd].
    erewrite (refresh_mod_list_scanned fs1 fs1).
    + cbn. repeat split.
    + apply made_dir_again in Hmade. exact Hmade.
  - rewrite (refresh_mod_list_failed fs a e Hmade). cbn [fst snd].
    erewrite (refresh_mod_list_failed fs).
    + cbn. repeat split.
    + exact Hmade.
Qed.

(** X9: a rescan, whatever its outcome and whatever the budget, takes no
    file away and adds none, the log it writes apart: a path of another
    base name than the log's holds a regular file, or a dangling link,
    after the rescan exactly when it held the same one before.  And
    unless making it failed with an error box, the cache directory exists
    afterwards. *)
Theorem refresh_mod_list_keeps_files {E : Extern} (fs : Fs.node)
    (a : ModCacheX) :
  let r := refresh_mod_list fs a in
  same_files fs (fst r) /\
  (Fs.exists_ (fst r) (cache_dir a) = true \/
   exists e, dialogs (snd r) = (dialogs a ++ [ErrCreateCacheDir e])%list).
Proof.
  intros r. subst r.
  destruct (made_dir fs a) as [fs1|e] eqn:Hmade.
  - rewrite (refresh_mod_list_scanned fs fs1 a Hmade). cbn [fst snd]. split.
    + intros p x _ Hx. now apply (made_dir_same_files fs fs1 a).
    + left. now apply (made_dir_exists fs).
  - rewrite (refresh_mod_list_failed fs a e Hmade). cbn [fst snd]. split.
    + easy.
    + right. now exists e.
Qed.

(** X10: on a well-formed disk without negative lengths, the cache size
    a rescan computes is at least the sum of the sizes of the mods it
    lists. *)
Theorem refresh_mod_list_sizes {E : Extern} (fs : Fs.node) (a : ModCacheX) :
  wf fs -> sizes_nonneg fs ->
  let r := refresh_mod_list fs a in
  sumZ (map size (mods (snd r))) <= fst (get_cache_size (fst r) (snd r)).
Proof.
  intros Hwf Hnn r. subst r. unfold get_cache_size. cbn [fst].
  destruct (made_dir_cases fs a)
    as [[Hex Hmade]|[Hex [[e Hmade]|[fs1 [Hmade Hnew]]]]].
  - rewrite (refresh_mod_list_scanned fs fs a Hmade).
    cbn [fst snd mods cache_dir]. now apply scan_sizes_le_total.
  - rewrite (refresh_mod_list_failed fs a e Hmade).
    cbn [fst snd mods cache_dir map].
    rewrite (scan_total fs _ Hwf), (dir_bytes_missing fs _ Hex). cbn. lia.
  - rewrite (refresh_mod_list_scanned fs fs1 a Hmade).
    cbn [fst snd mods cache_dir].
    rewrite !(empty_dir_scan _ fs1 _ Hnew). cbn. lia.
Qed.

Lemma refresh_mod_list_sizes_witness :
  let r := refresh_mod_list (E := sample_extern) sample_disk sample_app in
  wf sample_disk /\ sizes_nonneg sample_disk /\
  sumZ (map size (mods (snd r))) <= fst (get_cache_size (fst r) (snd r)) /\
  sumZ (map size (mods (snd r))) = 2560 /\
  fst (get_cache_size (fst r) (snd r)) = 2660.
Proof.
  intros r.
  assert (Hwf : wf sample_disk) by wf_concrete.
  assert (Hnn : sizes_nonneg sample_disk) by (cbn; repeat split; lia).
  split; [exact Hwf|]. split; [exact Hnn|].
  split; [|split; reflexivity].
  exact (refresh_mod_list_sizes (E := sample_extern) sample_disk
           sample_app Hwf Hnn).
Defined.

(** ** More on import *)

Section ImportMore.
Variables (top : Fs.path) (answers : nat -> option bool).

Lemma import_copy_cases (s : import_state) (asked' : nat)
    (file_path dest_path : Fs.path) :
  (exists disk',
      Fs.copy2 (disk s) file_path dest_path = Ret disk' /\
      import_copy s asked' file_path dest_path =
      {| disk := disk'; success_count := S (success_count s);
         fail_count := fail_count s; failed_files := failed_files s;
         asked := asked' |}) \/
  (exists e,
      Fs.copy2 (disk s) file_path dest_path = Raise e /\
      import_copy s asked' file_path dest_path =
      {| disk := disk s; success_count := success_count s;
         fail_count := S (fail_count s);
         failed_files := (failed_files s ++ [(file_path, e)])%list;
         asked := asked' |}).
Proof.
  unfold import_copy.
  destruct (Fs.copy2 (disk s) file_path dest_path) as [disk'|e];
    [left; now exists disk'|right; now exists e].
Qed.

(** The three ways a turn of the loop can end. *)
Lemma import_step_cases (s : import_state) (file_path : Fs.path) :
  let dest_path := Fs.join top (Fs.basename file_path) in
  (exists asked',
      (asked' = asked s \/ asked' = S (asked s)) /\
      (asked' = asked s -> Fs.exists_ (disk s) dest_path = false) /\
      (asked' = S (asked s) -> answers (asked s) = Some true) /\
      import_step top answers s file_path =
      (import_copy s asked' file_path dest_path, Next)) \/
  (Fs.exists_ (disk s) dest_path = true /\
   answers (asked s) = Some false /\
   import_step top answers s file_path = (after_question s, Next)) \/
  (Fs.exists_ (disk s) dest_path = true /\
   answers (asked s) = None /\
   import_step top answers s file_path = (after_question s, Break)).
Proof.
  intros dest_path. unfold import_step. fold dest_path.
  destruct (Fs.exists_ (disk s) dest_path) eqn:Hex.
  - destruct (answers (asked s)) as [[|]|] eqn:Ha.
    + left. exists (S (asked s)).
      split; [now right|]. split; [intros Heq; lia|]. now split.
    + right. left. now repeat split.
    + right. right. now repeat split.
  - left. exists (asked s).
    split; [now left|]. split; [reflexivity|]. split; [intros Heq; lia|].
    reflexivity.
Qed.

(** What a turn keeps: the failures filed so far, a count of failures
    equal to their number, and at most one more success or failure and
    one more question. *)
Lemma import_step_counts (s : import_state) (file_path : Fs.path) :
  let s' := fst (import_step top answers s file_path) in
  (exists added,
      failed_files s' = (failed_files s ++ added)%list /\
      fail_count s' = (fail_count s + List.length added)%nat /\
      Forall (fun pe => fst pe = file_path) added /\
      (success_count s' + List.length added
       <= S (success_count s))%nat /\
      (success_count s <= success_count s')%nat /\
      ((forall n, answers n = Some true) ->
       snd (import_step top answers s file_path) = Next /\
       (success_count s' + List.length added = S (success_count s))%nat)) /\
  (asked s <= asked s' <= S (asked s))%nat.
Proof.
  intros s'. subst s'.
  destruct (import_step_cases s file_path)
    as [(asked' & Hasked & _ & _ & ->)|[(_ & Ha & ->)|(_ & Ha & ->)]];
    cbn [fst snd].
  - destruct (import_copy_cases s asked' file_path
                (Fs.join top (Fs.basename file_path)))
      as [(disk' & _ & ->)|(e & _ & ->)]; cbn.
    + split; [|lia]. exists []. rewrite app_nil_r. cbn.
      repeat split; auto; lia.
    + split; [|lia]. exists [(file_path, e)]. cbn.
      repeat split; auto; lia.
  - split; [|cbn; lia]. exists []. rewrite app_nil_r. cbn.
    repeat split; auto; try lia.
    all: match goal with
         | Hyes : forall n, answers n = Some true |- _ =>
             rewrite Hyes in Ha; discriminate
         end.
  - split; [|cbn; lia]. exists []. rewrite app_nil_r. cbn.
    repeat split; auto; try lia.
    all: match goal with
         | Hyes : forall n, answers n = Some true |- _ =>
             rewrite Hyes in Ha; discriminate
         end.
Qed.

Lemma import_loop_tally (files : list Fs.path) :
  forall s0,
    let s := fst (import_loop top answers s0 files) in
    exists added,
      failed_files s = (failed_files s0 ++ added)%list /\
      fail_count s = (fail_count s0 + List.length added)%nat /\
      Forall (fun pe => In (fst pe) files) added /\
      (success_count s + List.length added
       <= success_count s0 + List.length files)%nat /\
      (asked s <= asked s0 + List.length files)%nat /\
      ((forall n, answers n = Some true) ->
       (success_count s + List.length added
        = success_count s0 + List.length files)%nat).
Proof.
  induction files as [|f files IH]; intros s0 s; subst s.
  - exists []. cbn. rewrite app_nil_r. repeat split; auto; lia.
  - cbn [import_loop].
    destruct (import_step_counts s0 f)
      as [(added1 & Hf1 & Hc1 & Hin1 & Hle1 & Hmono1 & Hall1) Hask1].
    destruct (import_step top answers s0 f) as [s1 [|]] eqn:Hstep;
      cbn [fst snd] in *.
    + destruct (IH s1) as (added2 & Hf2 & Hc2 & Hin2 & Hle2 & Hask2 & Hall2).
      exists (added1 ++ added2)%list. rewrite Hf2, Hf1, Hc2, Hc1.
      rewrite <- app_assoc, length_app. cbn [List.length].
      repeat split; auto; try lia.
      * apply Forall_app. split.
        -- eapply Forall_impl; [|exact Hin1]. intros pe ->. now left.
        -- eapply Forall_impl; [|exact Hin2]. intros pe H. now right.
      * intros Hyes. specialize (Hall2 Hyes).
        destruct (Hall1 Hyes) as [_ Heq]. lia.
    + exists added1. cbn [List.length]. repeat split; auto; try lia.
      * eapply Forall_impl; [|exact Hin1]. intros pe ->. now left.
      * intros Hyes. destruct (Hall1 Hyes) as [Hflow _]. discriminate.
Qed.



Lemma copy2_onto_itself (fs : Fs.node) (p : Fs.path) :
  Fs.copy2 fs p p = Raise OSError.
Proof.
  unfold Fs.copy2. destruct (Fs.get fs p) as [[size zip| |]|]; try reflexivity.
  unfold Fs.path_eqb. now destruct (list_eq_dec string_dec p p).
Qed.

Lemma import_step_in_cache (s : import_state) (name : string) :
  let s' := fst (import_step top answers s (top ++ [name])%list) in
  disk s' = disk s /\ success_count s' = success_count s.
Proof.
  intros s'. subst s'.
  destruct (import_step_cases s (top ++ [name])%list)
    as [(asked' & _ & _ & _ & ->)|[(_ & _ & ->)|(_ & _ & ->)]];
    cbn [fst]; try (now split).
  unfold import_copy, Fs.basename. rewrite last_last.
  unfold Fs.join. now rewrite copy2_onto_itself.
Qed.
End ImportMore.

(** X11: the books of an import balance.  Whatever the answers, when the
    loop over the chosen files is left the failure count is the number of
    failures filed, every failure filed is for one of the chosen files,
    successes and failures together are no more than the files chosen and
    no more questions were put than files chosen; and if every question
    is answered with "overwrite", every file is a success or a failure. *)
Theorem import_loop_counts (top : Fs.path) (answers : nat -> option bool)
    (fs : Fs.node) (files : list Fs.path) :
  let s := fst (import_loop top answers (import_start fs) files) in
  fail_count s = List.length (failed_files s) /\
  Forall (fun pe => In (fst pe) files) (failed_files s) /\
  (success_count s + fail_count s <= List.length files)%nat /\
  (asked s <= List.length files)%nat /\
  ((forall n, answers n = Some true) ->
   (success_count s + fail_count s = List.length files)%nat).
Proof.
  intros s. subst s.
  destruct (import_loop_tally top answers files (import_start fs))
    as (added & Hf & Hc & Hin & Hle & Hask & Hall).
  cbn [import_start failed_files fail_count success_count asked] in *.
  cbn [List.app Nat.add] in *. rewrite Hf, Hc.
  repeat split; auto.
Qed.



Lemma import_loop_in_place (top : Fs.path) (answers : nat -> option bool)
    (s0 : import_state) (files : list Fs.path) :
  Forall (fun f => exists name, f = (top ++ [name])%list) files ->
  let s := fst (import_loop top answers s0 files) in
  disk s = disk s0 /\ success_count s = success_count s0.
Proof.
  intros Hin. revert s0.
  induction Hin as [|f files [name ->] Hfiles IH]; intros s0; [now split|].
  cbn [import_loop].
  destruct (import_step_in_cache top answers s0 name) as [Hd Hs].
  destruct (import_step top answers s0 (top ++ [name])%list) as [s1 [|]];
    cbn [fst] in *; [|now split].
  destruct (IH s1) as [Hd' Hs']. cbn zeta in *. split; congruence.
Qed.

(** X13: a file that already lies in the cache directory cannot be
    imported: whatever the answers, a loop over such files leaves the
    count of successes as it was and, the log apart, every file of the
    disk where and as it was.  Copying a file onto itself is refused, so
    "overwrite" files a failure. *)
Theorem import_loop_in_cache (top : Fs.path) (answers : nat -> option bool)
    (s0 : import_state) (files : list Fs.path) :
  Forall (fun f => exists name, f = (top ++ [name])%list) files ->
  let s := fst (import_loop top answers s0 files) in
  same_files (disk s0) (disk s) /\ success_count s = success_count s0.
Proof.
  intros Hin s. subst s.
  destruct (import_loop_in_place top answers s0 files Hin) as [Hd Hs].
  cbn zeta in *. rewrite Hd. split; [|exact Hs].
  intros p x _ _. reflexivity.
Qed.

Lemma import_loop_in_cache_witness :
  let overwrite := fun _ : nat => Some true in
  let s := fst (import_loop ["cache"] overwrite (import_start import_disk)
                  [["cache"; "b.jar"]]) in
  Fs.exists_ import_disk ["cache"; "b.jar"] = true /\
  Fs.get (disk s) ["cache"; "b.jar"] = Some (Fs.File 10 None) /\
  success_count s = 0%nat /\ fail_count s = 1%nat.
Proof.
  intros overwrite s. split; [reflexivity|].
  destruct (import_loop_in_cache ["cache"] overwrite
              (import_start import_disk) [["cache"; "b.jar"]]) as [Hd Hs].
  - constructor; [|constructor]. now exists "b.jar".
  - split; [|split; [exact Hs|reflexivity]].
    apply (Hd ["cache"; "b.jar"] (Fs.File 10 None)).
    + discriminate.
    + discriminate.
    + reflexivity.
Defined.

Section ImportListed.
Variables (top : Fs.path) (answers : nat -> option bool).

Lemma import_step_success (s : import_state) (file_path : Fs.path) :
  success_count (fst (import_step top answers s file_path))
  = S (success_count s) ->
  exists disk',
    Fs.copy2 (disk s) file_path (Fs.join top (Fs.basename file_path))
    = Ret disk' /\
    disk (fst (import_step top answers s file_path)) = disk' /\
    snd (import_step top answers s file_path) = Next.
Proof.
  destruct (import_step_cases top answers s file_path)
    as [(asked' & _ & _ & _ & ->)|[(_ & _ & ->)|(_ & _ & ->)]];
    cbn [fst snd after_question success_count]; try lia.
  destruct (import_copy_cases s asked' file_path
              (Fs.join top (Fs.basename file_path)))
    as [(disk' & Hcopy & ->)|(e & _ & ->)]; cbn [success_count disk];
    [|lia].
  intros _. now exists disk'.
Qed.

Lemma import_step_asks (s : import_state) (file_path : Fs.path) :
  Fs.exists_ (disk s) (Fs.join top (Fs.basename file_path)) = true ->
  asked (fst (import_step top answers s file_path)) = S (asked s).
Proof.
  intros Hex. unfold import_step. rewrite Hex.
  destruct (answers (asked s)) as [[|]|]; cbn [fst asked]; try reflexivity.
  unfold import_copy. now destruct (Fs.copy2 _ _ _).
Qed.

End ImportListed.

(** X14: two chosen files of one base name meet in the cache: when the
    turn of the first ends in a success, the turn of a file with the same
    base name finds the name taken and puts the conflict question. *)
Theorem import_step_second_asks (top : Fs.path)
    (answers : nat -> option bool) (s : import_state)
    (first second : Fs.path) :
  success_count (fst (import_step top answers s first))
  = S (success_count s) ->
  Fs.basename second = Fs.basename first ->
  let s1 := fst (import_step top answers s first) in
  Fs.exists_ (disk s1) (Fs.join top (Fs.basename second)) = true /\
  asked (fst (import_step top answers s1 second)) = S (asked s1).
Proof.
  intros Hok Hname s1. subst s1.
  destruct (import_step_success top answers s first Hok)
    as (disk' & Hcopy & Hdisk & _).
  assert (Hex : Fs.exists_ (disk (fst (import_step top answers s first)))
                  (Fs.join top (Fs.basename second)) = true).
  { rewrite Hdisk, Hname. now apply (copy2_exists _ _ _ _ Hcopy). }
  split; [exact Hex|]. now apply import_step_asks.
Qed.

Lemma import_step_second_asks_witness :
  let top := ["cache"] in
  let never := fun _ : nat => @None bool in
  let s := import_start import_disk in
  let first := ["downloads"; "a.jar"] in
  let second := ["cache"; "a.jar"] in
  Fs.exists_ (disk s) ["cache"; "a.jar"] = false /\
  success_count (fst (import_step top never s first)) = S (success_count s) /\
  asked (fst (import_step top never (fst (import_step top never s first))
                second)) = 1%nat.
Proof.
  intros top never s first second.
  assert (Hok : success_count (fst (import_step top never s first))
                = S (success_count s)) by reflexivity.
  split; [reflexivity|]. split; [exact Hok|].
  exact (proj2 (import_step_second_asks top never s first second Hok
                  eq_refl)).
Defined.




(** ** More on export *)

Section BulkLoop.
Variable op : bulk_state -> ModInfo -> exc Fs.node.

Lemma bulk_turn_counts (s : bulk_state) (m : ModInfo) :
  let s' := bulk_turn s m (op s m) in
  (bulk_success s' + bulk_fail s' = S (bulk_success s + bulk_fail s))%nat /\
  exists added,
    bulk_failed s' = (bulk_failed s ++ added)%list /\
    bulk_fail s' = (bulk_fail s + List.length added)%nat /\
    Forall (fun ne => fst ne = file_name m) added.
Proof.
  cbn zeta. unfold bulk_turn. destruct (op s m) as [disk'|e];
    cbn [bulk_success bulk_fail bulk_failed]; (split; [lia|]).
  - exists []. rewrite app_nil_r. cbn. repeat split; [lia|constructor].
  - exists [(file_name m, e)]. cbn. repeat split; [lia|].
    now constructor.
Qed.

Lemma bulk_loop_counts (selected_mods : list ModInfo) :
  forall s,
    let s' := fold_left (fun s m => bulk_turn s m (op s m))
                selected_mods s in
    (bulk_success s' + bulk_fail s'
     = bulk_success s + bulk_fail s + List.length selected_mods)%nat /\
    exists added,
      bulk_failed s' = (bulk_failed s ++ added)%list /\
      bulk_fail s' = (bulk_fail s + List.length added)%nat /\
      Forall (fun ne => exists m, In m selected_mods /\
                                  fst ne = file_name m) added.
Proof.
  induction selected_mods as [|m l IH]; intros s; cbn [fold_left].
  - split; [cbn; lia|]. exists []. rewrite app_nil_r. cbn.
    repeat split; [lia|constructor].
  - destruct (bulk_turn_counts s m) as (Hsum & add1 & Hf1 & Hc1 & Hin1).
    destruct (IH (bulk_turn s m (op s m)))
      as (Hsum' & add2 & Hf2 & Hc2 & Hin2).
    cbn zeta in *. split; [cbn [List.length]; lia|].
    exists (add1 ++ add2)%list. rewrite Hf2, Hf1, Hc2, Hc1, <- app_assoc.
    rewrite length_app. repeat split; [lia|].
    apply Forall_app. split.
    + eapply Forall_impl; [|exact Hin1]. intros ne Hne.
      exists m. split; [now left|exact Hne].
    + eapply Forall_impl; [|exact Hin2]. intros ne (m' & Hm' & Hne).
      exists m'. split; [now right|exact Hne].
Qed.

End BulkLoop.


Lemma export_loop_cons (directory : Fs.path) (s : bulk_state) (m : ModInfo)
    (l : list ModInfo) :
  export_loop directory s (m :: l) =
  export_loop directory
    (bulk_turn s m
       (Fs.copy2 (bulk_disk s) (file_path m)
          (Fs.join directory (Fs.basename (file_path m))))) l.
Proof. reflexivity. Qed.

(** X16: the books of an export balance.  When a directory was chosen
    for a selection that is not empty, every selected mod is one success
    or one failure; the failure count is the number of failures filed,
    each under the file name of a selected mod; the status bar ends
    reading the number exported when there is a success and stays at
    "exporting" when there is none; one error box is shown exactly when
    there is a failure; and the inventory is the one before. *)
Theorem export_mods_counts (selected_mods : list ModInfo)
    (directory : Fs.path) (fs : Fs.node) (a : ModCacheX) :
  selected_mods <> [] ->
  let r := export_mods selected_mods (Some directory) fs a in
  let s := result_counts r in
  (bulk_success s + bulk_fail s = List.length selected_mods)%nat /\
  bulk_fail s = List.length (bulk_failed s) /\
  Forall (fun ne => exists m, In m selected_mods /\ fst ne = file_name m)
         (bulk_failed s) /\
  result_status r =
    Some (match bulk_success s with
          | O => StExporting (List.length selected_mods)
          | S _ => StExported (bulk_success s)
          end) /\
  result_boxes r =
    match bulk_fail s with
    | O => []
    | S _ => [ErrExportFailed (bulk_fail s) (bulk_failed s)]
    end /\
  result_app r = a.
Proof.
  intros Hne r s. subst s r. unfold export_mods.
  destruct selected_mods as [|m0 l] eqn:Hsel; [congruence|].
  rewrite <- Hsel. cbn [result_counts result_status result_boxes result_app].
  unfold export_loop.
  destruct (bulk_loop_counts
              (fun s m => Fs.copy2 (bulk_disk s) (file_path m)
                            (Fs.join directory (Fs.basename (file_path m))))
              selected_mods (bulk_start fs))
    as (Hsum & added & Hf & Hc & Hin).
  cbn zeta in *. cbn [bulk_start bulk_success bulk_fail bulk_failed] in *.
  cbn [List.app Nat.add] in *.
  split; [exact Hsum|]. split; [now rewrite Hf, Hc|].
  split; [now rewrite Hf|].
  split; [|split; [|reflexivity]].
  - now destruct (bulk_success _).
  - now destruct (bulk_fail _).
Qed.

Lemma export_mods_counts_witness :
  let selected := [sample_mod "b" 10; sample_mod "ghost" 0] in
  let r := export_mods selected (Some ["downloads"]) import_disk
             sample_app in
  selected <> [] /\
  bulk_success (result_counts r) = 1%nat /\
  bulk_failed (result_counts r) = [("ghost.jar", OSError)] /\
  result_status r = Some (StExported 1) /\
  Fs.get (result_disk r) ["downloads"; "b.jar"] = Some (Fs.File 10 None).
Proof.
  intros selected r.
  assert (Hne : selected <> []) by discriminate.
  split; [exact Hne|].
  destruct (export_mods_counts selected ["downloads"] import_disk
              sample_app Hne) as (_ & _ & _ & Hst & _).
  split; [reflexivity|]. split; [reflexivity|]. split; [exact Hst|].
  reflexivity.
Defined.



(** X18: a mod cannot be exported into the directory its file lies in:
    when every selected mod lies directly in the chosen directory, every
    file of the disk, the log apart, stays where and as it is, every mod
    is a failure and the status bar never reads a number exported. *)
Theorem export_mods_in_place (selected_mods : list ModInfo)
    (directory : Fs.path) (fs : Fs.node) (a : ModCacheX) :
  selected_mods <> [] ->
  Forall (fun m => exists name, file_path m = (directory ++ [name])%list)
         selected_mods ->
  let r := export_mods selected_mods (Some directory) fs a in
  same_files fs (result_disk r) /\
  bulk_success (result_counts r) = 0%nat /\
  bulk_fail (result_counts r) = List.length selected_mods /\
  result_status r = Some (StExporting (List.length selected_mods)).
Proof.
  intros Hne Hin r. subst r. unfold export_mods.
  destruct selected_mods as [|m0 l] eqn:Hsel; [congruence|].
  rewrite <- Hsel in *. clear Hsel Hne m0 l.
  cbn [result_disk result_counts result_status].
  assert (Hloop : forall s,
             let s' := export_loop directory s selected_mods in
             bulk_disk s' = bulk_disk s /\
             bulk_success s' = bulk_success s /\
             bulk_fail s' = (bulk_fail s + List.length selected_mods)%nat).
  { induction Hin as [|m l [name Hm] Hl IH]; intros s; cbn zeta.
    - cbn. repeat split; lia.
    - rewrite export_loop_cons, Hm. unfold Fs.join, Fs.basename.
      rewrite last_app_nonempty by discriminate. cbn [last].
      rewrite copy2_onto_itself. cbn [bulk_turn].
      destruct (IH {| bulk_disk := bulk_disk s;
                      bulk_success := bulk_success s;
                      bulk_fail := S (bulk_fail s);
                      bulk_failed :=
                        (bulk_failed s ++ [(file_name m, OSError)])%list |})
        as (Hd & Hs & Hf).
      cbn [bulk_disk bulk_success bulk_fail] in *.
      rewrite Hd, Hs, Hf. cbn [List.length]. repeat split; lia. }
  destruct (Hloop (bulk_start fs)) as (Hd & Hs & Hf).
  cbn [bulk_start bulk_disk bulk_success bulk_fail Nat.add] in *.
  rewrite Hd, Hs, Hf. split; [|now repeat split].
  intros p x _ _. reflexivity.
Qed.

Lemma export_mods_in_place_witness :
  let selected := [sample_mod "A" 2048] in
  let r := export_mods selected (Some ["cache"]) sample_disk sample_app in
  selected <> [] /\
  Fs.isfile sample_disk ["cache"; "A.jar"] = true /\
  Fs.isfile (result_disk r) ["cache"; "A.jar"] = true /\
  bulk_fail (result_counts r) = 1%nat.
Proof.
  intros selected r. assert (Hne : selected <> []) by discriminate.
  assert (Hin : Forall
                  (fun m => exists name,
                       file_path m = (["cache"] ++ [name])%list)
                  selected)
    by (constructor; [now exists "A.jar"|constructor]).
  split; [exact Hne|]. split; [reflexivity|].
  destruct (export_mods_in_place selected ["cache"] sample_disk
              sample_app Hne Hin) as (_ & _ & Hf & _).
  split; [reflexivity|exact Hf].
Defined.

(** ** More on delete *)

Lemma os_remove_deeper (es : list (string * Fs.node)) (c c' : string)
    (p : Fs.path) :
  os_remove (Fs.Dir es) (c :: c' :: p) =
  match dict_get es c with
  | Some child =>
      child' <- os_remove child (c' :: p) ;;
      Ret (Fs.Dir (Fs.dict_set es c child'))
  | None => Raise OSError
  end.
Proof. reflexivity. Qed.

Lemma os_remove_step (n n' : Fs.node) (p : Fs.path) :
  os_remove n p = Ret n' ->
  exists es c p',
    n = Fs.Dir es /\ p = c :: p' /\
    ((p' = [] /\ n' = Fs.Dir (dict_del es c) /\
      exists x, dict_get es c = Some x /\ forall l, x <> Fs.Dir l) \/
     (p' <> [] /\ exists child child',
         dict_get es c = Some child /\ os_remove child p' = Ret child' /\
         n' = Fs.Dir (Fs.dict_set es c child'))).
Proof.
  destruct n as [size zip| |es]; destruct p as [|c [|c' p'']];
    try (cbn; discriminate); intros H; exists es, c;
    eexists; (split; [reflexivity|]); (split; [reflexivity|]).
  - left. cbn in H.
    destruct (dict_get es c) as [[size zip| |l]|] eqn:Hc; try discriminate;
      injection H as <-; (split; [reflexivity|]); (split; [reflexivity|]);
      eexists; (split; [reflexivity|]); discriminate.
  - right. split; [discriminate|]. rewrite os_remove_deeper in H.
    destruct (dict_get es c) as [child|] eqn:Hc; [|discriminate].
    destruct (os_remove child (c' :: p'')) as [child'|e] eqn:Hr;
      [|discriminate].
    cbn in H. injection H as <-. now exists child, child'.
Qed.

(** What was removed was there, and was no directory. *)
Lemma os_remove_was (p : Fs.path) :
  forall n n',
    os_remove n p = Ret n' ->
    exists x, Fs.get n p = Some x /\ forall l, x <> Fs.Dir l.
Proof.
  induction p as [|c p IH]; intros n n' H;
    destruct (os_remove_step _ _ _ H) as (es & c0 & p' & -> & Hp & Hcase);
    [discriminate|].
  injection Hp as <- <-.
  destruct Hcase as [(-> & _ & x & Hc & Hx)|(Hne & child & child' & Hc & Hr & _)];
    cbn [Fs.get]; rewrite Hc.
  - now exists x.
  - exact (IH _ _ Hr).
Qed.

(** What was removed is there no more. *)
Lemma os_remove_gone (p : Fs.path) :
  forall n n', wf n -> os_remove n p = Ret n' -> Fs.get n' p = None.
Proof.
  induction p as [|c p IH]; intros n n' Hwf H;
    destruct (os_remove_step _ _ _ H) as (es & c0 & p' & -> & Hp & Hcase);
    [discriminate|].
  injection Hp as <- <-.
  destruct Hcase as [(-> & -> & _)|(Hne & child & child' & Hc & Hr & ->)];
    cbn [Fs.get].
  - apply wf_Dir in Hwf. destruct Hwf as [Hnd _].
    now rewrite dict_get_del_same.
  - rewrite dict_get_set_same. apply (IH child); [|exact Hr].
    exact (wf_child _ _ _ Hwf Hc).
Qed.

(** Another file or link stays where it is. *)
Lemma os_remove_frame (p : Fs.path) :
  forall n n' q x,
    os_remove n p = Ret n' -> q <> p -> (forall l, x <> Fs.Dir l) ->
    Fs.get n q = Some x -> Fs.get n' q = Some x.
Proof.
  induction p as [|c p IH]; intros n n' q x H Hq Hx Hget;
    destruct (os_remove_step _ _ _ H) as (es & c0 & p' & -> & Hp & Hcase);
    [discriminate|].
  injection Hp as <- <-.
  destruct q as [|c' q'];
    [cbn in Hget; injection Hget as <-; now destruct (Hx es)|].
  cbn [Fs.get] in Hget |- *.
  destruct Hcase as [(-> & -> & y & Hc & Hy)|(Hne & child & child' & Hc & Hr & ->)].
  - destruct (string_dec c' c) as [->|Hcc].
    + rewrite Hc in Hget.
      rewrite get_not_dir in Hget; [discriminate|exact Hy|].
      intros ->. now apply Hq.
    + now rewrite dict_get_del_other.
  - destruct (string_dec c' c) as [->|Hcc].
    + rewrite dict_get_set_same. rewrite Hc in Hget.
      apply (IH child child' q' x Hr); auto. intros ->. now apply Hq.
    + now rewrite dict_get_set_other.
Qed.

(** Nothing is made: a file or link there afterwards was there before. *)
Lemma os_remove_no_new (p : Fs.path) :
  forall n n' q x,
    wf n -> os_remove n p = Ret n' -> (forall l, x <> Fs.Dir l) ->
    Fs.get n' q = Some x -> Fs.get n q = Some x.
Proof.
  induction p as [|c p IH]; intros n n' q x Hwf H Hx Hget;
    destruct (os_remove_step _ _ _ H) as (es & c0 & p' & -> & Hp & Hcase);
    [discriminate|].
  injection Hp as <- <-.
  destruct Hcase as [(-> & -> & y & Hc & Hy)|(Hne & child & child' & Hc & Hr & ->)];
    (destruct q as [|c' q'];
     [cbn in Hget; injection Hget as <-; now edestruct Hx|]);
    cbn [Fs.get] in Hget |- *.
  - destruct (string_dec c' c) as [->|Hcc].
    + apply wf_Dir in Hwf. destruct Hwf as [Hnd _].
      now rewrite dict_get_del_same in Hget.
    + now rewrite dict_get_del_other in Hget.
  - destruct (string_dec c' c) as [->|Hcc].
    + rewrite dict_get_set_same in Hget. rewrite Hc.
      apply (IH child child' q' x); auto.
      exact (wf_child _ _ _ Hwf Hc).
    + now rewrite dict_get_set_other in Hget.
Qed.

Lemma wf_os_remove (p : Fs.path) :
  forall n n', wf n -> os_remove n p = Ret n' -> wf n'.
Proof.
  induction p as [|c p IH]; intros n n' Hwf H;
    destruct (os_remove_step _ _ _ H) as (es & c0 & p' & -> & Hp & Hcase);
    [discriminate|].
  injection Hp as <- <-.
  destruct Hcase as [(-> & -> & _)|(Hne & child & child' & Hc & Hr & ->)].
  - now apply wf_dict_del.
  - apply wf_dict_set; [exact Hwf|].
    apply (IH child); [|exact Hr]. exact (wf_child _ _ _ Hwf Hc).
Qed.

Lemma delete_loop_cons (s : bulk_state) (m : ModInfo) (l : list ModInfo) :
  delete_loop s (m :: l) =
  delete_loop (bulk_turn s m (os_remove (bulk_disk s) (file_path m))) l.
Proof. reflexivity. Qed.

Lemma delete_loop_keeps (P : Fs.node -> Prop) (selected_mods : list ModInfo) :
  (forall fs m fs',
      In m selected_mods -> P fs ->
      os_remove fs (file_path m) = Ret fs' -> P fs') ->
  forall s, P (bulk_disk s) -> P (bulk_disk (delete_loop s selected_mods)).
Proof.
  induction selected_mods as [|m l IH]; intros Hstep s Hs; [exact Hs|].
  rewrite delete_loop_cons. apply IH.
  - intros fs m' fs' Hm'. apply Hstep. now right.
  - unfold bulk_turn.
    destruct (os_remove (bulk_disk s) (file_path m)) as [fs'|e] eqn:Hr;
      cbn [bulk_disk]; [|exact Hs].
    apply (Hstep (bulk_disk s) m); [now left|exact Hs|exact Hr].
Qed.

Lemma delete_loop_wf (selected_mods : list ModInfo) (s : bulk_state) :
  wf (bulk_disk s) -> wf (bulk_disk (delete_loop s selected_mods)).
Proof.
  apply (delete_loop_keeps wf). intros fs m fs' _ Hwf Hr.
  exact (wf_os_remove _ _ _ Hwf Hr).
Qed.

Lemma delete_loop_no_new (selected_mods : list ModInfo) (s : bulk_state)
    (q : Fs.path) (x : Fs.node) :
  wf (bulk_disk s) -> (forall l, x <> Fs.Dir l) ->
  Fs.get (bulk_disk (delete_loop s selected_mods)) q = Some x ->
  Fs.get (bulk_disk s) q = Some x.
Proof.
  intros Hwf Hx.
  apply (delete_loop_keeps
           (fun d => wf d /\
                     (Fs.get d q = Some x -> Fs.get (bulk_disk s) q = Some x))
           selected_mods); [|now split].
  intros fs m fs' _ [Hwf' Hback] Hr. split.
  - exact (wf_os_remove _ _ _ Hwf' Hr).
  - intros Hget. apply Hback.
    exact (os_remove_no_new _ _ _ _ _ Hwf' Hr Hx Hget).
Qed.

Lemma delete_loop_frame (selected_mods : list ModInfo) (s : bulk_state)
    (q : Fs.path) (x : Fs.node) :
  ~ In q (map file_path selected_mods) -> (forall l, x <> Fs.Dir l) ->
  Fs.get (bulk_disk s) q = Some x ->
  Fs.get (bulk_disk (delete_loop s selected_mods)) q = Some x.
Proof.
  intros Hq Hx.
  apply (delete_loop_keeps (fun d => Fs.get d q = Some x) selected_mods).
  intros fs m fs' Hm Hget Hr.
  apply (os_remove_frame _ _ _ q x Hr); auto.
  intros ->. apply Hq. now apply in_map.
Qed.

(** Without a failure, no selected path holds a regular file. *)
Lemma delete_loop_gone (selected_mods : list ModInfo) :
  forall s,
    wf (bulk_disk s) ->
    bulk_fail (delete_loop s selected_mods) = bulk_fail s ->
    forall m, In m selected_mods ->
              Fs.isfile (bulk_disk (delete_loop s selected_mods))
                (file_path m) = false.
Proof.
  induction selected_mods as [|m0 l IH]; intros s Hwf Hfail m Hm;
    [destruct Hm|].
  rewrite delete_loop_cons in *.
  destruct (bulk_loop_counts
              (fun s m => os_remove (bulk_disk s) (file_path m)) l
              (bulk_turn s m0 (os_remove (bulk_disk s) (file_path m0))))
    as (_ & added & _ & Hc & _).
  cbn zeta in Hc.
  change (fold_left _ l ?s1) with (delete_loop s1 l) in Hc.
  destruct (os_remove (bulk_disk s) (file_path m0)) as [fs'|e] eqn:Hr;
    cbn [bulk_turn bulk_fail] in Hc.
  - pose proof (wf_os_remove _ _ _ Hwf Hr) as Hwf1.
    destruct Hm as [->|Hm]; [|now apply IH].
    pose proof (os_remove_gone _ _ _ Hwf Hr) as Hgone.
    unfold Fs.isfile.
    destruct (Fs.get (bulk_disk (delete_loop (bulk_turn s m (Ret fs')) l))
                (file_path m)) as [[size zip| |es]|] eqn:Hget;
      try reflexivity.
    apply delete_loop_no_new in Hget; [|exact Hwf1|discriminate].
    cbn [bulk_turn bulk_disk] in Hget. congruence.
  - exfalso. cbn [bulk_turn] in Hfail. lia.
Qed.

Section DeleteMore.
Context {E : Extern}.

(** The paths a rescan lists, read off the disk it starts from. *)
Lemma listed_iff (fs : Fs.node) (a : ModCacheX) (p : Fs.path) :
  wf fs ->
  In p (map file_path (mods (snd (refresh_mod_list fs a)))) <->
  exists r size zip,
    r <> [] /\ p = (cache_dir a ++ r)%list /\
    Fs.get fs p = Some (Fs.File size zip) /\
    is_jar (Fs.basename p) = true.
Proof.
  intros Hwf.
  destruct (made_dir_cases fs a)
    as [[Hex Hmade]|[Hex [[e Hmade]|[fs1 [Hmade Hnew]]]]].
  - rewrite (refresh_mod_list_scanned fs fs a Hmade). cbn [snd mods].
    apply (scan_paths fs (cache_dir a) Hwf).
  - rewrite (refresh_mod_list_failed fs a e Hmade). cbn [snd mods map].
    split; [intros []|].
    intros (r & size & zip & Hne & -> & Hget & _).
    now rewrite not_exists_below in Hget.
  - rewrite (refresh_mod_list_scanned fs fs1 a Hmade). cbn [snd mods].
    rewrite (empty_dir_scan is_jar fs1 _ Hnew). cbn [load_mods flat_map map].
    split; [intros []|].
    intros (r & size & zip & Hne & -> & Hget & _).
    now rewrite not_exists_below in Hget.
Qed.

Lemma refresh_disk_same_files (fs : Fs.node) (a : ModCacheX) (p : Fs.path)
    (x : Fs.node) :
  (forall l, x <> Fs.Dir l) ->
  (Fs.get fs p = Some x <-> Fs.get (fst (refresh_mod_list fs a)) p = Some x).
Proof.
  intros Hx. destruct (made_dir fs a) as [fs1|e] eqn:Hmade.
  - rewrite (refresh_mod_list_scanned fs fs1 a Hmade). cbn [fst].
    now apply (made_dir_same_files fs fs1 a).
  - now rewrite (refresh_mod_list_failed fs a e Hmade).
Qed.

Lemma delete_selected_mods_confirmed (selected_mods : list ModInfo)
    (fs : Fs.node) (a : ModCacheX) :
  selected_mods <> [] ->
  let s := delete_loop (bulk_start fs) selected_mods in
  let r := delete_selected_mods selected_mods true fs a in
  result_disk r = fst (refresh_mod_list (bulk_disk s) a) /\
  result_app r = snd (refresh_mod_list (bulk_disk s) a) /\
  result_counts r = s /\
  result_status r =
    (if Nat.ltb 0 (bulk_success s)
     then Some (StDeleted (bulk_success s)) else None) /\
  result_boxes r =
    (if Nat.ltb 0 (bulk_fail s)
     then [ErrDeleteFailed (bulk_fail s) (bulk_failed s)] else []).
Proof.
  intros Hne s r. subst s r. unfold delete_selected_mods.
  destruct selected_mods as [|m0 l] eqn:Hsel; [congruence|].
  rewrite <- Hsel. cbn [negb].
  destruct (refresh_mod_list _ a) as [fs' a']. now repeat split.
Qed.

Lemma delete_loop_counts (selected_mods : list ModInfo) (fs : Fs.node) :
  let s := delete_loop (bulk_start fs) selected_mods in
  (bulk_success s + bulk_fail s = List.length selected_mods)%nat /\
  bulk_fail s = List.length (bulk_failed s) /\
  Forall (fun ne => exists m, In m selected_mods /\ fst ne = file_name m)
         (bulk_failed s).
Proof.
  intros s. subst s. unfold delete_loop.
  destruct (bulk_loop_counts
              (fun s m => os_remove (bulk_disk s) (file_path m))
              selected_mods (bulk_start fs))
    as (Hsum & added & Hf & Hc & Hin).
  cbn zeta in *. cbn [bulk_start bulk_success bulk_fail bulk_failed] in *.
  cbn [List.app Nat.add] in *.
  split; [exact Hsum|]. split; [now rewrite Hf, Hc|]. now rewrite Hf.
Qed.
End DeleteMore.

(** X19: the books of a confirmed delete balance.  Every selected mod is
    one success or one failure; the failure count is the number of
    failures filed, each under the file name of a selected mod; the
    status bar ends reading the number deleted when there is a success
    and what the rescan wrote when there is none; one error box is shown
    exactly when there is a failure; and the disk and the inventory are
    those of a rescan of the disk the loop left. *)
Theorem delete_selected_mods_counts {E : Extern}
    (selected_mods : list ModInfo) (fs : Fs.node) (a : ModCacheX) :
  selected_mods <> [] ->
  let r := delete_selected_mods selected_mods true fs a in
  let s := result_counts r in
  (bulk_success s + bulk_fail s = List.length selected_mods)%nat /\
  bulk_fail s = List.length (bulk_failed s) /\
  Forall (fun ne => exists m, In m selected_mods /\ fst ne = file_name m)
         (bulk_failed s) /\
  result_status r =
    match bulk_success s with
    | O => None
    | S _ => Some (StDeleted (bulk_success s))
    end /\
  result_boxes r =
    match bulk_fail s with
    | O => []
    | S _ => [ErrDeleteFailed (bulk_fail s) (bulk_failed s)]
    end /\
  (result_disk r, result_app r) = refresh_mod_list (bulk_disk s) a.
Proof.
  intros Hne r s. subst s r.
  destruct (delete_selected_mods_confirmed selected_mods fs a Hne)
    as (Hd & Ha & -> & Hst & Hb).
  destruct (delete_loop_counts selected_mods fs) as (Hsum & Hf & Hin).
  cbn zeta in *.
  split; [exact Hsum|]. split; [exact Hf|]. split; [exact Hin|].
  rewrite Hst, Hb, Hd, Ha. repeat split.
  - now destruct (bulk_success _).
  - now destruct (bulk_fail _).
  - now destruct (refresh_mod_list _ a).
Qed.

Lemma delete_selected_mods_counts_witness :
  let selected := [sample_mod "A" 2048; sample_mod "ghost" 0] in
  let r := delete_selected_mods (E := sample_extern) selected true
             sample_disk sample_app in
  selected <> [] /\
  bulk_success (result_counts r) = 1%nat /\
  bulk_failed (result_counts r) = [("ghost.jar", OSError)] /\
  result_status r = Some (StDeleted 1) /\
  map file_name (mods (result_app r)) = ["B.jar"].
Proof.
  intros selected r.
  assert (Hne : selected <> []) by discriminate.
  split; [exact Hne|].
  destruct (delete_selected_mods_counts (E := sample_extern) selected
              sample_disk sample_app Hne) as (_ & _ & _ & Hst & _).
  split; [reflexivity|]. split; [reflexivity|]. split; [exact Hst|].
  reflexivity.
Defined.

(** X20: a confirmed delete of a well-formed disk that files no failure
    leaves no selected mod behind: none of the selected paths holds a
    regular file afterwards, and none is in the inventory. *)
Theorem delete_selected_mods_gone {E : Extern}
    (selected_mods : list ModInfo) (fs : Fs.node) (a : ModCacheX) :
  wf fs ->
  let r := delete_selected_mods selected_mods true fs a in
  bulk_fail (result_counts r) = 0%nat ->
  forall m, In m selected_mods ->
    Fs.isfile (result_disk r) (file_path m) = false /\
    ~ In (file_path m) (map file_path (mods (result_app r))).
Proof.
  intros Hwf r Hfail m Hm. subst r.
  assert (Hne : selected_mods <> []) by (intros ->; destruct Hm).
  destruct (delete_selected_mods_confirmed selected_mods fs a Hne)
    as (Hd & Ha & Hs & _).
  cbn zeta in *. rewrite Hd, Ha. rewrite Hs in Hfail.
  pose proof (delete_loop_gone selected_mods (bulk_start fs) Hwf Hfail m Hm)
    as Hgone.
  pose proof (delete_loop_wf selected_mods (bulk_start fs) Hwf) as Hwf'.
  set (d := bulk_disk (delete_loop (bulk_start fs) selected_mods)) in *.
  split.
  - unfold Fs.isfile in *.
    destruct (Fs.get (fst (refresh_mod_list d a)) (file_path m))
      as [[size zip| |es]|] eqn:Hget; try reflexivity.
    apply (refresh_disk_same_files d a) in Hget; [|discriminate].
    now rewrite Hget in Hgone.
  - intros Hin. apply (listed_iff d a _ Hwf') in Hin.
    destruct Hin as (_ & size & zip & _ & _ & Hget & _).
    unfold Fs.isfile in Hgone. now rewrite Hget in Hgone.
Qed.

Lemma delete_selected_mods_gone_witness :
  let selected := [sample_mod "A" 2048; sample_mod "B" 512] in
  let r := delete_selected_mods (E := sample_extern) selected true
             sample_disk sample_app in
  wf sample_disk /\
  bulk_fail (result_counts r) = 0%nat /\
  Fs.isfile sample_disk ["cache"; "A.jar"] = true /\
  Fs.isfile (result_disk r) ["cache"; "A.jar"] = false /\
  mods (result_app r) = [].
Proof.
  intros selected r.
  assert (Hwf : wf sample_disk) by wf_concrete.
  assert (Hfail : bulk_fail (result_counts r) = 0%nat) by reflexivity.
  split; [exact Hwf|]. split; [exact Hfail|]. split; [reflexivity|].
  split; [|reflexivity].
  exact (proj1 (delete_selected_mods_gone (E := sample_extern) selected
                  sample_disk sample_app Hwf Hfail (sample_mod "A" 2048)
                  (or_introl eq_refl))).
Defined.

(** X21: a delete touches the selected files only, the log apart.  On a
    well-formed disk, whatever was answered and whatever failed, a path
    that is not the path of a selected mod and whose base name is not the
    log's holds a regular file, or a dangling link, afterwards exactly
    when it held the same one before. *)
Theorem delete_selected_mods_others {E : Extern}
    (selected_mods : list ModInfo) (confirmed : bool) (fs : Fs.node)
    (a : ModCacheX) (q : Fs.path) (x : Fs.node) :
  wf fs ->
  ~ In q (map file_path selected_mods) ->
  Fs.basename q <> log_file ->
  (forall l, x <> Fs.Dir l) ->
  let r := delete_selected_mods selected_mods confirmed fs a in
  Fs.get fs q = Some x <-> Fs.get (result_disk r) q = Some x.
Proof.
  intros Hwf Hq _ Hx r. subst r.
  destruct selected_mods as [|m0 l] eqn:Hsel; [reflexivity|].
  destruct confirmed; [|reflexivity].
  rewrite <- Hsel in *.
  assert (Hne : selected_mods <> []) by (rewrite Hsel; discriminate).
  destruct (delete_selected_mods_confirmed selected_mods fs a Hne)
    as (-> & _).
  rewrite <- (refresh_disk_same_files _ a q x Hx). split.
  - now apply (delete_loop_frame selected_mods (bulk_start fs)).
  - now apply (delete_loop_no_new selected_mods (bulk_start fs)).
Qed.

Lemma delete_selected_mods_others_witness :
  let selected := [sample_mod "A" 2048] in
  let r := delete_selected_mods (E := sample_extern) selected true
             sample_disk sample_app in
  wf sample_disk /\
  Fs.get (result_disk r) ["cache"; "notes.txt"] = Some (Fs.File 100 None) /\
  Fs.get (result_disk r) ["cache"; "A.jar"] = None.
Proof.
  intros selected r.
  assert (Hwf : wf sample_disk) by wf_concrete.
  split; [exact Hwf|]. split; [|reflexivity].
  apply (proj1 (delete_selected_mods_others (E := sample_extern) selected
                  true sample_disk sample_app ["cache"; "notes.txt"]
                  (Fs.File 100 None) Hwf
                  ltac:(intros Hin; cbn in Hin; destruct Hin as [H|[]];
                        discriminate H)
                  ltac:(discriminate) ltac:(discriminate))).
  reflexivity.
Defined.

(** X22: what a delete does to the list.  After a confirmed delete of a
    well-formed disk that files no failure, the paths in the inventory
    are exactly the paths a rescan without the delete would list, less
    the selected ones. *)
Theorem delete_selected_mods_listed {E : Extern}
    (selected_mods : list ModInfo) (fs : Fs.node) (a : ModCacheX)
    (p : Fs.path) :
  wf fs ->
  selected_mods <> [] ->
  let r := delete_selected_mods selected_mods true fs a in
  bulk_fail (result_counts r) = 0%nat ->
  In p (map file_path (mods (result_app r))) <->
  In p (map file_path (mods (snd (refresh_mod_list fs a)))) /\
  ~ In p (map file_path selected_mods).
Proof.
  intros Hwf Hne r Hfail. subst r.
  destruct (delete_selected_mods_confirmed selected_mods fs a Hne)
    as (_ & Ha & Hs & _).
  cbn zeta in *. rewrite Ha. rewrite Hs in Hfail.
  pose proof (delete_loop_wf selected_mods (bulk_start fs) Hwf) as Hwf'.
  rewrite (listed_iff _ a p Hwf'), (listed_iff fs a p Hwf).
  split.
  - intros (r & size & zip & Hr & Hp & Hget & Hjar).
    assert (Hout : ~ In p (map file_path selected_mods)).
    { intros Hin. apply in_map_iff in Hin. destruct Hin as (m & <- & Hm).
      pose proof (delete_loop_gone selected_mods (bulk_start fs) Hwf Hfail
                    m Hm) as Hgone.
      unfold Fs.isfile in Hgone. now rewrite Hget in Hgone. }
    split; [|exact Hout].
    exists r, size, zip. repeat split; auto.
    apply (delete_loop_no_new selected_mods (bulk_start fs)); auto.
    discriminate.
  - intros [(r & size & zip & Hr & Hp & Hget & Hjar) Hout].
    exists r, size, zip. repeat split; auto.
    apply (delete_loop_frame selected_mods (bulk_start fs)); auto.
    discriminate.
Qed.

Lemma delete_selected_mods_listed_witness :
  let selected := [sample_mod "A" 2048] in
  let r := delete_selected_mods (E := sample_extern) selected true
             sample_disk sample_app in
  wf sample_disk /\
  bulk_fail (result_counts r) = 0%nat /\
  map file_path
    (mods (snd (refresh_mod_list (E := sample_extern) sample_disk
                  sample_app)))
  = [["cache"; "A.jar"]; ["cache"; "B.jar"]] /\
  In ["cache"; "B.jar"] (map file_path (mods (result_app r))).
Proof.
  intros selected r.
  assert (Hwf : wf sample_disk) by wf_concrete.
  assert (Hne : selected <> []) by discriminate.
  assert (Hfail : bulk_fail (result_counts r) = 0%nat) by reflexivity.
  split; [exact Hwf|]. split; [exact Hfail|]. split; [reflexivity|].
  apply (proj2 (delete_selected_mods_listed (E := sample_extern) selected
                  sample_disk sample_app ["cache"; "B.jar"] Hwf Hne Hfail)).
  split; [right; left; reflexivity|].
  intros Hin. cbn in Hin. destruct Hin as [H|[]]. discriminate H.
Defined.

(** ** The selection *)

Lemma find_mod_In (inventory : list ModInfo) (m : ModInfo) :
  NoDup (map file_path inventory) -> In m inventory ->
  find_mod inventory (file_path m) = Some m.
Proof.
  unfold find_mod. induction inventory as [|m0 l IH]; intros Hnd Hin;
    [destruct Hin|].
  cbn [map] in Hnd. inversion Hnd as [|? ? Hnotin Hnd']; subst.
  cbn [find]. unfold Fs.path_eqb at 1.
  destruct (list_eq_dec string_dec (file_path m0) (file_path m)) as [Heq|Hne].
  - destruct Hin as [->|Hin]; [reflexivity|].
    destruct Hnotin. rewrite Heq. now apply in_map.
  - destruct Hin as [->|Hin]; [congruence|]. now apply IH.
Qed.

Lemma find_mod_Some (inventory : list ModInfo) (mod_path : Fs.path)
    (m : ModInfo) :
  find_mod inventory mod_path = Some m ->
  In m inventory /\ file_path m = mod_path.
Proof.
  unfold find_mod. intros H. apply find_some in H. destruct H as [Hin Heq].
  split; [exact Hin|]. unfold Fs.path_eqb in Heq.
  now destruct (list_eq_dec string_dec (file_path m) mod_path).
Qed.

Lemma on_mod_select_cons (r : row) (selected_items : list row)
    (a : ModCacheX) :
  on_mod_select (r :: selected_items) a =
  (match find_mod (mods a) (cell_path r) with
   | Some m => [m]
   | None => []
   end ++ on_mod_select selected_items a)%list.
Proof. reflexivity. Qed.

Lemma on_mod_select_rows (a : ModCacheX) (chosen : list ModInfo) :
  NoDup (map file_path (mods a)) ->
  Forall (fun m => In m (mods a)) chosen ->
  on_mod_select (map tree_row chosen) a = chosen.
Proof.
  intros Hnd Hin. induction Hin as [|m l Hm Hl IH]; [reflexivity|].
  cbn [map]. rewrite on_mod_select_cons. cbn [tree_row cell_path].
  rewrite (find_mod_In _ _ Hnd Hm), IH. reflexivity.
Qed.

(** X23: selecting lines gives back their mods.  After a rescan of a
    well-formed disk, selecting the lines of any mods of the inventory,
    in any order and number, makes exactly those mods the selection, in
    the order of the lines. *)
Theorem on_mod_select_round_trip {E : Extern} (fs : Fs.node)
    (a : ModCacheX) (chosen : list ModInfo) :
  wf fs ->
  let a' := snd (refresh_mod_list fs a) in
  Forall (fun m => In m (mods a')) chosen ->
  on_mod_select (map tree_row chosen) a' = chosen.
Proof.
  intros Hwf a' Hin. apply on_mod_select_rows; [|exact Hin]. subst a'.
  destruct (made_dir fs a) as [fs1|e] eqn:Hmade.
  - rewrite (refresh_mod_list_scanned fs fs1 a Hmade). cbn [snd mods].
    destruct (made_dir_cases fs a)
      as [[_ Hsame]|[_ [[e Hfail]|[fs2 [Hmade2 Hnew]]]]].
    + assert (fs1 = fs) by congruence. subst fs1.
      apply (scan_paths fs (cache_dir a) Hwf).
    + congruence.
    + assert (fs2 = fs1) by congruence. subst fs2.
      rewrite (empty_dir_scan is_jar fs1 _ Hnew). constructor.
  - rewrite (refresh_mod_list_failed fs a e Hmade). constructor.
Qed.

Lemma on_mod_select_round_trip_witness :
  let a' := snd (refresh_mod_list (E := sample_extern) sample_disk
                   sample_app) in
  let chosen := rev (mods a') in
  wf sample_disk /\
  map file_name chosen = ["B.jar"; "A.jar"] /\
  on_mod_select (map tree_row chosen) a' = chosen.
Proof.
  intros a' chosen.
  assert (Hwf : wf sample_disk) by wf_concrete.
  split; [exact Hwf|]. split; [reflexivity|].
  apply (on_mod_select_round_trip (E := sample_extern) sample_disk
           sample_app chosen Hwf).
  apply Forall_forall. intros m Hm. now apply in_rev.
Defined.

(** X24: the selection is made of the inventory: whatever lines are
    selected, every mod of the selection is in the inventory and has the
    path of a selected line, and there are no more mods than lines; lines
    whose path no mod of the inventory has add nothing. *)
Theorem on_mod_select_sound (selected_items : list row) (a : ModCacheX) :
  Forall (fun m => In m (mods a) /\
                   In (file_path m) (map cell_path selected_items))
         (on_mod_select selected_items a) /\
  (List.length (on_mod_select selected_items a)
   <= List.length selected_items)%nat /\
  ((forall r, In r selected_items ->
              ~ In (cell_path r) (map file_path (mods a))) ->
   on_mod_select selected_items a = []).
Proof.
  induction selected_items as [|r l (IHin & IHlen & IHnone)].
  - repeat split; [constructor|cbn; lia].
  - rewrite on_mod_select_cons.
    destruct (find_mod (mods a) (cell_path r)) as [m|] eqn:Hfind.
    + apply find_mod_Some in Hfind. destruct Hfind as [Hm Hpath].
      repeat split.
      * constructor; [split; [exact Hm|left; now rewrite Hpath]|].
        eapply Forall_impl; [|exact IHin].
        intros m' [Hm' Hp']. split; [exact Hm'|now right].
      * cbn [List.app List.length]. lia.
      * intros Hstale. destruct (Hstale r (or_introl eq_refl)).
        rewrite <- Hpath. now apply in_map.
    + cbn [List.app]. repeat split.
      * eapply Forall_impl; [|exact IHin].
        intros m' [Hm' Hp']. split; [exact Hm'|now right].
      * cbn [List.length]. lia.
      * intros Hstale. apply IHnone. intros r' Hr'. apply Hstale.
        now right.
Qed.
